(** * micrograd-hck: a scalar reverse-mode autograd engine, its layers,
      losses and optimizers

    Shallow embedding of [engine.py], [nn.py] and [optim.py].

    Python objects live in a store (an arena indexed by object identity);
    a [Value] is referred to by its index.  Python floats are taken through
    the interface [PyFloat], which is instantiated twice: by IEEE-754
    binary64 (the numbers CPython computes with) and by the real numbers
    (the arithmetic the derivative rules are stated in). *)

From Stdlib Require Import ZArith Bool Lia String.
From Stdlib Require Import Reals Lra.
From Stdlib Require Import Floats.SpecFloat.
From stdpp Require Import base option list gmap.

Set Default Proof Using "Type".
Local Open Scope Z_scope.

(** ** Exceptions and results *)

Inductive pyerror : Type :=
| AssertionError
| ValueError
| ZeroDivisionError
| OverflowError
| TypeError
| IndexError
| RecursionError
| ComplexGradient.   (* no exception of Python: see [call_backward] *)

Inductive result (A : Type) : Type :=
| Ok (a : A)
| Err (e : pyerror).
Arguments Ok {A} a.
Arguments Err {A} e.

Definition rbind {A B : Type} (r : result A) (k : A -> result B) : result B :=
  match r with
  | Ok a => k a
  | Err e => Err e
  end.

(** ** Python floats

    The operations of a Python [float] that the three modules use.  An
    operation that can raise returns a [result]. *)

Class PyFloat (F : Type) : Type := {
  f0 : F;                          (* 0.0 *)
  f1 : F;                          (* 1.0 *)
  fadd : F -> F -> F;              (* x + y *)
  fsub : F -> F -> F;              (* x - y *)
  fmul : F -> F -> F;              (* x * y *)
  fneg : F -> F;                   (* -x *)
  fdiv : F -> F -> result F;       (* x / y, ZeroDivisionError *)
  feqb : F -> F -> bool;           (* x == y *)
  fltb : F -> F -> bool;           (* x < y *)
  fleb : F -> F -> bool;           (* x <= y *)
  of_int : Z -> result F;          (* float(n), OverflowError *)
  fpow : F -> F -> result F;       (* x ** y *)
  fdec : Z -> Z -> F;              (* the literal m e k, as in 1e-12 *)
  m_exp : F -> result F;           (* math.exp *)
  m_log : F -> result F;           (* math.log *)
  m_tanh : F -> result F;          (* math.tanh *)
  m_sqrt : F -> result F           (* math.sqrt *)
}.

(** *** IEEE-754 binary64

    CPython's [float] is the C [double].  Addition, subtraction,
    multiplication, division and square root are the correctly rounded
    operations of [SpecFloat]; what CPython takes from the C library
    ([pow], [exp], [log], [tanh]) is a parameter. *)

Definition binary64 : Type := spec_float.

Definition prec : Z := 53.
Definition emax : Z := 1024.

Class libm : Type := mkLibm {
  c_pow : binary64 -> binary64 -> binary64;
  c_exp : binary64 -> binary64;
  c_log : binary64 -> binary64;
  c_tanh : binary64 -> binary64
}.

Definition b64_zero : binary64 := S754_zero false.
Definition b64_one : binary64 := SFone prec emax.
Definition b64_of_Z (z : Z) : binary64 := binary_normalize prec emax z 0 false.

Definition is_nan (x : binary64) : bool :=
  match x with
  | S754_nan => true
  | _ => false
  end.

Definition is_inf (x : binary64) : bool :=
  match x with
  | S754_infinity _ => true
  | _ => false
  end.

Definition is_finite (x : binary64) : bool :=
  match x with
  | S754_zero _ | S754_finite _ _ _ => true
  | _ => false
  end.

Definition b64_eqb : binary64 -> binary64 -> bool := SFeqb.
Definition b64_ltb : binary64 -> binary64 -> bool := SFltb.
Definition b64_leb : binary64 -> binary64 -> bool := SFleb.

(** [float_div] of floatobject.c *)
Definition b64_div (x y : binary64) : result binary64 :=
  if b64_eqb y b64_zero then Err ZeroDivisionError
  else Ok (SFdiv prec emax x y).

(** [PyLong_AsDouble]: round to nearest even, OverflowError beyond the
    largest double. *)
Definition b64_of_int (z : Z) : result binary64 :=
  let r := b64_of_Z z in
  if is_inf r then Err OverflowError else Ok r.

(** [x] is an integer ([x == floor(x)]), for finite [x]. *)
Definition is_integer (x : binary64) : bool :=
  match x with
  | S754_finite _ m e =>
      if 0 <=? e then true else Z.pos m mod 2 ^ (- e) =? 0
  | _ => true
  end.

(** [DOUBLE_IS_ODD_INTEGER]: [fmod(fabs(x), 2.0) == 1.0] *)
Definition is_odd_integer (x : binary64) : bool :=
  match x with
  | S754_finite _ m e =>
      if 0 <? e then false
      else (Z.pos m mod 2 ^ (- e) =? 0) && Z.odd (Z.pos m / 2 ^ (- e))
  | _ => false
  end.

(** [copysign(0.0, x)] *)
Definition zero_with_sign_of (x : binary64) : binary64 :=
  match x with
  | S754_zero s | S754_infinity s | S754_finite s _ _ => S754_zero s
  | S754_nan => S754_zero false
  end.

(** [float_pow] of floatobject.c, case by case.  A negative base with a
    fractional exponent makes a [complex]; where the engine gives the power
    to [Value(...)], [float()] of it is a TypeError, and so it is here.
    The one place where the engine keeps the power as it is, the backward
    rule of a power node, tells the two apart (see [call_backward]). *)
Definition b64_pow {L : libm} (iv iw : binary64) : result binary64 :=
  if b64_eqb iw b64_zero then Ok b64_one
  else if is_nan iv then Ok iv
  else if is_nan iw then Ok (if b64_eqb iv b64_one then b64_one else iw)
  else if is_inf iw then
    let iv := SFabs iv in
    if b64_eqb iv b64_one then Ok b64_one
    else if eqb (b64_ltb b64_zero iw) (b64_ltb b64_one iv) then Ok (SFabs iw)
    else Ok b64_zero
  else if is_inf iv then
    let iw_is_odd := is_odd_integer iw in
    if b64_ltb b64_zero iw then Ok (if iw_is_odd then iv else SFabs iv)
    else Ok (if iw_is_odd then zero_with_sign_of iv else b64_zero)
  else if b64_eqb iv b64_zero then
    let iw_is_odd := is_odd_integer iw in
    if b64_ltb iw b64_zero then Err ZeroDivisionError
    else Ok (if iw_is_odd then iv else b64_zero)
  else if b64_ltb iv b64_zero && negb (is_integer iw) then Err TypeError
  else
    let negate_result := b64_ltb iv b64_zero && is_odd_integer iw in
    let iv := if b64_ltb iv b64_zero then SFopp iv else iv in
    if b64_eqb iv b64_one then Ok (if negate_result then SFopp b64_one else b64_one)
    else
      let ix := c_pow iv iw in
      if is_inf ix then Err OverflowError
      else Ok (if negate_result then SFopp ix else ix).

(** [math_1] of mathmodule.c around a C function: a NaN from a number is
    a ValueError, an infinity from a finite number is an OverflowError
    where the function can overflow and a ValueError otherwise. *)
Definition math_1 (func : binary64 -> binary64) (can_overflow : bool)
    (x : binary64) : result binary64 :=
  let r := func x in
  if is_nan r && negb (is_nan x) then Err ValueError
  else if is_inf r && is_finite x then
    Err (if can_overflow then OverflowError else ValueError)
  else Ok r.

(** [m_log] of mathmodule.c *)
Definition m_log_c {L : libm} (x : binary64) : binary64 :=
  if is_finite x then
    if b64_ltb b64_zero x then c_log x
    else if b64_eqb x b64_zero then S754_infinity true
    else S754_nan
  else if is_nan x then x
  else if b64_ltb b64_zero x then x
  else S754_nan.

(** A decimal literal [m e k]: correctly rounded whenever [m] and [10^-k]
    are doubles themselves, which holds for the literals of the modules. *)
Definition b64_dec (m k : Z) : binary64 :=
  if 0 <=? k then b64_of_Z (m * 10 ^ k)
  else SFdiv prec emax (b64_of_Z m) (b64_of_Z (10 ^ (- k))).

#[export] Instance binary64_float {L : libm} : PyFloat binary64 := {|
  f0 := b64_zero;
  f1 := b64_one;
  fadd := SFadd prec emax;
  fsub := SFsub prec emax;
  fmul := SFmul prec emax;
  fneg := SFopp;
  fdiv := b64_div;
  feqb := b64_eqb;
  fltb := b64_ltb;
  fleb := b64_leb;
  of_int := b64_of_int;
  fpow := b64_pow;
  fdec := b64_dec;
  m_exp := math_1 c_exp true;
  m_log := math_1 m_log_c false;
  m_tanh := math_1 c_tanh false;
  m_sqrt := math_1 (SFsqrt prec emax) false
|}.

(** *** Real numbers

    The same interface in exact arithmetic: nothing overflows and nothing
    is rounded; the errors left are the division by zero and the domain
    errors. *)

Definition R_eqb (x y : R) : bool := if Req_dec_T x y then true else false.
Definition R_ltb (x y : R) : bool := if Rlt_dec x y then true else false.
Definition R_leb (x y : R) : bool := if Rle_dec x y then true else false.

Definition R_div (x y : R) : result R :=
  if R_eqb y 0 then Err ZeroDivisionError else Ok (x / y)%R.

(** [x ** y], by the cases of [float_pow]. *)
Definition R_pow (x y : R) : result R :=
  if R_eqb y 0 then Ok 1%R
  else if R_eqb x 0 then
    if R_ltb y 0 then Err ZeroDivisionError else Ok 0%R
  else if R_ltb 0 x then Ok (Rpower x y)
  else if R_eqb (frac_part y) 0 then Ok (powerRZ x (Int_part y))
  else Err TypeError.

#[export] Instance real_float : PyFloat R := {|
  f0 := 0%R;
  f1 := 1%R;
  fadd := Rplus;
  fsub := Rminus;
  fmul := Rmult;
  fneg := Ropp;
  fdiv := R_div;
  feqb := R_eqb;
  fltb := R_ltb;
  fleb := R_leb;
  of_int := fun z => Ok (IZR z);
  fpow := R_pow;
  fdec := fun m k => (IZR m * powerRZ 10 k)%R;
  m_exp := fun x => Ok (Rtrigo_def.exp x);
  m_log := fun x => if R_ltb 0 x then Ok (ln x) else Err ValueError;
  m_tanh := fun x => Ok (Rtrigo_def.tanh x);
  m_sqrt := fun x => if R_ltb x 0 then Err ValueError else Ok (sqrt x)
|}.

(** ** The engine *)

Section Engine.
Context {F : Type} {PF : PyFloat F}.

(** A Python number: an [int] or a [float]. *)
Inductive pynum : Type :=
| PyInt (z : Z)
| PyFl (x : F).

(** [float(n)] *)
Definition to_float (n : pynum) : result F :=
  match n with
  | PyInt z => of_int z
  | PyFl x => Ok x
  end.

(** The [_backward] closures.  Each keeps the references it closes over
    ([self], [other], [out]) and the locals it captured by value. *)
Inductive closure : Type :=
| bw_none                                           (* lambda: None *)
| bw_add (self other out : nat)
| bw_neg (self out : nat)
| bw_mul (self other out : nat)
| bw_pow (self : nat) (exponent : pynum) (out : nat)
| bw_exp (self : nat) (out_data : F) (out : nat)
| bw_log (self : nat) (safe : F) (out : nat)
| bw_tanh (self : nat) (t : F) (out : nat)
| bw_relu (self out : nat).

(** The [_op] labels. *)
Inductive op_label : Type :=
| op_leaf                      (* '' *)
| op_add                       (* '+' *)
| op_neg                       (* 'neg' *)
| op_mul                       (* '*' *)
| op_pow (exponent : pynum)    (* f'**{exponent}' *)
| op_exp                       (* 'exp' *)
| op_log                       (* 'log' *)
| op_tanh                      (* 'tanh' *)
| op_relu                      (* 'relu' *)
| op_sigmoid.                  (* 'sigmoid' *)

Record Value : Type := mkValue {
  data : F;
  grad : F;
  _prev : list nat;            (* a set of Values, by identity *)
  _op : op_label;
  _backward : closure;
  label : string
}.

(** The store: every [Value] allocated so far, by identity. *)
Local Abbreviation store := (list Value).

Inductive outcome (A : Type) : Type :=
| Return (a : A) (s : store)
| Raise (e : pyerror) (s : store).
Arguments Return {A} a s.
Arguments Raise {A} e s.

Definition M (A : Type) : Type := store -> outcome A.

Definition ret {A : Type} (a : A) : M A := fun s => Return a s.

Definition bind {A B : Type} (m : M A) (k : A -> M B) : M B :=
  fun s =>
    match m s with
    | Return a s' => k a s'
    | Raise e s' => Raise e s'
    end.

Definition raise {A : Type} (e : pyerror) : M A := fun s => Raise e s.

Definition lift {A : Type} (r : result A) : M A :=
  fun s =>
    match r with
    | Ok a => Return a s
    | Err e => Raise e s
    end.

Definition final_store {A : Type} (o : outcome A) : store :=
  match o with
  | Return _ s => s
  | Raise _ s => s
  end.

(** Attribute reads and writes. *)
Definition get_data (s : store) (v : nat) : F :=
  match s !! v with
  | Some n => data n
  | None => f0
  end.

Definition get_grad (s : store) (v : nat) : F :=
  match s !! v with
  | Some n => grad n
  | None => f0
  end.

Definition get_prev (s : store) (v : nat) : list nat :=
  match s !! v with
  | Some n => _prev n
  | None => []
  end.

Definition get_backward (s : store) (v : nat) : closure :=
  match s !! v with
  | Some n => _backward n
  | None => bw_none
  end.

Definition with_data (d : F) (n : Value) : Value :=
  mkValue d (grad n) (_prev n) (_op n) (_backward n) (label n).

Definition with_grad (g : F) (n : Value) : Value :=
  mkValue (data n) g (_prev n) (_op n) (_backward n) (label n).

Definition with_op (o : op_label) (n : Value) : Value :=
  mkValue (data n) (grad n) (_prev n) o (_backward n) (label n).

Definition with_backward (c : closure) (n : Value) : Value :=
  mkValue (data n) (grad n) (_prev n) (_op n) c (label n).

Definition set_data (v : nat) (d : F) (s : store) : store :=
  alter (with_data d) v s.

Definition set_grad (v : nat) (g : F) (s : store) : store :=
  alter (with_grad g) v s.

Definition set_op (v : nat) (o : op_label) (s : store) : store :=
  alter (with_op o) v s.

Definition set_backward (v : nat) (c : closure) (s : store) : store :=
  alter (with_backward c) v s.

Definition read_data (v : nat) : M F := fun s => Return (get_data s v) s.

(** [set(_children)]: the children without repetition. *)
Definition pyset (children : list nat) : list nat := remove_dups children.

(** [Value.__init__] on a float. *)
Definition Value_init (d : F) (_children : list nat) (o : op_label) : M nat :=
  fun s =>
    Return (length s) (s ++ [mkValue d f0 (pyset _children) o bw_none EmptyString]).

(** [Value(x)] for a Python number [x]: [float(x)] first. *)
Definition Value_of (n : pynum) : M nat :=
  bind (lift (to_float n)) (fun d => Value_init d [] op_leaf).

(** What an operator receives on its right: a [Value] or a number. *)
Inductive operand : Type :=
| OValue (v : nat)
| ONum (n : pynum).

Definition _ensure_value (other : operand) : M nat :=
  match other with
  | OValue v => ret v
  | ONum n => Value_of n
  end.

(** An operation's last two statements:
    [out._backward = _backward; return out]. *)
Definition finish (out : nat) (c : closure) : M nat :=
  fun s => Return out (set_backward out c s).

Definition __add__ (self : nat) (other : operand) : M nat :=
  bind (_ensure_value other) (fun other =>
  bind (read_data self) (fun a =>
  bind (read_data other) (fun b =>
  bind (Value_init (fadd a b) [self; other] op_add) (fun out =>
  finish out (bw_add self other out))))).

Definition __radd__ (self : nat) (other : operand) : M nat :=
  __add__ self other.

Definition __neg__ (self : nat) : M nat :=
  bind (read_data self) (fun a =>
  bind (Value_init (fneg a) [self] op_neg) (fun out =>
  finish out (bw_neg self out))).

Definition __sub__ (self : nat) (other : operand) : M nat :=
  bind (_ensure_value other) (fun other =>
  bind (__neg__ other) (fun n =>
  __add__ self (OValue n))).

Definition __mul__ (self : nat) (other : operand) : M nat :=
  bind (_ensure_value other) (fun other =>
  bind (read_data self) (fun a =>
  bind (read_data other) (fun b =>
  bind (Value_init (fmul a b) [self; other] op_mul) (fun out =>
  finish out (bw_mul self other out))))).

Definition __rmul__ (self : nat) (other : operand) : M nat :=
  __mul__ self other.

(** [x ** e] for a float [x] and a number [e]. *)
Definition pow_num (x : F) (e : pynum) : result F :=
  rbind (to_float e) (fun y => fpow x y).

(** [e * x] for a number [e] and a float [x]. *)
Definition num_mul (e : pynum) (x : F) : result F :=
  rbind (to_float e) (fun y => Ok (fmul y x)).

(** [e - 1] *)
Definition num_pred (e : pynum) : pynum :=
  match e with
  | PyInt z => PyInt (z - 1)
  | PyFl x => PyFl (fsub x f1)
  end.

(** [e < 0] *)
Definition num_neg (e : pynum) : bool :=
  match e with
  | PyInt z => z <? 0
  | PyFl x => fltb x f0
  end.

Definition __pow__ (self : nat) (exponent : operand) : M nat :=
  match exponent with
  | OValue _ => raise AssertionError
  | ONum exponent =>
      bind (read_data self) (fun a =>
      bind (lift (pow_num a exponent)) (fun d =>
      bind (Value_init d [self] (op_pow exponent)) (fun out =>
      finish out (bw_pow self exponent out))))
  end.

Definition __truediv__ (self : nat) (other : operand) : M nat :=
  bind (_ensure_value other) (fun other =>
  bind (__pow__ other (ONum (PyInt (-1)))) (fun p =>
  __mul__ self (OValue p))).

Definition __rtruediv__ (self : nat) (other : operand) : M nat :=
  bind (_ensure_value other) (fun other =>
  __truediv__ other (OValue self)).

Definition exp (self : nat) : M nat :=
  bind (read_data self) (fun a =>
  bind (lift (m_exp a)) (fun out_data =>
  bind (Value_init out_data [self] op_exp) (fun out =>
  finish out (bw_exp self out_data out)))).

Definition EPS : F := fdec 1 (-12).

Definition log (self : nat) : M nat :=
  bind (read_data self) (fun a =>
  let safe := if fltb EPS a then a else EPS in
  bind (lift (m_log safe)) (fun d =>
  bind (Value_init d [self] op_log) (fun out =>
  finish out (bw_log self safe out)))).

Definition tanh (self : nat) : M nat :=
  bind (read_data self) (fun a =>
  bind (lift (m_tanh a)) (fun t =>
  bind (Value_init t [self] op_tanh) (fun out =>
  finish out (bw_tanh self t out)))).

Definition relu (self : nat) : M nat :=
  bind (read_data self) (fun a =>
  let out_data := if fltb f0 a then a else f0 in
  bind (Value_init out_data [self] op_relu) (fun out =>
  finish out (bw_relu self out))).

Definition __rsub__ (self : nat) (other : operand) : M nat :=
  bind (_ensure_value other) (fun other =>
  __sub__ other (OValue self)).

(** [detach]: a new [Value] with the same number and no history. *)
Definition detach (self : nat) : M nat :=
  bind (read_data self) (fun a => Value_init a [] op_leaf).

(** [1.0 / (1.0 + (-self).exp())], then the label is overwritten. *)
Definition sigmoid (self : nat) : M nat :=
  bind (__neg__ self) (fun n =>
  bind (exp n) (fun e =>
  bind (__radd__ e (ONum (PyFl f1))) (fun d =>
  bind (__rtruediv__ d (ONum (PyFl f1))) (fun out =>
  fun s => Return out (set_op out op_sigmoid s))))).

(** *** Local backward rules

    [self.grad += delta] *)
Definition iadd_grad (v : nat) (delta : F) (s : store) : store :=
  set_grad v (fadd (get_grad s v) delta) s.

(** The local derivative of a power node, the [grad_local] of
    [__pow__._backward]. *)
Definition pow_grad_local (a : F) (exponent : pynum) : result F :=
  if feqb a f0 && num_neg (num_pred exponent) then Ok f0
  else rbind (pow_num a (num_pred exponent)) (fun p => num_mul exponent p).

(** In the rule of a power node nothing converts [grad_local] to a float:
    when the base is negative and [exponent - 1] is fractional (which takes
    a [.data] assigned after the node was built), [self.data ** (exponent -
    1)] is a [complex], the code adds it to [self.grad] and goes on with a
    complex gradient.  The store holds floats only, so the model follows
    the code up to that statement and stops there with [ComplexGradient],
    which stands for no exception of the code.  [pow_num] reports exactly
    that case as a TypeError; the other errors are raised as they are. *)
Definition pow_rule_error (e : pyerror) : pyerror :=
  match e with
  | TypeError => ComplexGradient
  | _ => e
  end.

(** Calling a [_backward] closure.  Statements run in order, each on the
    store the previous one left. *)
Definition call_backward (c : closure) : M unit :=
  fun s =>
    match c with
    | bw_none => Return tt s
    | bw_add self other out =>
        let s := iadd_grad self (fmul f1 (get_grad s out)) s in
        let s := iadd_grad other (fmul f1 (get_grad s out)) s in
        Return tt s
    | bw_neg self out =>
        Return tt (iadd_grad self (fmul (fneg f1) (get_grad s out)) s)
    | bw_mul self other out =>
        let s := iadd_grad self (fmul (get_data s other) (get_grad s out)) s in
        let s := iadd_grad other (fmul (get_data s self) (get_grad s out)) s in
        Return tt s
    | bw_pow self exponent out =>
        match pow_grad_local (get_data s self) exponent with
        | Ok grad_local =>
            Return tt (iadd_grad self (fmul grad_local (get_grad s out)) s)
        | Err e => Raise (pow_rule_error e) s
        end
    | bw_exp self out_data out =>
        Return tt (iadd_grad self (fmul out_data (get_grad s out)) s)
    | bw_log self safe out =>
        match fdiv f1 safe with
        | Ok q => Return tt (iadd_grad self (fmul q (get_grad s out)) s)
        | Err e => Raise e s
        end
    | bw_tanh self t out =>
        Return tt (iadd_grad self (fmul (fsub f1 (fmul t t)) (get_grad s out)) s)
    | bw_relu self out =>
        let d := if fltb f0 (get_data s self) then f1 else f0 in
        Return tt (iadd_grad self (fmul d (get_grad s out)) s)
    end.

(** *** Backpropagation *)

(** The order in which a [for] loop meets the members of a set of
    [Value]s.  CPython leaves it to the hashes of the objects, so it is a
    parameter here. *)
Variable set_iter : list nat -> list nat.

(** The two locals of [backward] that [build] updates. *)
Record dfs : Type := mkDfs {
  visited : list nat;
  topo : list nat
}.

Fixpoint for_each {A : Type} (body : nat -> A -> option A) (l : list nat) (a : A)
  : option A :=
  match l with
  | [] => Some a
  | x :: l' =>
      match body x a with
      | Some a' => for_each body l' a'
      | None => None
      end
  end.

(** [build]; the first argument bounds the depth of the recursion. *)
Fixpoint build (depth : nat) (s : store) (v : nat) (st : dfs) : option dfs :=
  match depth with
  | O => None
  | S depth' =>
      if bool_decide (v ∈ visited st) then Some st
      else
        match for_each (build depth' s) (set_iter (get_prev s v))
                       (mkDfs (v :: visited st) (topo st)) with
        | Some st' => Some (mkDfs (visited st') (topo st' ++ [v]))
        | None => None
        end
  end.

(** What a completed [build] has done: it appended the nodes it visited,
    and every node it appended has all its parents visited. *)
Definition extends (s : store) (st st' : dfs) : Prop :=
  exists new,
    topo st' = topo st ++ new /\
    (forall u, u ∈ visited st' <-> u ∈ visited st \/ u ∈ new) /\
    (forall u c, u ∈ new -> c ∈ set_iter (get_prev s u) -> c ∈ visited st').

Definition zero_grads (nodes : list nat) (s : store) : store :=
  foldl (fun s node => set_grad node f0 s) s nodes.

Fixpoint run_backwards (nodes : list nat) : M unit :=
  match nodes with
  | [] => ret tt
  | node :: rest =>
      bind (fun s => call_backward (get_backward s node) s) (fun _ =>
      run_backwards rest)
  end.

(** The topological order [backward] works with when the interpreter lets
    [build] recurse as deep as the graph asks.  A store of [n] objects has
    no chain of parents longer than [n], so depth [S n] is never exhausted
    on a graph the operations built (see [build_total]).  CPython bounds
    the depth of recursion: [topo_order_within] and [backward_within]
    below are the same traversal and the same pass under such a bound. *)
Definition topo_order (s : store) (self : nat) : option (list nat) :=
  match build (S (length s)) s self (mkDfs [] []) with
  | Some st => Some (topo st)
  | None => None
  end.

Definition backward (self : nat) : M unit :=
  fun s =>
    match topo_order s self with
    | None => Raise RecursionError s
    | Some topo =>
        let s := zero_grads topo s in
        let s := set_grad self f1 s in
        run_backwards (reverse topo) s
    end.

(** [backward] in an interpreter that lets [build] nest [limit] calls
    (what [sys.getrecursionlimit()] leaves above the frames already in
    use): past that depth the call of [build] raises RecursionError, which
    leaves [backward] before any gradient is written. *)
Definition topo_order_within (limit : nat) (s : store) (self : nat)
  : option (list nat) :=
  match build limit s self (mkDfs [] []) with
  | Some st => Some (topo st)
  | None => None
  end.

Definition backward_within (limit : nat) (self : nat) : M unit :=
  fun s =>
    match topo_order_within limit s self with
    | None => Raise RecursionError s
    | Some topo =>
        let s := zero_grads topo s in
        let s := set_grad self f1 s in
        run_backwards (reverse topo) s
    end.

(** Every order a set can be met in: [choice] picks, for each set, one of
    its permutations. *)
Definition set_order (choice : list nat -> nat) (l : list nat) : list nat :=
  default l (permutations l !! choice l).

(** *** Well-formed stores

    The nodes whose gradient a closure writes. *)
Definition closure_targets (c : closure) : list nat :=
  match c with
  | bw_none => []
  | bw_add self other _ => [self; other]
  | bw_mul self other _ => [self; other]
  | bw_neg self _ => [self]
  | bw_pow self _ _ => [self]
  | bw_exp self _ _ => [self]
  | bw_log self _ _ => [self]
  | bw_tanh self _ _ => [self]
  | bw_relu self _ => [self]
  end.

(** What every operation establishes of the node it allocates: the parents
    are older than the node, and the closure writes to parents only. *)
Definition node_ok (v : nat) (n : Value) : Prop :=
  (forall c, c ∈ _prev n -> c < v)%nat /\
  (forall c, c ∈ closure_targets (_backward n) -> c ∈ _prev n).

Definition wf_store (s : store) : Prop :=
  forall v n, s !! v = Some n -> node_ok v n.

Definition node_okb (v : nat) (n : Value) : bool :=
  forallb (fun c => c <? v)%nat (_prev n)
  && forallb (fun c => bool_decide (c ∈ _prev n)) (closure_targets (_backward n)).

Definition wf_storeb (s : store) : bool :=
  forallb (fun vn => node_okb (fst vn) (snd vn)) (imap pair s).

(** The nodes [backward] can meet from [root]: [root] itself and the
    parents of the nodes it can meet. *)
Inductive reachable (s : store) (root : nat) : nat -> Prop :=
| reachable_root : reachable s root root
| reachable_parent v c :
    reachable s root v -> c ∈ get_prev s v -> reachable s root c.

(** Every chain of parents that starts at [v] has fewer than [n] nodes
    after [v]: [build] called on [v] nests at most [n] calls. *)
Fixpoint shallow (n : nat) (s : store) (v : nat) : Prop :=
  match n with
  | O => False
  | S n' => forall c, c ∈ get_prev s v -> shallow n' s c
  end.

(** The node an operation leaves at the end of the store. *)
Definition node (d : F) (children : list nat) (o : op_label) (c : closure)
  : Value :=
  mkValue d f0 (pyset children) o c EmptyString.

(** *** Helpers on lists of Values *)

(** [tensor_sum] over an iterable whose items are produced on demand (a
    generator expression builds each item when the loop asks for it). *)
Fixpoint tensor_sum_loop (values : list (M nat)) (acc : nat) : M nat :=
  match values with
  | [] => ret acc
  | item :: rest =>
      bind item (fun v =>
      bind (__add__ acc (OValue v)) (fun acc' =>
      tensor_sum_loop rest acc'))
  end.

Definition tensor_sum_gen (values : list (M nat)) : M nat :=
  bind (Value_of (PyFl f0)) (fun acc => tensor_sum_loop values acc).

Definition tensor_sum (values : list nat) : M nat :=
  tensor_sum_gen (map ret values).

Definition tensor_mean (values : list nat) : M nat :=
  let vals := values in
  if (length vals =? 0)%nat then Value_of (PyFl f0)
  else
    bind (tensor_sum vals) (fun t =>
    bind (lift (rbind (of_int (Z.of_nat (length vals))) (fun n => fdiv f1 n))) (fun w =>
    __mul__ t (ONum (PyFl w)))).

End Engine.

Arguments pynum F : clear implicits.
Arguments closure F : clear implicits.
Arguments op_label F : clear implicits.
Arguments operand F : clear implicits.
Arguments Value F : clear implicits.
Arguments outcome F A : clear implicits.
Arguments M F A : clear implicits.
Abbreviation store F := (list (Value F)).
Arguments Return {F A} a s.
Arguments Raise {F A} e s.

(** ** nn.py *)

Section NN.
Context {F : Type} {PF : PyFloat F}.

(** [random.uniform(a, b)]: the generator is outside the modules; nothing
    is assumed of it. *)
Variable random_uniform : F -> F -> M F F.

(** [[body for _ in range(n)]] *)
Fixpoint repeatM {A : Type} (n : nat) (body : M F A) : M F (list A) :=
  match n with
  | O => ret []
  | S n' =>
      bind body (fun a =>
      bind (repeatM n' body) (fun l =>
      ret (a :: l)))
  end.

(** [[body v for v in l]] *)
Fixpoint mapM {A B : Type} (body : A -> M F B) (l : list A) : M F (list B) :=
  match l with
  | [] => ret []
  | a :: l' =>
      bind (body a) (fun b =>
      bind (mapM body l') (fun bs =>
      ret (b :: bs)))
  end.

(** [Parameter] is [Value] under another name. *)
Definition Parameter_new (x : F) : M F nat := Value_of (PyFl x).

Definition xavier_uniform (n_in n_out : nat) : M F (list nat) :=
  bind (lift (rbind (of_int (Z.of_nat (n_in + n_out))) (fun n =>
              rbind (fdiv (fdec 6 0) n) m_sqrt))) (fun bound =>
  repeatM n_in (bind (random_uniform (fneg bound) bound) Parameter_new)).

Definition kaiming_uniform (n_in : nat) : M F (list nat) :=
  bind (lift (rbind (of_int (Z.of_nat n_in)) (fun n =>
              rbind (fdiv (fdec 2 0) n) m_sqrt))) (fun bound =>
  repeatM n_in (bind (random_uniform (fneg bound) bound) Parameter_new)).

(** The [initializer] argument of [Linear]: [xavier_uniform] itself, or
    any other callable of one argument. *)
Inductive initializer : Type :=
| init_xavier
| init_callable (f : nat -> M F (list nat)).

Record Linear : Type := mkLinear {
  in_features : nat;
  out_features : nat;
  W : list (list nat);
  b : option (list nat)
}.

Definition Linear__init__ (in_features out_features : nat) (bias : bool)
    (init : initializer) : M F Linear :=
  bind (repeatM out_features
          match init with
          | init_xavier => xavier_uniform in_features out_features
          | init_callable f => f in_features
          end) (fun W =>
  bind (if bias then
          bind (repeatM out_features (Parameter_new f0)) (fun bs => ret (Some bs))
        else ret None) (fun b =>
  ret (mkLinear in_features out_features W b))).

(** One turn of the loop of [Linear.__call__]. *)
Definition Linear_row (self : Linear) (x : list nat) (i : nat) : M F nat :=
  match W self !! i with
  | None => raise IndexError
  | Some row =>
      bind (tensor_sum_gen
              (map (fun wxi => __mul__ (fst wxi) (OValue (snd wxi))) (zip row x)))
        (fun s =>
      match b self with
      | None => ret s
      | Some bs =>
          match bs !! i with
          | None => raise IndexError
          | Some bi => __add__ s (OValue bi)
          end
      end)
  end.

Definition Linear__call__ (self : Linear) (x : list nat) : M F (list nat) :=
  if negb (length x =? in_features self)%nat then raise ValueError
  else mapM (Linear_row self x) (seq 0 (out_features self)).

(** The loop of [stable_softmax] that keeps the larger of the two. *)
Fixpoint softmax_max (s : store F) (max_val : nat) (rest : list nat) : nat :=
  match rest with
  | [] => max_val
  | v :: rest' =>
      softmax_max s
        (if fleb (get_data s v) (get_data s max_val) then max_val else v) rest'
  end.

Definition stable_softmax (logits : list nat) : M F (list nat) :=
  match logits with
  | [] => ret []
  | v0 :: rest =>
      bind (fun s => Return (softmax_max s v0 rest) s) (fun max_val =>
      bind (mapM (fun v => bind (__sub__ v (OValue max_val)) exp) logits) (fun exps =>
      bind (tensor_sum exps) (fun denom =>
      mapM (fun e => __truediv__ e (OValue denom)) exps)))
  end.

(** [Linear.parameters]: the rows of weights one after the other, then
    the biases. *)
Definition Linear_parameters (self : Linear) : list nat :=
  concat (W self) ++ match b self with
                     | Some bs => bs
                     | None => []
                     end.

(** [Module.zero_grad], on the list [self.parameters()] gives. *)
Definition Module_zero_grad (parameters : list nat) : M F unit :=
  fun s => Return tt (zero_grads parameters s).

Record MLP : Type := mkMLP {
  layers : list Linear;
  activation : string;
  final_activation : string
}.

(** [MLP.__init__]: one [Linear] per pair of consecutive sizes, He
    initialisation for all but the last. *)
Definition MLP__init__ (sizes : list nat) (activation final_activation : string)
  : M F MLP :=
  if negb (2 <=? length sizes)%nat then raise AssertionError
  else
    bind (mapM (fun i =>
                  match sizes !! i, sizes !! (i + 1)%nat with
                  | Some in_f, Some out_f =>
                      let init := if (i <? length sizes - 2)%nat
                                  then init_callable kaiming_uniform
                                  else init_xavier in
                      Linear__init__ in_f out_f true init
                  | _, _ => raise IndexError
                  end)
               (seq 0 (length sizes - 1))) (fun layers =>
    ret (mkMLP layers activation final_activation)).

(** The chain of [if act == ...] in [MLP.__call__]. *)
Definition apply_activation (act : string) (out : list nat) : M F (list nat) :=
  if String.eqb act "tanh" then mapM tanh out
  else if String.eqb act "relu" then mapM relu out
  else if String.eqb act "sigmoid" then mapM sigmoid out
  else if String.eqb act "linear" then ret out
  else raise ValueError.

(** The loop of [MLP.__call__] from layer [idx] on. *)
Fixpoint MLP_loop (self : MLP) (idx : nat) (rest : list Linear) (out : list nat)
  : M F (list nat) :=
  match rest with
  | [] => ret out
  | layer :: rest' =>
      bind (Linear__call__ layer out) (fun out =>
      let act := if (idx =? length (layers self) - 1)%nat
                 then final_activation self else activation self in
      bind (apply_activation act out) (fun out =>
      MLP_loop self (S idx) rest' out))
  end.

Definition MLP__call__ (self : MLP) (x : list nat) : M F (list nat) :=
  MLP_loop self 0 (layers self) x.

Definition MLP_parameters (self : MLP) : list nat :=
  concat (map Linear_parameters (layers self)).

(** [to_values]: one leaf per number, in order. *)
Definition to_values (xs : list (pynum F)) : M F (list nat) :=
  mapM Value_of xs.

(** What [Linear.__init__] guarantees of the object it returns. *)
Definition Linear_shaped (self : Linear) : Prop :=
  length (W self) = out_features self /\
  match b self with
  | Some bs => length bs = out_features self
  | None => True
  end.

(** A fresh leaf: no parents, no rule, gradient 0.0. *)
Definition fresh_leaf (n : Value F) : Prop :=
  grad n = f0 /\ _prev n = [] /\ _backward n = bw_none.

(** [m] returns the [k] nodes it allocates, all of them leaves that
    satisfy [P], and touches nothing else. *)
Definition allocates (P : Value F -> Prop) (k : nat) (m : M F (list nat)) : Prop :=
  forall s l s', m s = Return l s' ->
    l = seq (length s) k /\
    exists new, s' = s ++ new /\ length new = k /\
                Forall (fun n => fresh_leaf n /\ P n) new.

(** What [MLP.__init__] makes of [sizes]. *)
Definition MLP_shaped (sizes : list nat) (ls : list Linear) : Prop :=
  (length ls = length sizes - 1)%nat /\
  forall i layer, ls !! i = Some layer ->
    sizes !! i = Some (in_features layer) /\
    sizes !! S i = Some (out_features layer) /\
    Linear_shaped layer /\ is_Some (b layer).

End NN.

(** ** optim.py *)

Section Optim.
Context {F : Type} {PF : PyFloat F}.

(** [MSELoss.__call__] *)
Definition MSELoss (preds : list nat) (targets : list (pynum F)) : M F nat :=
  if negb (length preds =? length targets)%nat then raise AssertionError
  else
    bind (mapM (fun pt =>
                  bind (Value_of (snd pt)) (fun t =>
                  bind (__sub__ (fst pt) (OValue t)) (fun d =>
                  __pow__ d (ONum (PyInt 2)))))
               (zip preds targets)) (fun losses =>
    tensor_mean losses).

(** [t == 1.0] *)
Definition is_one (t : pynum F) : bool :=
  match t with
  | PyInt z => z =? 1
  | PyFl x => feqb x f1
  end.

(** The loop of [CrossEntropyLoss.__call__] over [zip(probs, targets)]. *)
Fixpoint ce_losses (pairs : list (nat * pynum F)) : M F (list nat) :=
  match pairs with
  | [] => ret []
  | (p, t) :: rest =>
      if is_one t then
        bind (log p) (fun l =>
        bind (__neg__ l) (fun nl =>
        bind (ce_losses rest) (fun ls =>
        ret (nl :: ls))))
      else ce_losses rest
  end.

Definition CrossEntropyLoss (logits : list nat) (targets : list (pynum F))
  : M F nat :=
  bind (stable_softmax logits) (fun probs =>
  bind (ce_losses (zip probs targets)) (fun losses =>
  tensor_mean losses)).

(** [Adam]: the optimizer object. *)
Record Adam : Type := mkAdam {
  params : list nat;
  lr : F;
  beta1 : F;
  beta2 : F;
  eps : F;
  weight_decay : F;
  _m : gmap nat F;
  _v : gmap nat F;
  _t : Z
}.

Definition Adam__init__ (params : list nat) (lr : F) (betas : F * F) (eps : F)
    (weight_decay : F) : Adam :=
  mkAdam params lr (fst betas) (snd betas) eps weight_decay
         (list_to_map (map (fun p => (p, f0)) params))
         (list_to_map (map (fun p => (p, f0)) params))
         0.

(** [Adam(params)], every other argument at its default. *)
Definition Adam_default (params : list nat) : Adam :=
  Adam__init__ params (fdec 1 (-3)) (fdec 9 (-1), fdec 999 (-3)) (fdec 1 (-8)) f0.

Definition with_moments (m v : gmap nat F) (o : Adam) : Adam :=
  mkAdam (params o) (lr o) (beta1 o) (beta2 o) (eps o) (weight_decay o) m v (_t o).

Definition with_t (t : Z) (o : Adam) : Adam :=
  mkAdam (params o) (lr o) (beta1 o) (beta2 o) (eps o) (weight_decay o)
         (_m o) (_v o) t.

(** What the body of the loop of [Adam.step] computes after the moments are
    stored: the bias-corrected step. *)
Definition adam_delta (o : Adam) (m v : F) : result F :=
  rbind (pow_num (beta1 o) (PyInt (_t o))) (fun b1t =>
  rbind (fdiv m (fsub f1 b1t)) (fun m_hat =>
  rbind (pow_num (beta2 o) (PyInt (_t o))) (fun b2t =>
  rbind (fdiv v (fsub f1 b2t)) (fun v_hat =>
  rbind (m_sqrt v_hat) (fun r =>
  fdiv (fmul (fneg (lr o)) m_hat) (fadd r (eps o))))))).

(** The loop of [Adam.step]; an exception leaves the optimizer and the
    store as they are at that point. *)
Fixpoint Adam_loop (ps : list nat) (o : Adam) (s : store F)
  : Adam * outcome F unit :=
  match ps with
  | [] => (o, Return tt s)
  | p :: rest =>
      let g := get_grad s p in
      let g := if negb (feqb (weight_decay o) f0)
               then fadd g (fmul (weight_decay o) (get_data s p)) else g in
      let pid := p in
      let m := default f0 (_m o !! pid) in
      let v := default f0 (_v o !! pid) in
      let m := fadd (fmul (beta1 o) m) (fmul (fsub f1 (beta1 o)) g) in
      let v := fadd (fmul (beta2 o) v) (fmul (fsub f1 (beta2 o)) (fmul g g)) in
      let o := with_moments (<[pid := m]> (_m o)) (<[pid := v]> (_v o)) o in
      match adam_delta o m v with
      | Ok step => Adam_loop rest o (set_data p (fadd (get_data s p) step) s)
      | Err e => (o, Raise e s)
      end
  end.

Definition Adam_step (o : Adam) (s : store F) : Adam * outcome F unit :=
  let o := with_t (_t o + 1) o in
  Adam_loop (params o) o s.

(** [Optimizer.zero_grad] *)
Definition Optimizer_zero_grad (params : list nat) : M F unit :=
  fun s => Return tt (zero_grads params s).

(** [SGD]: the optimizer object. *)
Record SGD : Type := mkSGD {
  sgd_params : list nat;
  sgd_lr : F;
  momentum : F;
  sgd_weight_decay : F;
  _vel : gmap nat F
}.

Definition SGD__init__ (params : list nat) (lr momentum weight_decay : F) : SGD :=
  mkSGD params lr momentum weight_decay
        (list_to_map (map (fun p => (p, f0)) params)).

(** [SGD(params)], every other argument at its default. *)
Definition SGD_default (params : list nat) : SGD :=
  SGD__init__ params (fdec 1 (-2)) f0 f0.

Definition with_vel (vel : gmap nat F) (o : SGD) : SGD :=
  mkSGD (sgd_params o) (sgd_lr o) (momentum o) (sgd_weight_decay o) vel.

(** The loop of [SGD.step]; nothing in it can raise. *)
Fixpoint SGD_loop (ps : list nat) (o : SGD) (s : store F) : SGD * store F :=
  match ps with
  | [] => (o, s)
  | p :: rest =>
      let g := get_grad s p in
      let g := if negb (feqb (sgd_weight_decay o) f0)
               then fadd g (fmul (sgd_weight_decay o) (get_data s p)) else g in
      if negb (feqb (momentum o) f0) then
        let v := default f0 (_vel o !! p) in
        let v_new := fsub (fmul (momentum o) v) (fmul (sgd_lr o) g) in
        SGD_loop rest (with_vel (<[p := v_new]> (_vel o)) o)
                 (set_data p (fadd (get_data s p) v_new) s)
      else
        SGD_loop rest o (set_data p (fadd (get_data s p) (fmul (fneg (sgd_lr o)) g)) s)
  end.

Definition SGD_step (o : SGD) (s : store F) : SGD * store F :=
  SGD_loop (sgd_params o) o s.

(** *** The Adam update in the specification's words

    [m <- b1*m + (1-b1)*g] and [v <- b2*v + (1-b2)*g^2]; then, with
    [m_hat = m/(1-b1^t)] and [v_hat = v/(1-b2^t)], the value moves by
    [-lr*m_hat/(sqrt(v_hat)+eps)]. *)
Definition first_moment_spec (b1 m g : F) : F :=
  fadd (fmul b1 m) (fmul (fsub f1 b1) g).

Definition second_moment_spec (b2 v g : F) : F :=
  fadd (fmul b2 v) (fmul (fsub f1 b2) (fmul g g)).

Definition adam_step_spec (lr b1 b2 eps : F) (t : Z) (m v : F) : result F :=
  rbind (pow_num b1 (PyInt t)) (fun b1t =>
  rbind (fdiv m (fsub f1 b1t)) (fun m_hat =>
  rbind (pow_num b2 (PyInt t)) (fun b2t =>
  rbind (fdiv v (fsub f1 b2t)) (fun v_hat =>
  rbind (m_sqrt v_hat) (fun root =>
  fdiv (fmul (fneg lr) m_hat) (fadd root eps)))))).

End Optim.

Arguments Adam F : clear implicits.
Arguments SGD F : clear implicits.
Arguments initializer F : clear implicits.

(** ** The programs of the specification's examples *)

Section Programs.
Context {F : Type} {PF : PyFloat F}.

(** [x = Value(2.0); y = Value(3.0); z = x*y + y] *)
Definition xy_plus_y : M F (nat * nat * nat) :=
  bind (Value_of (PyFl (fdec 2 0))) (fun x =>
  bind (Value_of (PyFl (fdec 3 0))) (fun y =>
  bind (__mul__ x (OValue y)) (fun xy =>
  bind (__add__ xy (OValue y)) (fun z =>
  ret (x, y, z))))).

(** [a = Value(2); b = a*a + a*3] *)
Definition square_plus_triple : M F (nat * nat) :=
  bind (Value_of (PyInt 2)) (fun a =>
  bind (__mul__ a (OValue a)) (fun aa =>
  bind (__mul__ a (ONum (PyInt 3))) (fun a3 =>
  bind (__add__ aa (OValue a3)) (fun b =>
  ret (a, b))))).

(** [x = Value(2.0); y = Value(3.0); out = x*y] *)
Definition product : M F (nat * nat * nat) :=
  bind (Value_of (PyFl (fdec 2 0))) (fun x =>
  bind (Value_of (PyFl (fdec 3 0))) (fun y =>
  bind (__mul__ x (OValue y)) (fun out =>
  ret (x, y, out)))).

(** [x = Value(0.0); p = x ** 0.5; q = p * 1e200; z = q * 1e200] *)
Definition sqrt_scaled : M F (nat * nat) :=
  bind (Value_of (PyFl (fdec 0 0))) (fun x =>
  bind (__pow__ x (ONum (PyFl (fdec 5 (-1))))) (fun p =>
  bind (__mul__ p (ONum (PyFl (fdec 1 200)))) (fun q =>
  bind (__mul__ q (ONum (PyFl (fdec 1 200)))) (fun z =>
  ret (x, z))))).

(** [x = Value(a); sg = x.sigmoid(); z = sg * g] *)
Definition sigmoid_scaled (a g : F) : M F (nat * nat * nat) :=
  bind (Value_of (PyFl a)) (fun x =>
  bind (sigmoid x) (fun sg =>
  bind (__mul__ sg (ONum (PyFl g))) (fun z =>
  ret (x, sg, z)))).

(** [sg = x.sigmoid(); z = sg * g] on a node [x] of any graph *)
Definition sigmoid_times (x : nat) (g : F) : M F (nat * nat) :=
  bind (sigmoid x) (fun sg =>
  bind (__mul__ sg (ONum (PyFl g))) (fun z =>
  ret (sg, z))).

(** [for _ in range(n): x = -x] *)
Fixpoint neg_times (n : nat) (x : nat) : M F nat :=
  match n with
  | O => ret x
  | S n' => bind (__neg__ x) (neg_times n')
  end.

(** [x = Value(1.0)], then [n] negations one on another *)
Definition neg_chain (n : nat) : M F nat :=
  bind (Value_of (PyFl f1)) (neg_times n).

(** One parameter of value 1.0 whose gradient is 1.0. *)
Definition one_param : store F :=
  [mkValue f1 f1 [] op_leaf bw_none EmptyString].

End Programs.

(** An iteration order given by a table, the identity off the table. *)
Definition order_tab (tab : list (list nat * list nat)) (l : list nat) : list nat :=
  match list_find (fun kv => bool_decide (fst kv = l)) tab with
  | Some (_, (_, v)) => v
  | None => l
  end.

(** [logits = [Value(1000.0), Value(float('nan')), Value(0.0)]] *)
Definition nan_logits {L : libm} : M binary64 (list nat) :=
  bind (Value_of (PyFl (fdec 1000 0))) (fun a =>
  bind (Value_of (PyFl S754_nan)) (fun b =>
  bind (Value_of (PyFl (fdec 0 0))) (fun c =>
  ret [a; b; c]))).

(** Closed examples need a C library.  This one knows that [exp]
    overflows from 710 on (e^710 is beyond the largest double) and
    answers NaN wherever else it is asked. *)
Definition libm_overflow : libm :=
  mkLibm (fun _ _ => S754_nan)
         (fun x => if b64_leb (b64_of_Z 710) x then S754_infinity false else S754_nan)
         (fun _ => S754_nan)
         (fun _ => S754_nan).

Definition is_zero (x : binary64) : bool :=
  match x with
  | S754_zero _ => true
  | _ => false
  end.

(** A node of the store holds a positive real. *)
Definition positive_at (v : nat) (s : store R) : Prop :=
  (v < length s)%nat /\ (0 < get_data s v)%R.

(** *** Doubles

    [spec_float] has more members than there are doubles: a double is a
    member whose mantissa and exponent fit the format. *)
Definition valid_double (x : binary64) : bool := valid_binary prec emax x.

(** Zero of either sign, a negative number or [-inf]. *)
Definition nonpositive (x : binary64) : bool :=
  match x with
  | S754_zero _ | S754_finite true _ _ | S754_infinity true => true
  | _ => false
  end.

(** Zero of either sign or a positive number. *)
Definition nonneg_finite (x : binary64) : bool :=
  match x with
  | S754_zero _ | S754_finite false _ _ => true
  | _ => false
  end.

(** A positive number [m * 2^e] that is at least 1. *)
Definition at_least_one (x : binary64) : bool :=
  match x with
  | S754_finite false m e => (0 <=? e) || (2 ^ (- e) <=? Z.pos m)
  | _ => false
  end.

Definition plus_infinity (x : binary64) : bool :=
  match x with
  | S754_infinity false => true
  | _ => false
  end.

(** The integer [m], standing for [m * 2^e], is at least 1. *)
Definition ge_one (m e : Z) : Prop := 0 < m /\ (e < 0 -> 2 ^ (- e) <= m).

(** The order of [<=] on the members that are not NaN, as the
    lexicographic order of three integers. *)
Definition b64_key (x : binary64) : Z * Z * Z :=
  match x with
  | S754_infinity true => (-2, 0, 0)
  | S754_finite true m e => (-1, - e, - Z.pos m)
  | S754_zero _ | S754_nan => (0, 0, 0)
  | S754_finite false m e => (1, e, Z.pos m)
  | S754_infinity false => (2, 0, 0)
  end.

Definition key_le (k k' : Z * Z * Z) : Prop :=
  let '(a, b, c) := k in
  let '(a', b', c') := k' in
  a < a' \/ (a = a' /\ (b < b' \/ (b = b' /\ c <= c'))).

(** What [stable_softmax] adds up when no logit is NaN: the exponential
    of a difference that is not positive, or NaN (from the difference of
    two equal infinities). *)
Definition summand (x : binary64) : bool := is_nan x || nonneg_finite x.

(** What the running sum can be before the exponential of the maximum is
    added, and from then on. *)
Definition sum_low (x : binary64) : bool :=
  is_nan x || plus_infinity x || nonneg_finite x.

Definition sum_high (x : binary64) : bool :=
  is_nan x || plus_infinity x || at_least_one x.

(** What every C library gives on the arguments [stable_softmax] meets:
    [exp] of a number that is not positive is finite and not negative,
    [exp(+0.0)] is 1.0, [exp(NaN)] is NaN, and [pow(x, -1.0)] is finite
    for [x >= 1].  A C library is defined on doubles; the fields range
    over [spec_float], where the other members are never met. *)
Record libm_regular (L : libm) : Prop := {
  exp_nonpositive : forall x, nonpositive x = true -> nonneg_finite (c_exp x) = true;
  exp_zero : c_exp (S754_zero false) = b64_one;
  exp_nan : c_exp S754_nan = S754_nan;
  pow_reciprocal :
    forall x, at_least_one x = true -> is_inf (c_pow x (b64_of_Z (-1))) = false
}.

(** A C library for closed examples whose [exp] overflows on every
    positive number. *)
Definition libm_steep : libm :=
  mkLibm (fun _ _ => b64_zero)
         (fun x => match x with
                   | S754_nan => S754_nan
                   | S754_zero _ => b64_one
                   | S754_finite true _ _ | S754_infinity true => b64_zero
                   | _ => S754_infinity false
                   end)
         (fun x => x) (fun x => x).

(** [logits = [Value(1000.0), Value(1000.0), Value(1000.0)]] *)
Definition large_logits : store binary64 :=
  [mkValue (b64_of_Z 1000) b64_zero [] op_leaf bw_none EmptyString;
   mkValue (b64_of_Z 1000) b64_zero [] op_leaf bw_none EmptyString;
   mkValue (b64_of_Z 1000) b64_zero [] op_leaf bw_none EmptyString].

(** [x = Value(-1000.0)] *)
Definition large_negative : store binary64 :=
  [mkValue (b64_of_Z (-1000)) b64_zero [] op_leaf bw_none EmptyString].

Local Close Scope Z_scope.

Section SigmoidGraph.
Context {F : Type} {PF : PyFloat F}.

(** The nodes [x.sigmoid()] allocates, [L] objects being there already:
    [-x], its [exp], the 1.0 of the sum, the sum, the 1.0 of the
    quotient, the power [** -1] and the product, relabelled. *)
Definition sigmoid_nodes (x L : nat) (a ed pd : F) : list (Value F) :=
  [ node (fneg a) [x] op_neg (bw_neg x L);
    node ed [L] op_exp (bw_exp L ed (L + 1));
    node f1 [] op_leaf bw_none;
    node (fadd ed f1) [L + 1; L + 2] op_add (bw_add (L + 1) (L + 2) (L + 3));
    node f1 [] op_leaf bw_none;
    node pd [L + 3] (op_pow (PyInt (-1))) (bw_pow (L + 3) (PyInt (-1)) (L + 5));
    node (fmul f1 pd) [L + 4; L + 5] op_sigmoid
         (bw_mul (L + 4) (L + 5) (L + 6)) ].

(** What the rules of the multiplication, the power, the addition, [exp]
    and the negation hand down one after another, from the gradient of
    the output of [sigmoid] to that of its input; each gradient starts at
    0.0. *)
Definition sigmoid_rules (ed grad_local out_grad : F) : F :=
  let g_p := fadd f0 (fmul f1 out_grad) in
  let g_d := fadd f0 (fmul grad_local g_p) in
  let g_e := fadd f0 (fmul f1 g_d) in
  let g_n := fadd f0 (fmul ed g_e) in
  fadd f0 (fmul (fneg f1) g_n).

End SigmoidGraph.

(** * Facts *)

(** ** The store *)

Section StoreFacts.
Context {F : Type} {PF : PyFloat F}.
Implicit Types (s : store F) (v u : nat) (W : list nat).

Lemma lookup_set_grad s v g u :
  set_grad v g s !! u = (if decide (v = u) then with_grad g else fun n => n) <$> s !! u.
Proof.
  unfold set_grad. rewrite list_lookup_alter.
  destruct (decide (v = u)) as [->|]; [done|]. by destruct (s !! u).
Qed.

Lemma length_set_grad s v g : length (set_grad v g s) = length s.
Proof. apply length_alter. Qed.

Lemma get_prev_set_grad s v g u : get_prev (set_grad v g s) u = get_prev s u.
Proof.
  unfold get_prev. rewrite lookup_set_grad.
  destruct (s !! u); [|done]. by destruct (decide (v = u)).
Qed.

Lemma get_backward_set_grad s v g u :
  get_backward (set_grad v g s) u = get_backward s u.
Proof.
  unfold get_backward. rewrite lookup_set_grad.
  destruct (s !! u); [|done]. by destruct (decide (v = u)).
Qed.

Lemma get_data_set_grad s v g u : get_data (set_grad v g s) u = get_data s u.
Proof.
  unfold get_data. rewrite lookup_set_grad.
  destruct (s !! u); [|done]. by destruct (decide (v = u)).
Qed.

Lemma get_grad_set_grad_eq s v g :
  v < length s -> get_grad (set_grad v g s) v = g.
Proof.
  intros Hv. unfold get_grad. rewrite lookup_set_grad.
  destruct (lookup_lt_is_Some_2 s v Hv) as [n ->].
  by rewrite decide_True.
Qed.

Lemma get_grad_set_grad_ne s v g u :
  v <> u -> get_grad (set_grad v g s) u = get_grad s u.
Proof.
  intros Hne. unfold get_grad. rewrite lookup_set_grad.
  rewrite decide_False by done. by destruct (s !! u).
Qed.

Lemma get_data_app_l s ext v : v < length s -> get_data (s ++ ext) v = get_data s v.
Proof. intros Hv. unfold get_data. by rewrite lookup_app_l. Qed.

Lemma get_data_last s (n : Value F) : get_data (s ++ [n]) (length s) = data n.
Proof.
  unfold get_data. rewrite lookup_app_r by lia.
  by rewrite Nat.sub_diag.
Qed.

Lemma get_data_prefix s s' v :
  s `prefix_of` s' -> v < length s -> get_data s' v = get_data s v.
Proof. intros [ext ->]. apply get_data_app_l. Qed.

Lemma lookup_zero_grads W s u :
  zero_grads W s !! u
  = (if bool_decide (u ∈ W) then with_grad f0 else fun n => n) <$> s !! u.
Proof.
  unfold zero_grads. revert s. induction W as [|w W IH]; intros s; simpl.
  - by destruct (s !! u).
  - rewrite IH, lookup_set_grad.
    destruct (s !! u) as [n|]; [simpl|done].
    destruct (decide (w = u)) as [->|Hne].
    + rewrite (bool_decide_eq_true_2 (u ∈ u :: W)) by apply list_elem_of_here.
      by destruct (bool_decide (u ∈ W)).
    + destruct (bool_decide (u ∈ W)) eqn:E.
      * apply bool_decide_eq_true_1 in E.
        by rewrite bool_decide_eq_true_2 by (by apply list_elem_of_further).
      * apply bool_decide_eq_false_1 in E.
        rewrite bool_decide_eq_false_2; [done|].
        rewrite elem_of_cons. intros [Heq|Hin]; [by apply Hne|by apply E].
Qed.

Lemma length_zero_grads W s : length (zero_grads W s) = length s.
Proof.
  unfold zero_grads. revert s. induction W as [|w W IH]; intros s; simpl; [done|].
  by rewrite IH, length_set_grad.
Qed.

Lemma get_prev_zero_grads W s u : get_prev (zero_grads W s) u = get_prev s u.
Proof.
  unfold get_prev. rewrite lookup_zero_grads.
  destruct (s !! u); [|done]. by destruct (bool_decide _).
Qed.

Lemma get_backward_zero_grads W s u :
  get_backward (zero_grads W s) u = get_backward s u.
Proof.
  unfold get_backward. rewrite lookup_zero_grads.
  destruct (s !! u); [|done]. by destruct (bool_decide _).
Qed.

(** A write to the gradient of a node of [W] is forgotten once the
    gradients of [W] are reset. *)
Lemma zero_grads_set_grad W s v g :
  v ∈ W -> zero_grads W (set_grad v g s) = zero_grads W s.
Proof.
  intros Hv. apply list_eq. intros u.
  rewrite !lookup_zero_grads, lookup_set_grad.
  destruct (s !! u) as [n|]; [simpl|done].
  destruct (decide (v = u)) as [->|]; [|done].
  by rewrite bool_decide_eq_true_2.
Qed.

Lemma zero_grads_idem W s : zero_grads W (zero_grads W s) = zero_grads W s.
Proof.
  apply list_eq. intros u. rewrite !lookup_zero_grads.
  destruct (s !! u) as [n|]; [simpl|done]. by destruct (bool_decide _).
Qed.

Lemma zero_grads_iadd_grad W s v d :
  v ∈ W -> zero_grads W (iadd_grad v d s) = zero_grads W s.
Proof. apply zero_grads_set_grad. Qed.

Lemma get_backward_frame W s s' u :
  zero_grads W s' = zero_grads W s -> get_backward s' u = get_backward s u.
Proof.
  intros Heq.
  by rewrite <- (get_backward_zero_grads W s'), Heq, get_backward_zero_grads.
Qed.

Lemma node_okb_sound v (n : Value F) : node_okb v n = true -> node_ok v n.
Proof.
  unfold node_okb. rewrite andb_true_iff, !forallb_forall.
  intros [Hprev Htg]. split; intros c Hc.
  - apply list_elem_of_In, Hprev in Hc. by apply Nat.ltb_lt.
  - apply list_elem_of_In, Htg in Hc. by apply bool_decide_eq_true_1 in Hc.
Qed.

Lemma wf_storeb_sound s : wf_storeb s = true -> wf_store s.
Proof.
  unfold wf_storeb. rewrite forallb_forall. intros Hall v n Hv.
  apply node_okb_sound, (Hall (v, n)), list_elem_of_In.
  apply list_elem_of_lookup. exists v. by rewrite list_lookup_imap, Hv.
Qed.

Lemma set_order_perm choice (l : list nat) : set_order choice l ≡ₚ l.
Proof.
  unfold set_order. destruct (permutations l !! choice l) as [l'|] eqn:E; [|done].
  symmetry. apply permutations_Permutation. by eapply list_elem_of_lookup_2.
Qed.

End StoreFacts.

(** ** The traversal and the backward pass *)

Section BackwardFacts.
Context {F : Type} {PF : PyFloat F}.
Variable set_iter : list nat -> list nat.
Implicit Types (s : store F) (v u : nat) (W : list nat) (st : dfs).

Lemma for_each_ext {A : Type} (f g : nat -> A -> option A) l a :
  (forall x a, x ∈ l -> f x a = g x a) -> for_each f l a = for_each g l a.
Proof.
  revert a. induction l as [|x l IH]; intros a Hfg; simpl; [done|].
  rewrite Hfg by apply list_elem_of_here. destruct (g x a); [|done].
  apply IH. intros y c Hy. apply Hfg. by apply list_elem_of_further.
Qed.

Lemma for_each_total {A : Type} (body : nat -> A -> option A) l a :
  (forall x a, x ∈ l -> is_Some (body x a)) -> is_Some (for_each body l a).
Proof.
  revert a. induction l as [|x l IH]; intros a Hbody; simpl; [done|].
  destruct (Hbody x a (list_elem_of_here _ _)) as [a' ->].
  apply IH. intros y c Hy. apply Hbody. by apply list_elem_of_further.
Qed.

(** [build] reads nothing of the store but the [_prev] sets. *)
Lemma build_prev_ext s s' depth v st :
  (forall u, get_prev s u = get_prev s' u) ->
  build set_iter depth s v st = build set_iter depth s' v st.
Proof.
  intros Hprev. revert v st. induction depth as [|d IH]; intros v st; simpl; [done|].
  rewrite Hprev. erewrite for_each_ext; [done|]. intros; apply IH.
Qed.

Lemma topo_order_prev_ext s s' v :
  length s = length s' ->
  (forall u, get_prev s u = get_prev s' u) ->
  topo_order set_iter s v = topo_order set_iter s' v.
Proof.
  intros Hlen Hprev. unfold topo_order.
  by rewrite Hlen, (build_prev_ext s s').
Qed.

Lemma extends_refl s st : extends set_iter s st st.
Proof.
  exists []. split; [by rewrite app_nil_r|]. split.
  - intros u. rewrite elem_of_nil. tauto.
  - intros u c Hu. by apply elem_of_nil in Hu.
Qed.

Lemma extends_visited s st st' u :
  extends set_iter s st st' -> u ∈ visited st -> u ∈ visited st'.
Proof. intros (new & _ & Hvis & _) Hu. apply Hvis. by left. Qed.

Lemma extends_trans s st1 st2 st3 :
  extends set_iter s st1 st2 -> extends set_iter s st2 st3 -> extends set_iter s st1 st3.
Proof.
  intros (n1 & Ht1 & Hv1 & Hc1) (n2 & Ht2 & Hv2 & Hc2).
  exists (n1 ++ n2). split; [by rewrite Ht2, Ht1, app_assoc|]. split.
  - intros u. rewrite Hv2, Hv1, elem_of_app. tauto.
  - intros u c Hu Hc. apply elem_of_app in Hu as [Hu|Hu].
    + apply Hv2. left. by eapply Hc1.
    + by eapply Hc2.
Qed.

Lemma for_each_extends s (body : nat -> dfs -> option dfs) l st st' :
  (forall x a a', x ∈ l -> body x a = Some a' -> extends set_iter s a a' /\ x ∈ visited a') ->
  for_each body l st = Some st' ->
  extends set_iter s st st' /\ forall x, x ∈ l -> x ∈ visited st'.
Proof.
  revert st. induction l as [|x l IH]; intros st Hbody Hrun; simpl in Hrun.
  - injection Hrun as <-. split; [apply extends_refl|].
    intros x Hx. by apply elem_of_nil in Hx.
  - destruct (body x st) as [st1|] eqn:E; [|done].
    destruct (Hbody x st st1 (list_elem_of_here _ _) E) as [Hext Hx].
    destruct (IH st1) as [Hext' Hl]; [|done|].
    { intros y a a' Hy. apply Hbody. by apply list_elem_of_further. }
    split; [by eapply extends_trans|].
    intros y Hy. apply elem_of_cons in Hy as [->|Hy]; [|by apply Hl].
    by eapply extends_visited.
Qed.

Lemma build_extends s depth v st st' :
  build set_iter depth s v st = Some st' ->
  extends set_iter s st st' /\ v ∈ visited st'.
Proof.
  revert v st st'. induction depth as [|d IH]; intros v st st'; simpl; [done|].
  destruct (bool_decide (v ∈ visited st)) eqn:E.
  - intros [= <-]. apply bool_decide_eq_true_1 in E.
    split; [apply extends_refl|done].
  - destruct (for_each _ _ _) as [st1|] eqn:Hloop; [|done].
    intros [= <-].
    apply (for_each_extends s) in Hloop as [(new & Ht & Hv & Hc) Hkids].
    2:{ intros x a a' _. apply IH. }
    simpl in *. split.
    + exists (new ++ [v]). simpl. split; [by rewrite Ht, app_assoc|]. split.
      * intros u. rewrite Hv, elem_of_cons, elem_of_app, list_elem_of_singleton.
        tauto.
      * intros u c Hu Hcu. apply elem_of_app in Hu as [Hu|Hu].
        -- by eapply Hc.
        -- apply list_elem_of_singleton in Hu as ->. by apply Hkids.
    + apply Hv. left. apply list_elem_of_here.
Qed.

(** The topological order holds the root and is closed under parents. *)
Lemma topo_order_closed s root T :
  topo_order set_iter s root = Some T ->
  root ∈ T /\ forall u c, u ∈ T -> c ∈ set_iter (get_prev s u) -> c ∈ T.
Proof.
  unfold topo_order. destruct (build _ _ _ _ _) as [st'|] eqn:E; [|done].
  intros [= <-]. apply build_extends in E as [(new & Ht & Hv & Hc) Hroot].
  simpl in Ht, Hv. rewrite Ht.
  assert (Hvis : forall u, u ∈ visited st' <-> u ∈ new).
  { intros u. rewrite Hv, elem_of_nil. tauto. }
  split; [by apply Hvis|].
  intros u c Hu Hcu. apply Hvis. by eapply Hc.
Qed.

(** On a well-formed store the recursion of [build] is no deeper than the
    identity of the node it starts from, so the depth [backward] allows
    is never exhausted. *)
Lemma build_total s depth v st :
  wf_store s ->
  (forall l c, c ∈ set_iter l -> c ∈ l) ->
  v < depth \/ (length s <= v /\ 0 < depth) ->
  is_Some (build set_iter depth s v st).
Proof.
  intros Hwf Hiter. revert v st.
  induction depth as [|d IH]; intros v st Hd; simpl; [lia|].
  destruct (bool_decide _); [done|].
  match goal with |- context [for_each ?f ?l ?a] =>
    destruct (for_each_total f l a) as [st' ->]; [|done] end.
  intros c a Hc. apply IH. apply Hiter in Hc.
  unfold get_prev in Hc. destruct (s !! v) as [n|] eqn:En.
  - left. pose proof (lookup_lt_Some _ _ _ En). apply (Hwf v n En) in Hc. lia.
  - by apply elem_of_nil in Hc.
Qed.

Lemma topo_order_total s root :
  wf_store s ->
  (forall l c, c ∈ set_iter l -> c ∈ l) ->
  is_Some (topo_order set_iter s root).
Proof.
  intros Hwf Hiter. unfold topo_order.
  destruct (build_total s (S (length s)) root (mkDfs [] []) Hwf Hiter)
    as [st ->]; [lia|done].
Qed.

(** A closure that writes to nodes of [W] only leaves the store as it
    was, up to the gradients of [W]. *)
Lemma call_backward_frame W c s :
  (forall u, u ∈ closure_targets c -> u ∈ W) ->
  zero_grads W (final_store (call_backward c s)) = zero_grads W s.
Proof.
  intros HW. unfold call_backward.
  destruct c; simpl in *;
    repeat match goal with
           | |- context [match ?r with Ok _ => _ | Err _ => _ end] => destruct r
           end; simpl;
    rewrite ?zero_grads_iadd_grad; try done;
    apply HW; rewrite ?elem_of_cons; auto.
Qed.

Lemma run_backwards_frame W nodes s :
  (forall v u, v ∈ nodes -> u ∈ closure_targets (get_backward s v) -> u ∈ W) ->
  zero_grads W (final_store (run_backwards nodes s)) = zero_grads W s.
Proof.
  revert s. induction nodes as [|v nodes IH]; intros s HW; simpl; [done|].
  unfold bind.
  pose proof (call_backward_frame W (get_backward s v) s
                (fun u => HW v u (list_elem_of_here _ _))) as Hstep.
  destruct (call_backward (get_backward s v) s) as [[] s1|e s1]; simpl in *; [|done].
  rewrite IH; [done|].
  intros w u Hw. rewrite (get_backward_frame W s s1) by done.
  apply HW. by apply list_elem_of_further.
Qed.

(** A second [backward] from the same root meets the store the first one
    met, up to gradients that it resets, and so ends as the first did. *)
Lemma backward_twice s root :
  (forall l c, c ∈ l -> c ∈ set_iter l) ->
  wf_store s ->
  backward set_iter root (final_store (backward set_iter root s))
  = backward set_iter root s.
Proof.
  intros Hiter Hwf. unfold backward at 2 3.
  destruct (topo_order set_iter s root) as [T|] eqn:HT; simpl.
  - destruct (topo_order_closed s root T HT) as [Hroot Hclosed].
    set (sz := set_grad root f1 (zero_grads T s)).
    assert (Hsz : zero_grads T sz = zero_grads T s).
    { unfold sz. by rewrite zero_grads_set_grad, zero_grads_idem. }
    set (s1 := final_store (run_backwards (reverse T) sz)).
    assert (Hs1 : zero_grads T s1 = zero_grads T s).
    { unfold s1. rewrite run_backwards_frame; [done|].
      intros v u Hv Hu. rewrite elem_of_reverse in Hv.
      rewrite (get_backward_frame T s sz) in Hu by done.
      apply (Hclosed v u Hv), Hiter.
      unfold get_backward, get_prev in *.
      destruct (s !! v) as [n|] eqn:En; [|by apply elem_of_nil in Hu].
      by apply (Hwf v n En). }
    unfold backward.
    rewrite (topo_order_prev_ext s1 s), HT.
    + by rewrite Hs1.
    + by rewrite <- (length_zero_grads T s1), Hs1, length_zero_grads.
    + intros u. by rewrite <- (get_prev_zero_grads T s1), Hs1, get_prev_zero_grads.
  - unfold backward. by rewrite HT.
Qed.

End BackwardFacts.

(** The traversal depends on the iteration order only through the sets
    that are in the store. *)
Lemma build_iter_ext {F : Type} (f g : list nat -> list nat) (s : store F)
    depth v st :
  (forall u, f (get_prev s u) = g (get_prev s u)) ->
  build f depth s v st = build g depth s v st.
Proof.
  intros Hfg. revert v st. induction depth as [|d IH]; intros v st; simpl; [done|].
  rewrite Hfg. erewrite for_each_ext; [done|]. intros; apply IH.
Qed.

Lemma backward_iter_ext {F : Type} {PF : PyFloat F} (f g : list nat -> list nat)
    (s : store F) root :
  (forall u, f (get_prev s u) = g (get_prev s u)) ->
  backward f root s = backward g root s.
Proof.
  intros Hfg. unfold backward, topo_order. by rewrite (build_iter_ext f g).
Qed.

Lemma perm_pair (l : list nat) a b : l ≡ₚ [a; b] -> l = [a; b] \/ l = [b; a].
Proof.
  intros Hp. symmetry in Hp. by apply Permutation_length_2_inv in Hp.
Qed.

Lemma perm_nil (l : list nat) : l ≡ₚ [] -> l = [].
Proof. apply Permutation_nil_r. Qed.

Lemma perm_single (l : list nat) a : l ≡ₚ [a] -> l = [a].
Proof. apply Permutation_singleton_r. Qed.

(** ** The operations *)

Section OpFacts.
Context {F : Type} {PF : PyFloat F}.
Implicit Types (s : store F) (v u : nat).

Lemma set_backward_last s (n : Value F) c :
  set_backward (length s) c (s ++ [n]) = s ++ [with_backward c n].
Proof.
  unfold set_backward.
  replace (length s) with (length s + 0) by lia.
  by rewrite alter_app_r.
Qed.

Lemma Value_of_float x s :
  Value_of (PyFl x) s = Return (length s) (s ++ [node x [] op_leaf bw_none]).
Proof. done. Qed.

Lemma add_eq self other s :
  __add__ self (OValue other) s
  = Return (length s)
      (s ++ [node (fadd (get_data s self) (get_data s other)) [self; other]
                  op_add (bw_add self other (length s))]).
Proof.
  unfold __add__, bind, _ensure_value, ret, read_data, Value_init, finish.
  by rewrite set_backward_last.
Qed.

Lemma mul_eq self other s :
  __mul__ self (OValue other) s
  = Return (length s)
      (s ++ [node (fmul (get_data s self) (get_data s other)) [self; other]
                  op_mul (bw_mul self other (length s))]).
Proof.
  unfold __mul__, bind, _ensure_value, ret, read_data, Value_init, finish.
  by rewrite set_backward_last.
Qed.

Lemma neg_eq self s :
  __neg__ self s
  = Return (length s)
      (s ++ [node (fneg (get_data s self)) [self] op_neg (bw_neg self (length s))]).
Proof.
  unfold __neg__, bind, read_data, Value_init, finish.
  by rewrite set_backward_last.
Qed.

Lemma pow_eq self e s :
  __pow__ self (ONum e) s
  = match pow_num (get_data s self) e with
    | Ok d => Return (length s)
                (s ++ [node d [self] (op_pow e) (bw_pow self e (length s))])
    | Err err => Raise err s
    end.
Proof.
  unfold __pow__, bind, read_data, lift, Value_init, finish.
  destruct (pow_num _ _); [|done]. by rewrite set_backward_last.
Qed.

Lemma exp_eq self s :
  exp self s
  = match m_exp (get_data s self) with
    | Ok d => Return (length s)
                (s ++ [node d [self] op_exp (bw_exp self d (length s))])
    | Err err => Raise err s
    end.
Proof.
  unfold exp, bind, read_data, lift, Value_init, finish.
  destruct (m_exp _); [|done]. by rewrite set_backward_last.
Qed.

Lemma log_eq self s :
  log self s
  = let a := get_data s self in
    let safe := if fltb EPS a then a else EPS in
    match m_log safe with
    | Ok d => Return (length s)
                (s ++ [node d [self] op_log (bw_log self safe (length s))])
    | Err err => Raise err s
    end.
Proof.
  unfold log, bind, read_data, lift, Value_init, finish. simpl.
  destruct (m_log _); [|done]. by rewrite set_backward_last.
Qed.

Lemma tanh_eq self s :
  tanh self s
  = match m_tanh (get_data s self) with
    | Ok t => Return (length s)
                (s ++ [node t [self] op_tanh (bw_tanh self t (length s))])
    | Err err => Raise err s
    end.
Proof.
  unfold tanh, bind, read_data, lift, Value_init, finish.
  destruct (m_tanh _); [|done]. by rewrite set_backward_last.
Qed.

Lemma relu_eq self s :
  relu self s
  = let a := get_data s self in
    Return (length s)
      (s ++ [node (if fltb f0 a then a else f0) [self] op_relu
                  (bw_relu self (length s))]).
Proof.
  unfold relu, bind, read_data, Value_init, finish. simpl.
  by rewrite set_backward_last.
Qed.

(** Allocation keeps the store well formed. *)
Lemma wf_store_alloc s d children o c :
  wf_store s ->
  (forall u, u ∈ children -> u < length s) ->
  (forall u, u ∈ closure_targets c -> u ∈ children) ->
  wf_store (s ++ [node d children o c]).
Proof.
  intros Hwf Hlt Htg v n Hv.
  apply lookup_app_Some in Hv as [Hv|[Hlen Hv]]; [by apply Hwf|].
  apply list_lookup_singleton_Some in Hv as [Hv <-].
  assert (v = length s) as -> by lia.
  split; simpl; intros u; unfold pyset; rewrite elem_of_remove_dups; auto.
Qed.

Lemma wf_store_nil : wf_store (F := F) [].
Proof. intros v n Hv. by rewrite lookup_nil in Hv. Qed.

Local Ltac wf_alloc :=
  apply wf_store_alloc; [done| |];
  intros u; simpl; rewrite ?elem_of_cons, ?elem_of_nil; intros; intuition (subst; auto).

(** X3: The operations keep the store well formed as long as their operands
    are in it. *)
Lemma wf_store_ops s self other e :
  wf_store s -> self < length s -> other < length s ->
  wf_store (final_store (Value_of e s)) /\
  wf_store (final_store (__add__ self (OValue other) s)) /\
  wf_store (final_store (__mul__ self (OValue other) s)) /\
  wf_store (final_store (__neg__ self s)) /\
  wf_store (final_store (__pow__ self (ONum e) s)) /\
  wf_store (final_store (exp self s)) /\
  wf_store (final_store (log self s)) /\
  wf_store (final_store (tanh self s)) /\
  wf_store (final_store (relu self s)).
Proof.
  intros Hwf Hself Hother.
  rewrite add_eq, mul_eq, neg_eq, pow_eq, exp_eq, log_eq, tanh_eq, relu_eq.
  unfold Value_of, bind, lift, Value_init. cbv zeta.
  split_and!; simpl;
    repeat match goal with
           | |- context [match ?r with Ok _ => _ | Err _ => _ end] => destruct r; simpl
           end;
    first [ assumption | wf_alloc
          | apply (wf_store_alloc s _ [] op_leaf bw_none); [done| |];
            intros u Hu; by apply elem_of_nil in Hu ].
Qed.

End OpFacts.

(** ** Loops *)

Section MonadFacts.
Context {F : Type} {PF : PyFloat F}.
Implicit Types (s : store F) (v u : nat).

Lemma mapM_length {A B : Type} (body : A -> M F B) (l : list A) s bs s' :
  mapM body l s = Return bs s' -> length bs = length l.
Proof.
  revert s bs s'. induction l as [|a l IH]; intros s bs s'; simpl.
  - by intros [= <- _].
  - unfold bind, ret. destruct (body a s) as [c s1|]; [|done].
    destruct (mapM body l s1) as [bs' s2|] eqn:E; [|done].
    intros Hrun. injection Hrun as <- _. simpl. f_equal. by eapply IH.
Qed.

Lemma repeatM_length {A : Type} (n : nat) (body : M F A) s l s' :
  repeatM n body s = Return l s' -> length l = n.
Proof.
  revert s l s'. induction n as [|n IH]; intros s l s'; simpl.
  - by intros [= <- _].
  - unfold bind, ret. destruct (body s) as [a s1|]; [|done].
    destruct (repeatM n body s1) as [l' s2|] eqn:E; [|done].
    intros Hrun. injection Hrun as <- _. simpl. f_equal. by eapply IH.
Qed.

(** A loop whose body returns from every store returns, with a list as
    long as the one it ran over. *)
Lemma mapM_total {A B : Type} (body : A -> M F B) (l : list A) :
  (forall a s, a ∈ l -> exists c s', body a s = Return c s') ->
  forall s, exists bs s', mapM body l s = Return bs s' /\ length bs = length l.
Proof.
  induction l as [|a l IH]; intros Hbody s; simpl.
  - by exists [], s.
  - destruct (Hbody a s (list_elem_of_here a l)) as (c & s1 & Hc).
    destruct (IH (fun a' s' Ha' => Hbody a' s' (list_elem_of_further _ a _ Ha')) s1)
      as (bs & s2 & Hbs & Hlen).
    exists (c :: bs), s2. unfold bind, ret. rewrite Hc, Hbs.
    split; [done|simpl; lia].
Qed.

(** The same with an invariant [I] of the store and a property [P] of
    each item, both of which survive appending to the store. *)
Lemma mapM_returns {A B : Type} (I : store F -> Prop) (P : B -> store F -> Prop)
    (body : A -> M F B) (l : list A) :
  (forall s s', s `prefix_of` s' -> I s -> I s') ->
  (forall c s s', s `prefix_of` s' -> P c s -> P c s') ->
  (forall a s, a ∈ l -> I s ->
     exists c s', body a s = Return c s' /\ s `prefix_of` s' /\ P c s') ->
  forall s, I s ->
  exists bs s',
    mapM body l s = Return bs s' /\ s `prefix_of` s' /\
    length bs = length l /\ Forall (fun c => P c s') bs.
Proof.
  intros HI HP. induction l as [|a l IH]; intros Hbody s Hs; simpl.
  - by exists [], s.
  - destruct (Hbody a s (list_elem_of_here a l) Hs) as (c & s1 & Hc & Hpre & Pc).
    destruct (IH (fun a' s' Ha' => Hbody a' s' (list_elem_of_further _ a _ Ha'))
                s1 (HI _ _ Hpre Hs))
      as (bs & s2 & Hbs & Hpre' & Hlen & Hall).
    exists (c :: bs), s2. unfold bind, ret. rewrite Hc, Hbs.
    split; [done|]. split; [by etrans|]. split; [simpl; lia|].
    constructor; [by eapply HP|done].
Qed.

Lemma tensor_sum_loop_returns (items : list (M F nat)) acc s :
  (forall item s, item ∈ items -> exists v s', item s = Return v s') ->
  exists d s', tensor_sum_loop items acc s = Return d s'.
Proof.
  revert acc s. induction items as [|item items IH]; intros acc s Hitems; simpl.
  - by exists acc, s.
  - destruct (Hitems item s (list_elem_of_here _ _)) as (v & s1 & Hv).
    unfold bind at 1. rewrite Hv. unfold bind at 1. rewrite add_eq.
    apply IH. intros it s0 Hit. apply Hitems. by apply list_elem_of_further.
Qed.

Lemma zip_take {A B : Type} (l : list A) (k : list B) :
  zip l k = zip (take (length k) l) (take (length l) k).
Proof.
  revert k. induction l as [|a l IH]; intros [|c k]; simpl; [done..|].
  f_equal. apply IH.
Qed.

End MonadFacts.

Arguments set_order : simpl never.

(** * The claims *)

(** ** Runs in binary64 *)

Section Binary64.
Context {L : libm}.
Implicit Types (s : store binary64).

Local Ltac run := vm_compute; reflexivity.

(** C1: for [z = x*y + y] built from the leaves [x = 2.0] and [y = 3.0],
    [z.backward()] sets [x.grad] to exactly 3.0 and [y.grad] to exactly
    3.0, with any C library and in any order of the parent sets. *)
Theorem C1_xy_plus_y_gradients (choice : list nat -> nat) :
  exists x y z s s',
    xy_plus_y [] = Return (x, y, z) s /\
    backward (set_order choice) z s = Return tt s' /\
    get_grad s' x = fdec 3 0 /\
    get_grad s' y = fdec 3 0.
Proof.
  pose proof (set_order_perm choice) as Hperm.
  pose proof (perm_nil _ (Hperm [])) as E0.
  destruct (perm_pair _ _ _ (Hperm [0; 1])) as [E1|E1];
  destruct (perm_pair _ _ _ (Hperm [2; 1])) as [E2|E2].
  all: eexists 0, 1, 3, _, _; split; [run|].
  all: erewrite (backward_iter_ext (set_order choice)
         (order_tab [([0; 1], set_order choice [0; 1]);
                     ([2; 1], set_order choice [2; 1])]));
    [ rewrite E1, E2; split; [run|split; run]
    | intros [|[|[|[|u]]]]; unfold get_prev; simpl; rewrite ?E0; reflexivity ].
Qed.

(** C2: a leaf that feeds two consumers summed into the root receives
    both contributions: for [a = Value(2); b = a*a + a*3], after
    [b.backward()] the gradient of [a] is 7 (2*2 from the square, 3 from
    the product), with any C library and in any order of the parent sets. *)
Theorem C2_two_paths_accumulate (choice : list nat -> nat) :
  exists a b s s',
    square_plus_triple [] = Return (a, b) s /\
    backward (set_order choice) b s = Return tt s' /\
    get_grad s' a = fdec 7 0.
Proof.
  pose proof (set_order_perm choice) as Hperm.
  pose proof (perm_nil _ (Hperm [])) as E0.
  pose proof (perm_single _ _ (Hperm [0])) as E1.
  destruct (perm_pair _ _ _ (Hperm [0; 2])) as [E2|E2];
  destruct (perm_pair _ _ _ (Hperm [1; 3])) as [E3|E3].
  all: eexists 0, 4, _, _; split; [run|].
  all: erewrite (backward_iter_ext (set_order choice)
         (order_tab [([0; 2], set_order choice [0; 2]);
                     ([1; 3], set_order choice [1; 3])]));
    [ rewrite E2, E3; split; run
    | intros [|[|[|[|[|u]]]]]; unfold get_prev; simpl; rewrite ?E0, ?E1; reflexivity ].
Qed.

(** After [out = x*y] is built, [y.data] is set to [d]; [out.backward()]
    then hands [x] the value [y] has now. *)
Lemma product_then_mutate :
  exists s s',
    product [] = Return (0, 1, 2) s /\
    get_data s 1 = fdec 3 0 /\
    backward (set_order (fun _ => 0)) 2 (set_data 1 (fdec 5 0) s) = Return tt s' /\
    get_grad s' 0 = fdec 5 0 /\
    get_grad s' 2 = fdec 1 0.
Proof. eexists _, _. split; [run|split; [run|split; [run|split; run]]]. Qed.

(** All the inputs are finite, the gradient that reaches the power node
    is not, and the base ends with a NaN gradient. *)
Lemma sqrt_scaled_backward :
  exists s s',
    sqrt_scaled [] = Return (0, 5) s /\
    backward (set_order (fun _ => 0)) 5 s = Return tt s' /\
    get_grad s' 1 = S754_infinity false /\
    get_grad s' 0 = S754_nan.
Proof. eexists _, _. split; [run|split; [run|split; run]]. Qed.

Lemma b64_eqb_zero x : b64_eqb x b64_zero = true -> is_zero x = true.
Proof. by destruct x as [|[]| |[]]. Qed.

Lemma zero_times_finite x g :
  is_zero x = true -> is_finite g = true -> is_zero (SFmul prec emax x g) = true.
Proof. by destruct x, g. Qed.

Lemma pow_grad_local_zero_neg a e :
  b64_eqb a b64_zero = true -> num_neg (num_pred e) = true ->
  pow_grad_local a e = Ok b64_zero.
Proof.
  intros Ha He. unfold pow_grad_local. simpl feqb. simpl f0. by rewrite Ha, He.
Qed.

Lemma pow_grad_local_zero_two a :
  b64_eqb a b64_zero = true ->
  exists c, is_zero c = true /\
    pow_grad_local a (PyInt 2) = Ok c /\
    pow_grad_local a (PyFl (fdec 2 0)) = Ok c.
Proof.
  intros Ha. apply b64_eqb_zero in Ha. destruct a as [sgn| | |]; try done.
  exists (S754_zero sgn). by destruct sgn.
Qed.

Lemma b64_pow_zero_base a iw err :
  b64_eqb a b64_zero = true -> b64_pow a iw = Err err -> err = ZeroDivisionError.
Proof.
  intros Ha. apply b64_eqb_zero in Ha. destruct a as [sgn| | |]; try done.
  unfold b64_pow.
  destruct (b64_eqb iw b64_zero); [done|]. cbn [is_nan is_inf].
  destruct (is_nan iw); [done|]. destruct (is_inf iw).
  { by repeat case_match. }
  replace (b64_eqb (S754_zero sgn) b64_zero) with true by by destruct sgn.
  destruct (b64_ltb iw b64_zero); [congruence|done].
Qed.

Lemma pow_rule_error_zero_base a e err :
  b64_eqb a b64_zero = true ->
  rbind (pow_num a (num_pred e)) (num_mul e) = Err err ->
  pow_rule_error err = err.
Proof.
  intros Ha. unfold pow_num, num_mul, to_float.
  assert (Hint : forall z er, @of_int binary64 _ z = Err er -> er = OverflowError).
  { intros z er. change (@of_int binary64 _ z) with (b64_of_int z). unfold b64_of_int.
    cbv zeta. destruct (is_inf (b64_of_Z z)); congruence. }
  destruct (num_pred e) as [z|x]; cbn [rbind].
  - destruct (@of_int binary64 _ z) as [y|er] eqn:Ey; cbn [rbind].
    + cbn [fpow binary64_float].
      destruct (b64_pow a y) as [p|er] eqn:Ep; cbn [rbind].
      * destruct e as [z'|x']; cbn [rbind]; [|done].
        destruct (@of_int binary64 _ z') as [y'|er'] eqn:Ey'; cbn [rbind]; [done|].
        intros [= <-]. by rewrite (Hint _ _ Ey').
      * intros [= <-]. by rewrite (b64_pow_zero_base _ _ _ Ha Ep).
    + intros [= <-]. by rewrite (Hint _ _ Ey).
  - cbn [fpow binary64_float].
    destruct (b64_pow a x) as [p|er] eqn:Ep; cbn [rbind].
    + destruct e as [z'|x']; cbn [rbind]; [|done].
      destruct (@of_int binary64 _ z') as [y'|er'] eqn:Ey'; cbn [rbind]; [done|].
      intros [= <-]. by rewrite (Hint _ _ Ey').
    + intros [= <-]. by rewrite (b64_pow_zero_base _ _ _ Ha Ep).
Qed.

(** C6 (amended): at a power node whose base is exactly 0.0 (of either
    sign), when [e - 1 < 0], and also when [e] is 2, the local backward
    rule adds a zero to the base's gradient, provided the gradient of the
    output is finite; otherwise, when [e - 1 < 0] fails, it adds
    [e * base ** (e - 1)] times the gradient of the output. *)
Theorem C6_pow_zero_base s self e out :
  b64_eqb (get_data s self) b64_zero = true ->
  is_finite (get_grad s out) = true ->
  (num_neg (num_pred e) = true \/ e = PyInt 2 \/ e = PyFl (fdec 2 0) ->
   exists c, is_zero c = true /\
     call_backward (bw_pow self e out) s
     = Return tt (iadd_grad self c s)) /\
  (num_neg (num_pred e) = false ->
   call_backward (bw_pow self e out) s
   = match rbind (pow_num (get_data s self) (num_pred e)) (num_mul e) with
     | Ok grad_local =>
         Return tt (iadd_grad self (fmul grad_local (get_grad s out)) s)
     | Err err => Raise err s
     end).
Proof.
  intros Ha Hg. split.
  - intros [He|[->| ->]].
    + exists (fmul b64_zero (get_grad s out)). split.
      * by apply zero_times_finite.
      * unfold call_backward. by rewrite pow_grad_local_zero_neg.
    + destruct (pow_grad_local_zero_two _ Ha) as (c & Hc & E & _).
      exists (fmul c (get_grad s out)). split.
      * by apply zero_times_finite.
      * unfold call_backward. by rewrite E.
    + destruct (pow_grad_local_zero_two _ Ha) as (c & Hc & _ & E).
      exists (fmul c (get_grad s out)). split.
      * by apply zero_times_finite.
      * unfold call_backward. by rewrite E.
  - intros He. unfold call_backward, pow_grad_local.
    rewrite He, andb_false_r.
    destruct (rbind _ _) as [g|err] eqn:E; [done|].
    by rewrite (pow_rule_error_zero_base _ _ _ Ha E).
Qed.

(** With a C library whose [exp] overflows at 1000.0, as every one does,
    a NaN among the logits lets [stable_softmax] subtract too small a
    maximum, and [math.exp] raises. *)
Lemma softmax_nan_overflow :
  c_exp (b64_of_Z 1000) = S754_infinity false ->
  exists s s',
    nan_logits [] = Return [0; 1; 2] s /\
    stable_softmax [0; 1; 2] s = Raise OverflowError s'.
Proof.
  intros Hexp.
  let r := eval vm_compute in (b64_of_Z 1000) in
  change (b64_of_Z 1000) with r in Hexp.
  eexists _, _. split; [vm_compute; reflexivity|].
  unfold stable_softmax. unfold bind at 1.
  match goal with |- context [softmax_max ?s ?v ?r] =>
    let m := eval vm_compute in (softmax_max s v r) in
    change (softmax_max s v r) with m
  end.
  cbn [mapM]. unfold bind at 1 2 3.
  match goal with |- context [__sub__ ?v ?o ?s] =>
    let r := eval vm_compute in (__sub__ v o s) in
    change (__sub__ v o s) with r
  end.
  cbv beta iota. rewrite exp_eq.
  match goal with |- context [get_data ?s ?v] =>
    let r := eval vm_compute in (get_data s v) in
    change (get_data s v) with r
  end.
  cbn [m_exp binary64_float]. unfold math_1. rewrite Hexp.
  cbn. reflexivity.
Qed.

End Binary64.

(** C6 (the claim as stated fails): every input of
    [x = Value(0.0); p = x ** 0.5; z = p * 1e200 * 1e200] is finite, the
    power rule is at base 0.0 with [e - 1 < 0], and after [z.backward()]
    the gradient of [x] is NaN, not 0. *)
Lemma C6_counterexample :
  ~ (forall (L : libm) (s s' : store binary64),
       sqrt_scaled [] = Return (0, 5) s ->
       backward (set_order (fun _ => 0)) 5 s = Return tt s' ->
       b64_eqb (get_grad s' 0) b64_zero = true).
Proof.
  intros Hclaim.
  destruct (sqrt_scaled_backward (L := libm_overflow)) as (s & s' & Hs & Hs' & _ & Hnan).
  specialize (Hclaim libm_overflow s s' Hs Hs').
  rewrite Hnan in Hclaim. discriminate Hclaim.
Qed.

(** The hypotheses of C6 hold at the power node of the run above before
    any gradient has flowed. *)
Lemma C6_witness :
  let L : libm := libm_overflow in
  let s := final_store (sqrt_scaled []) in
  b64_eqb (get_data s 0) b64_zero = true /\
  is_finite (get_grad s 1) = true /\
  exists c, is_zero c = true /\
    call_backward (bw_pow 0 (PyFl (fdec 5 (-1))) 1) s
    = Return tt (iadd_grad 0 c s).
Proof.
  intros L s.
  assert (Ha : b64_eqb (get_data s 0) b64_zero = true) by (vm_compute; reflexivity).
  assert (Hg : is_finite (get_grad s 1) = true) by (vm_compute; reflexivity).
  split; [exact Ha|]. split; [exact Hg|].
  apply (C6_pow_zero_base s 0 (PyFl (fdec 5 (-1))) 1 Ha Hg).
  left. vm_compute. reflexivity.
Defined.

(** C4 (the claim as stated fails): [y] is 3.0 when [out = x*y] is built
    and is set to 5.0 before [out.backward()]; the gradient of [x] is
    then 5.0, not 3.0 times the gradient of [out]. *)
Lemma C4_counterexample :
  ~ (forall (L : libm) (d : binary64) (s s' : store binary64),
       product [] = Return (0, 1, 2) s ->
       backward (set_order (fun _ => 0)) 2 (set_data 1 d s) = Return tt s' ->
       get_grad s' 0 = fmul (get_data s 1) (get_grad s' 2)).
Proof.
  intros Hclaim.
  destruct (product_then_mutate (L := libm_overflow)) as (s & s' & Hs & Hy & Hs' & Hx & Hout).
  specialize (Hclaim libm_overflow (b64_dec 5 0) s s' Hs Hs').
  rewrite Hx, Hy, Hout in Hclaim. vm_compute in Hclaim. discriminate Hclaim.
Qed.

(** C10 (the claim as stated fails): on the three logits 1000.0, NaN and
    0.0, [stable_softmax] raises OverflowError. *)
Lemma C10_counterexample :
  ~ (forall (L : libm),
       c_exp (b64_of_Z 1000) = S754_infinity false ->
       forall (logits : list nat) (s : store binary64),
         logits <> [] ->
         exists probs s',
           stable_softmax logits s = Return probs s' /\
           length probs = length logits).
Proof.
  intros Hclaim.
  assert (Hexp : c_exp (libm := libm_overflow) (b64_of_Z 1000) = S754_infinity false)
    by (vm_compute; reflexivity).
  destruct (softmax_nan_overflow (L := libm_overflow) Hexp) as (s & s' & _ & Hraise).
  destruct (Hclaim libm_overflow Hexp [0; 1; 2] s) as (probs & s2 & Hret & _);
    [done|].
  rewrite Hraise in Hret. discriminate Hret.
Qed.

(** ** Properties of every float arithmetic *)

Section Generic.
Context {F : Type} {PF : PyFloat F}.
Implicit Types (s : store F) (v u : nat).

(** C3: on a store the operations built, calling [backward] twice in a
    row on the same root ends the second time exactly as the first: the
    same outcome and the same store, so every node has the gradient it
    had after the first call. *)
Theorem C3_backward_twice (choice : list nat -> nat) s root :
  wf_store s ->
  let first := backward (set_order choice) root s in
  let second := backward (set_order choice) root (final_store first) in
  second = first /\
  forall v, get_grad (final_store second) v = get_grad (final_store first) v.
Proof.
  intros Hwf first second.
  assert (Heq : second = first).
  { apply backward_twice; [|done].
    intros l c Hc. by rewrite set_order_perm. }
  split; [done|]. intros v. by rewrite Heq.
Qed.

(** X1: Called on a node without parents, [backward] sets its gradient to 1.0
    and touches nothing else of the graph. *)
Lemma backward_lone_leaf (choice : list nat -> nat) s v :
  v < length s -> get_prev s v = [] -> get_backward s v = bw_none ->
  exists s', backward (set_order choice) v s = Return tt s' /\ get_grad s' v = f1.
Proof.
  intros Hv Hprev Hbw. unfold backward, topo_order. simpl.
  rewrite Hprev, (perm_nil _ (set_order_perm choice [])). simpl.
  unfold bind. rewrite get_backward_set_grad, get_backward_set_grad, Hbw. simpl.
  eexists. split; [reflexivity|].
  apply get_grad_set_grad_eq. by rewrite length_set_grad.
Qed.

(** C4 (amended): the closure of [out = a * b] keeps the two operands,
    not their values; when it is called it adds to each operand's
    gradient the value the other operand has in the store at that moment,
    times the gradient of [out] (twice over for [a * a]). *)
Theorem C4_mul_rule_reads_current_values (s0 : store F) (a b : nat) :
  a < length s0 -> b < length s0 ->
  exists out s1,
    __mul__ a (OValue b) s0 = Return out s1 /\
    get_backward s1 out = bw_mul a b out /\
    forall s, length s = length s1 ->
      let g := get_grad s out in
      exists s',
        call_backward (bw_mul a b out) s = Return tt s' /\
        (a <> b ->
         get_grad s' a = fadd (get_grad s a) (fmul (get_data s b) g) /\
         get_grad s' b = fadd (get_grad s b) (fmul (get_data s a) g)) /\
        (a = b ->
         get_grad s' a
         = fadd (fadd (get_grad s a) (fmul (get_data s a) g)) (fmul (get_data s a) g)).
Proof.
  intros Ha Hb. rewrite mul_eq. eexists _, _. split; [reflexivity|].
  split.
  { unfold get_backward. rewrite lookup_app_r by lia. by rewrite Nat.sub_diag. }
  intros s Hlen g. rewrite length_app in Hlen. simpl in Hlen.
  eexists. split; [reflexivity|]. unfold iadd_grad. split.
  - intros Hab. split.
    + rewrite get_grad_set_grad_ne by done.
      rewrite get_grad_set_grad_eq by lia. done.
    + rewrite get_grad_set_grad_eq by (rewrite length_set_grad; lia).
      rewrite get_data_set_grad.
      rewrite !get_grad_set_grad_ne by lia. done.
  - intros <-.
    rewrite get_grad_set_grad_eq by (rewrite length_set_grad; lia).
    rewrite get_data_set_grad.
    rewrite get_grad_set_grad_eq by lia.
    rewrite get_grad_set_grad_ne by lia. done.
Qed.

(** C5 (amended): with predictions and targets of different lengths,
    [MSELoss] raises AssertionError at once and builds nothing, while
    [CrossEntropyLoss] makes no check: it runs the softmax over all the
    logits and pairs probabilities with targets up to the shorter of the
    two lengths. *)
Theorem C5_length_mismatch (preds : list nat) (targets : list (pynum F)) s :
  length preds <> length targets ->
  MSELoss preds targets s = Raise AssertionError s /\
  CrossEntropyLoss preds targets s
  = bind (stable_softmax preds) (fun probs =>
    bind (ce_losses (zip (take (length targets) probs)
                         (take (length preds) targets))) (fun losses =>
    tensor_mean losses)) s.
Proof.
  intros Hlen. split.
  - unfold MSELoss. apply Nat.eqb_neq in Hlen. by rewrite Hlen.
  - unfold CrossEntropyLoss, bind at 1 3.
    destruct (stable_softmax preds s) as [probs s1|] eqn:E; [|done].
    assert (Hp : length probs = length preds).
    { unfold stable_softmax in E. destruct preds as [|v0 rest].
      - by injection E as <- _.
      - unfold bind at 1 2 in E.
        destruct (mapM _ (v0 :: rest) s) as [exps s2|] eqn:Eexps; [|done].
        apply mapM_length in Eexps.
        unfold bind at 1 in E. destruct (tensor_sum exps s2) as [dn s3|]; [|done].
        apply mapM_length in E. by rewrite E. }
    by rewrite (zip_take probs targets), Hp.
Qed.

Lemma Linear_init_shaped random inf outf bias init s layer s' :
  Linear__init__ random inf outf bias init s = Return layer s' ->
  in_features layer = inf /\ out_features layer = outf /\ Linear_shaped layer.
Proof.
  unfold Linear__init__. unfold bind at 1.
  destruct (repeatM outf _ s) as [rows s1|] eqn:Erows; [|done].
  apply repeatM_length in Erows.
  unfold bind at 1. destruct bias.
  - unfold bind at 1. destruct (repeatM outf _ s1) as [bs s2|] eqn:Ebs; [|done].
    apply repeatM_length in Ebs. unfold ret. intros [= <- _]. by repeat split.
  - unfold ret. intros [= <- _]. by repeat split.
Qed.

Lemma Linear_row_returns self x i s :
  Linear_shaped self -> i < out_features self ->
  exists v s', Linear_row self x i s = Return v s'.
Proof.
  intros [HW Hb] Hi. unfold Linear_row.
  destruct (lookup_lt_is_Some_2 (W self) i) as [row ->]; [lia|].
  unfold bind at 1, tensor_sum_gen, bind at 1. rewrite Value_of_float.
  destruct (tensor_sum_loop_returns
              (map (fun wxi => __mul__ wxi.1 (OValue wxi.2)) (zip row x))
              (length s) (s ++ [node f0 [] op_leaf bw_none]))
    as (d & s1 & ->).
  { intros item s0 Hin. apply list_elem_of_fmap in Hin as ([w xi] & -> & _).
    rewrite mul_eq. by eexists _, _. }
  destruct (b self) as [bs|]; [|by eexists _, _].
  destruct (lookup_lt_is_Some_2 bs i) as [bi ->]; [lia|].
  rewrite add_eq. by eexists _, _.
Qed.

(** C9: a layer that [Linear.__init__] returned raises ValueError, leaving
    the store as it is, on every input whose length is not [in_features],
    and returns [out_features] values on every input of that length. *)
Theorem C9_linear_input_length random inf outf bias init s0 layer s1 x s :
  Linear__init__ random inf outf bias init s0 = Return layer s1 ->
  (length x <> inf -> Linear__call__ layer x s = Raise ValueError s) /\
  (length x = inf ->
   exists out s', Linear__call__ layer x s = Return out s' /\ length out = outf).
Proof.
  intros Hinit. apply Linear_init_shaped in Hinit as (Hin & Hout & Hshape).
  unfold Linear__call__. split; intros Hlen.
  - apply Nat.eqb_neq in Hlen. by rewrite Hin, Hlen.
  - rewrite Hin. apply Nat.eqb_eq in Hlen. rewrite Hlen. simpl.
    destruct (mapM_total (Linear_row layer x) (seq 0 (out_features layer)))
      with (s := s) as (out & s' & Hrun & Hl).
    + intros i s2 Hi. apply elem_of_seq in Hi.
      apply Linear_row_returns; [done|lia].
    + exists out, s'. split; [done|]. by rewrite Hl, length_seq, Hout.
Qed.

Lemma stable_softmax_length logits s probs s' :
  stable_softmax logits s = Return probs s' -> length probs = length logits.
Proof.
  unfold stable_softmax. destruct logits as [|v0 rest].
  - by intros [= <- _].
  - unfold bind at 1 2.
    destruct (mapM _ (v0 :: rest) s) as [exps s1|] eqn:Eexps; [|done].
    apply mapM_length in Eexps.
    unfold bind at 1. destruct (tensor_sum exps s1) as [dn s2|]; [|done].
    intros Hprobs. apply mapM_length in Hprobs. by rewrite Hprobs.
Qed.

(** The loop of [Adam.step] leaves the step counter alone. *)
Lemma Adam_loop_t ps o s : _t (Adam_loop ps o s).1 = _t o.
Proof.
  revert o s. induction ps as [|p ps IH]; intros o s; simpl; [done|].
  destruct (adam_delta _ _ _); [|done]. by rewrite IH.
Qed.

Lemma Adam_step_t o s : _t (Adam_step o s).1 = (_t o + 1)%Z.
Proof. unfold Adam_step. by rewrite Adam_loop_t. Qed.

(** One step of a fresh [Adam] over one parameter is the update the
    specification words, at [t = 1] and from zero moments. *)
Lemma Adam_step_single p s :
  feqb f0 f0 = true ->
  let o := Adam_default [p] in
  let m := first_moment_spec (beta1 o) f0 (get_grad s p) in
  let v := second_moment_spec (beta2 o) f0 (get_grad s p) in
  Adam_step o s
  = (mkAdam [p] (lr o) (beta1 o) (beta2 o) (eps o) f0
            (<[p := m]> (_m o)) (<[p := v]> (_v o)) 1,
     match adam_step_spec (lr o) (beta1 o) (beta2 o) (eps o) 1 m v with
     | Ok delta => Return tt (set_data p (fadd (get_data s p) delta) s)
     | Err e => Raise e s
     end).
Proof.
  intros H00. simpl. unfold Adam_step, Adam_loop. simpl.
  rewrite H00. simpl. rewrite !lookup_insert_eq. simpl.
  unfold adam_delta, adam_step_spec, first_moment_spec, second_moment_spec. simpl.
  by destruct (rbind _ _).
Qed.

End Generic.

(** ** Properties in exact arithmetic *)

Section Real.
Local Open Scope R_scope.
Implicit Types (s : store R) (v u : nat).

Lemma R_eqb_refl x : R_eqb x x = true.
Proof. unfold R_eqb. by destruct (Req_dec_T x x). Qed.

Lemma R_eqb_false x y : x <> y -> R_eqb x y = false.
Proof. intros. unfold R_eqb. by destruct (Req_dec_T x y). Qed.

Lemma R_ltb_true x y : x < y -> R_ltb x y = true.
Proof. intros. unfold R_ltb. by destruct (Rlt_dec x y). Qed.

Lemma R_ltb_false x y : y <= x -> R_ltb x y = false.
Proof. intros. unfold R_ltb. destruct (Rlt_dec x y); [lra|done]. Qed.

Lemma R_pow_pos x y : 0 < x -> y <> 0 -> R_pow x y = Ok (Rpower x y).
Proof.
  intros Hx Hy. unfold R_pow.
  rewrite (R_eqb_false y 0), (R_eqb_false x 0), R_ltb_true; auto; lra.
Qed.

Lemma R_pow_one x : 0 < x -> R_pow x 1 = Ok x.
Proof.
  intros Hx. rewrite R_pow_pos; [|done|lra]. by rewrite Rpower_1.
Qed.

Lemma R_pow_inv x : 0 < x -> R_pow x (IZR (-1)) = Ok (/ x).
Proof.
  intros Hx. rewrite R_pow_pos; [|done|apply eq_IZR_contrapositive; lia].
  f_equal. replace (IZR (-1)) with (- (1)) by lra.
  by rewrite Rpower_Ropp, Rpower_1.
Qed.

Lemma R_pow_inv_sqr x : 0 < x -> R_pow x (IZR (-2)) = Ok (/ (x * x)).
Proof.
  intros Hx. rewrite R_pow_pos; [|done|apply eq_IZR_contrapositive; lia].
  f_equal. replace (IZR (-2)) with (- (1 + 1)) by lra.
  by rewrite Rpower_Ropp, Rpower_plus, Rpower_1.
Qed.

Lemma fdec_real m k : fdec (F := R) m k = IZR m * powerRZ 10 k.
Proof. done. Qed.

Lemma sigmoid_denominator_pos a : 0 < Rtrigo_def.exp (- a) + 1.
Proof. pose proof (exp_pos (- a)). lra. Qed.

Local Ltac rcbv :=
  cbv - [R_pow R_eqb R_ltb R_leb R_div Rplus Rmult Ropp Rminus Rdiv Rinv IZR
         Rtrigo_def.exp Rpower ln sqrt Rtrigo_def.tanh powerRZ set_order].

(** On a fresh leaf and in the real numbers: [x.sigmoid()] builds seven
    nodes and only the rules of negation, exp, addition, power and
    multiplication; its value is [1 / (1 + exp (-x))]; and, with
    [z = sigmoid(x) * g], [z.backward()] returns and gives [x] the
    gradient [sigmoid(x) * (1 - sigmoid(x))] times [g], for every order
    of the parent sets. *)
Lemma sigmoid_fresh_leaf_real (a g : R) (choice : list nat -> nat) :
  exists x sg z s s',
    sigmoid_scaled a g [] = Return (x, sg, z) s /\
    _backward <$> take 7 (drop 1 s)
    = [bw_neg 0 1; bw_exp 1 (Rtrigo_def.exp (- a)) 2; bw_none; bw_add 2 3 4;
       bw_none; bw_pow 4 (PyInt (-1)) 6; bw_mul 5 6 7] /\
    get_data s sg = 1 / (1 + Rtrigo_def.exp (- a)) /\
    backward (set_order choice) z s = Return tt s' /\
    get_grad s' sg = g /\
    get_grad s' x = get_data s sg * (1 - get_data s sg) * get_grad s' sg.
Proof.
  pose proof (sigmoid_denominator_pos a) as Hd.
  pose proof (R_pow_inv _ Hd) as Hp1.
  pose proof (R_pow_inv_sqr _ Hd) as Hp2.
  pose proof (R_eqb_false (Rtrigo_def.exp (- a) + 1) 0 ltac:(lra)) as Hne.
  pose proof (set_order_perm choice) as Hperm.
  pose proof (perm_nil _ (Hperm [])) as E0.
  pose proof (perm_single _ _ (Hperm [0%nat])) as E1.
  pose proof (perm_single _ _ (Hperm [1%nat])) as E2.
  pose proof (perm_single _ _ (Hperm [4%nat])) as E3.
  eexists 0%nat, 7%nat, 9%nat, _, _.
  split; [rcbv; rewrite Hp1; rcbv; reflexivity|].
  split; [rcbv; reflexivity|].
  split; [rcbv; field; lra|].
  destruct (perm_pair _ _ _ (Hperm [2; 3]%nat)) as [P1|P1];
  destruct (perm_pair _ _ _ (Hperm [5; 6]%nat)) as [P2|P2];
  destruct (perm_pair _ _ _ (Hperm [7; 8]%nat)) as [P3|P3].
  all: erewrite (backward_iter_ext (set_order choice)
         (order_tab [([2; 3]%nat, set_order choice [2; 3]%nat);
                     ([5; 6]%nat, set_order choice [5; 6]%nat);
                     ([7; 8]%nat, set_order choice [7; 8]%nat)]));
    [ rewrite P1, P2, P3; rcbv; rewrite Hne; rcbv; rewrite Hp2; rcbv;
      split; [reflexivity|split; rcbv; field; lra]
    | intros [|[|[|[|[|[|[|[|[|[|u]]]]]]]]]]; rcbv; congruence ].
Qed.

(** One step of a fresh Adam on the parameter of value 1 and gradient 1. *)
Lemma Adam_first_step_real :
  exists o' s',
    Adam_step (Adam_default [0%nat]) one_param = (o', Return tt s') /\
    _t o' = 1%Z /\
    _m o' !! 0%nat = Some (1/10) /\
    _v o' !! 0%nat = Some (1/1000) /\
    get_data s' 0%nat = 1 - (1/1000) / (1 + 1/100000000).
Proof.
  assert (Hlr : fdec (F := R) 1 (-3) = 1/1000) by (rewrite fdec_real; simpl; lra).
  assert (Hb1 : fdec (F := R) 9 (-1) = 9/10) by (rewrite fdec_real; simpl; lra).
  assert (Hb2 : fdec (F := R) 999 (-3) = 999/1000) by (rewrite fdec_real; simpl; lra).
  assert (Heps : fdec (F := R) 1 (-8) = 1/100000000) by (rewrite fdec_real; simpl; lra).
  rewrite Adam_step_single by (apply R_eqb_refl).
  unfold Adam_default, Adam__init__, adam_step_spec, first_moment_spec,
    second_moment_spec, pow_num, to_float, one_param.
  cbn [lr beta1 beta2 eps fst snd get_grad get_data lookup list_lookup grad data].
  rewrite Hlr, Hb1, Hb2, Heps.
  cbn [of_int real_float rbind fpow fdiv fsub fmul fadd fneg f0 f1 m_sqrt].
  rewrite !R_pow_one by lra. cbn [rbind].
  unfold R_div.
  rewrite (R_eqb_false (1 - 9/10) 0) by lra.
  rewrite (R_eqb_false (1 - 999/1000) 0) by lra.
  cbn [rbind].
  replace ((999 / 1000 * 0 + (1 - 999 / 1000) * (1 * 1)) / (1 - 999 / 1000)) with 1 by lra.
  rewrite R_ltb_false by lra. rewrite sqrt_1.
  cbn [rbind]. rewrite (R_eqb_false (1 + 1/100000000) 0) by lra.
  eexists _, _. split; [reflexivity|].
  split; [done|]. cbn [_m _v]. rewrite !lookup_insert_eq.
  split; [f_equal; lra|]. split; [f_equal; lra|].
  cbn. lra.
Qed.

Lemma positive_at_prefix v s s' :
  s `prefix_of` s' -> positive_at v s -> positive_at v s'.
Proof.
  intros Hpre [Hv Hpos]. split.
  - apply prefix_length in Hpre. lia.
  - by rewrite (get_data_prefix s s').
Qed.

Local Ltac grows := repeat apply prefix_app_r; reflexivity.

(** One turn of the first loop of [stable_softmax]: [(v - max_val).exp()]. *)
Lemma exp_shift_returns v mx s :
  exists e s',
    bind (__sub__ v (OValue mx)) exp s = Return e s' /\
    s `prefix_of` s' /\ positive_at e s'.
Proof.
  unfold __sub__, bind, _ensure_value, ret.
  rewrite neg_eq, add_eq, exp_eq. simpl m_exp. cbv iota beta.
  eexists _, _. split; [reflexivity|]. split; [grows|].
  split.
  - rewrite !length_app. simpl. lia.
  - rewrite get_data_last. simpl. apply exp_pos.
Qed.

Lemma tensor_sum_loop_positive (vs : list nat) acc s :
  (acc < length s)%nat ->
  Forall (fun v => positive_at v s) vs ->
  exists d s',
    tensor_sum_loop (map ret vs) acc s = Return d s' /\
    s `prefix_of` s' /\ (d < length s')%nat /\
    get_data s acc <= get_data s' d /\
    (vs <> [] -> get_data s acc < get_data s' d).
Proof.
  revert acc s. induction vs as [|v vs IH]; intros acc s Hacc Hall; simpl.
  - exists acc, s. split; [done|]. split; [done|]. split; [done|]. split; [lra|done].
  - apply Forall_cons in Hall as [[Hv Hpos] Hall].
    unfold bind at 1 2, ret at 1. rewrite add_eq.
    set (s1 := s ++ [_]).
    assert (Hpre : s `prefix_of` s1) by (unfold s1; grows).
    destruct (IH (length s) s1) as (d & s2 & Hrun & Hpre2 & Hd & Hle & _).
    { unfold s1. rewrite length_app. simpl. lia. }
    { eapply Forall_impl; [exact Hall|]. intros u. by apply positive_at_prefix. }
    exists d, s2. rewrite Hrun.
    assert (Hnew : get_data s1 (length s) = get_data s acc + get_data s v).
    { unfold s1. by rewrite get_data_last. }
    split; [done|]. split; [by etrans|]. split; [done|].
    split; [lra|intros _; lra].
Qed.

Lemma tensor_sum_positive (vs : list nat) s :
  vs <> [] ->
  Forall (fun v => positive_at v s) vs ->
  exists d s',
    tensor_sum vs s = Return d s' /\ s `prefix_of` s' /\ positive_at d s'.
Proof.
  intros Hne Hall. unfold tensor_sum, tensor_sum_gen, bind at 1.
  rewrite Value_of_float. set (s1 := s ++ [_]).
  destruct (tensor_sum_loop_positive vs (length s) s1)
    as (d & s2 & Hrun & Hpre & Hd & _ & Hlt).
  { unfold s1. rewrite length_app. simpl. lia. }
  { eapply Forall_impl; [exact Hall|]. intros u. apply positive_at_prefix.
    unfold s1. grows. }
  exists d, s2. rewrite Hrun. split; [done|]. split.
  - etrans; [|exact Hpre]. unfold s1. grows.
  - split; [done|]. specialize (Hlt Hne).
    unfold s1 in Hlt. rewrite get_data_last in Hlt. simpl in Hlt. lra.
Qed.

Lemma truediv_returns e dn s :
  positive_at dn s ->
  exists p s', __truediv__ e (OValue dn) s = Return p s' /\ s `prefix_of` s'.
Proof.
  intros [Hdn Hpos]. unfold __truediv__, bind, _ensure_value, ret.
  rewrite pow_eq. unfold pow_num, to_float. simpl.
  rewrite R_pow_inv by done.
  rewrite mul_eq. eexists _, _. split; [reflexivity|grows].
Qed.

(** In exact arithmetic [stable_softmax] returns on every non-empty
    input: no exponential overflows and the denominator is positive. *)
Lemma softmax_returns_real (logits : list nat) s :
  logits <> [] ->
  exists probs s',
    stable_softmax logits s = Return probs s' /\ length probs = length logits.
Proof.
  intros Hne. destruct logits as [|v0 rest]; [done|].
  unfold stable_softmax. unfold bind at 1.
  set (mx := softmax_max s v0 rest).
  destruct (mapM_returns (fun _ => True) positive_at
              (fun v => bind (__sub__ v (OValue mx)) exp) (v0 :: rest))
    with (s := s) as (exps & s1 & Hexps & Hpre1 & Hlen1 & Hall1); try done.
  { intros. by eapply positive_at_prefix. }
  { intros a s0 _ _. apply exp_shift_returns. }
  unfold bind at 1. rewrite Hexps.
  destruct (tensor_sum_positive exps s1) as (dn & s2 & Hsum & Hpre2 & Hdn); [|done|].
  { intros ->. done. }
  unfold bind at 1. rewrite Hsum.
  destruct (mapM_returns (positive_at dn) (fun _ _ => True)
              (fun e => __truediv__ e (OValue dn)) exps)
    with (s := s2) as (probs & s3 & Hprobs & _ & Hlen3 & _); try done.
  { intros. by eapply positive_at_prefix. }
  { intros e s0 _ Hs0. destruct (truediv_returns e dn s0 Hs0) as (p & s' & ? & ?).
    by exists p, s'. }
  exists probs, s3. split; [done|]. by rewrite Hlen3.
Qed.

End Real.

(** ** The remaining claims, witnesses and counterexamples *)

(** C8: [Adam.step] advances the one step counter by exactly one per call,
    whatever the parameters (its loop never touches the counter); on a
    single parameter a first step under the default hyperparameters
    stores [m = b1*0 + (1-b1)*g] and [v = b2*0 + (1-b2)*g*g] and moves the
    value by [-lr*(m/(1-b1^1))/(sqrt(v/(1-b2^1))+eps)], in binary64 with
    any C library; in exact arithmetic, from value 1 and gradient 1, the
    new value is [1 - (1/1000)/(1 + 1/100000000)]. *)
Theorem C8_adam_step :
  (forall (F : Type) (PF : PyFloat F) (o : Adam F) (s : store F),
     _t (Adam_step o s).1 = (_t o + 1)%Z /\
     forall ps, _t (Adam_loop ps o s).1 = _t o) /\
  (forall (L : libm) (p : nat) (s : store binary64),
     let o := Adam_default [p] in
     let m := first_moment_spec (beta1 o) f0 (get_grad s p) in
     let v := second_moment_spec (beta2 o) f0 (get_grad s p) in
     Adam_step o s
     = (mkAdam [p] (lr o) (beta1 o) (beta2 o) (eps o) f0
               (<[p := m]> (_m o)) (<[p := v]> (_v o)) 1,
        match adam_step_spec (lr o) (beta1 o) (beta2 o) (eps o) 1 m v with
        | Ok delta => Return tt (set_data p (fadd (get_data s p) delta) s)
        | Err e => Raise e s
        end)) /\
  (exists (o' : Adam R) (s' : store R),
     Adam_step (Adam_default [0]) one_param = (o', Return tt s') /\
     _t o' = 1%Z /\
     _m o' !! 0 = Some (1/10)%R /\
     _v o' !! 0 = Some (1/1000)%R /\
     get_data s' 0 = (1 - (1/1000) / (1 + 1/100000000))%R).
Proof.
  split; [|split].
  - intros F PF o s. split; [apply Adam_step_t|]. intros ps. apply Adam_loop_t.
  - intros L p s. by apply Adam_step_single.
  - apply Adam_first_step_real.
Qed.

(** C5 (the claim as stated fails): with no logits and one target,
    [CrossEntropyLoss] returns a loss. *)
Lemma C5_counterexample :
  ~ (forall (logits : list nat) (targets : list (pynum R)) (s : store R),
       length logits <> length targets ->
       exists e s', CrossEntropyLoss logits targets s = Raise e s').
Proof.
  intros Hclaim.
  destruct (Hclaim [] [PyFl 1%R] []) as (e & s' & Hrun); [discriminate|].
  discriminate Hrun.
Qed.

Lemma C5_witness :
  length (A := nat) [] <> length [PyFl 1%R] /\
  MSELoss [] [PyFl 1%R] [] = Raise AssertionError [] /\
  CrossEntropyLoss [] [PyFl 1%R] []
  = bind (stable_softmax []) (fun probs =>
    bind (ce_losses (zip (take (length [PyFl 1%R]) probs)
                         (take (length (A := nat) []) [PyFl 1%R]))) (fun losses =>
    tensor_mean losses)) [].
Proof.
  assert (Hlen : length (A := nat) [] <> length [PyFl 1%R]) by discriminate.
  split; [exact Hlen|].
  exact (C5_length_mismatch [] [PyFl 1%R] [] Hlen).
Defined.

Lemma C3_witness :
  let s := final_store (xy_plus_y (F := R) []) in
  let first := backward (set_order (fun _ => 0)) 3 s in
  let second := backward (set_order (fun _ => 0)) 3 (final_store first) in
  wf_store s /\
  second = first /\
  forall v, get_grad (final_store second) v = get_grad (final_store first) v.
Proof.
  intros s.
  assert (Hwf : wf_store s) by (apply wf_storeb_sound; reflexivity).
  split; [exact Hwf|].
  exact (C3_backward_twice (fun _ => 0) s 3 Hwf).
Defined.

Lemma C4_witness :
  let s0 : store R := [node 2%R [] op_leaf bw_none; node 3%R [] op_leaf bw_none] in
  0 < length s0 /\ 1 < length s0 /\
  exists out s1,
    __mul__ 0 (OValue 1) s0 = Return out s1 /\
    get_backward s1 out = bw_mul 0 1 out /\
    forall s, length s = length s1 ->
      let g := get_grad s out in
      exists s',
        call_backward (bw_mul 0 1 out) s = Return tt s' /\
        (0 <> 1 ->
         get_grad s' 0 = fadd (get_grad s 0) (fmul (get_data s 1) g) /\
         get_grad s' 1 = fadd (get_grad s 1) (fmul (get_data s 0) g)) /\
        (0 = 1 ->
         get_grad s' 0
         = fadd (fadd (get_grad s 0) (fmul (get_data s 0) g)) (fmul (get_data s 0) g)).
Proof.
  intros s0.
  assert (H0 : 0 < length s0) by (simpl; lia).
  assert (H1 : 1 < length s0) by (simpl; lia).
  split; [exact H0|]. split; [exact H1|].
  exact (C4_mul_rule_reads_current_values s0 0 1 H0 H1).
Defined.

Lemma C9_witness :
  let random : R -> R -> M R R := fun a _ => ret a in
  let init := init_callable (fun n => repeatM n (Parameter_new 0%R)) in
  let layer := mkLinear 3 2 [[0; 1; 2]; [3; 4; 5]] (Some [6; 7]) in
  let s1 := final_store (Linear__init__ random 3 2 true init []) in
  Linear__init__ random 3 2 true init [] = Return layer s1 /\
  Linear__call__ layer [0; 1] s1 = Raise ValueError s1 /\
  exists out s', Linear__call__ layer [0; 1; 2] s1 = Return out s' /\ length out = 2.
Proof.
  intros random init layer s1.
  assert (Hinit : Linear__init__ random 3 2 true init [] = Return layer s1)
    by reflexivity.
  split; [exact Hinit|]. split.
  - apply (proj1 (C9_linear_input_length random 3 2 true init [] layer s1
                    [0; 1] s1 Hinit)).
    simpl. lia.
  - apply (proj2 (C9_linear_input_length random 3 2 true init [] layer s1
                    [0; 1; 2] s1 Hinit)).
    reflexivity.
Defined.

Lemma backward_lone_leaf_witness :
  0 < length (one_param (F := R)) /\
  get_prev (one_param (F := R)) 0 = [] /\
  get_backward (one_param (F := R)) 0 = bw_none /\
  exists s', backward (set_order (fun _ => 0)) 0 one_param = Return tt s' /\
             get_grad s' 0 = 1%R.
Proof.
  assert (Hv : 0 < length (one_param (F := R))) by (simpl; lia).
  split; [exact Hv|]. split; [reflexivity|]. split; [reflexivity|].
  exact (backward_lone_leaf (fun _ => 0) one_param 0 Hv eq_refl eq_refl).
Defined.

Lemma wf_store_ops_witness :
  wf_store (one_param (F := R)) /\
  0 < length (one_param (F := R)) /\
  wf_store (final_store (__mul__ 0 (OValue 0) (one_param (F := R)))).
Proof.
  assert (Hwf : wf_store (one_param (F := R)))
    by (apply wf_storeb_sound; reflexivity).
  assert (H0 : 0 < length (one_param (F := R))) by (simpl; lia).
  split; [exact Hwf|]. split; [exact H0|].
  exact (proj1 (proj2 (proj2 (wf_store_ops one_param 0 0 (PyInt 2) Hwf H0 H0)))).
Defined.

(** * Further properties of the three modules *)

(** ** The graph and the backward pass *)

Section GraphFacts.
Context {F : Type} {PF : PyFloat F}.
Variable set_iter : list nat -> list nat.
Implicit Types (s : store F) (v u : nat) (W : list nat) (st : dfs).

Lemma get_data_zero_grads W s u : get_data (zero_grads W s) u = get_data s u.
Proof.
  unfold get_data. rewrite lookup_zero_grads.
  destruct (s !! u); [|done]. by destruct (bool_decide _).
Qed.

Lemma get_grad_zero_grads_out W s u :
  u ∉ W -> get_grad (zero_grads W s) u = get_grad s u.
Proof.
  intros Hu. unfold get_grad. rewrite lookup_zero_grads.
  rewrite bool_decide_eq_false_2 by done. by destruct (s !! u).
Qed.

Lemma get_grad_zero_grads_in W s u :
  u ∈ W -> u < length s -> get_grad (zero_grads W s) u = f0.
Proof.
  intros Hu Hlt. unfold get_grad. rewrite lookup_zero_grads.
  rewrite bool_decide_eq_true_2 by done.
  by destruct (lookup_lt_is_Some_2 s u Hlt) as [n ->].
Qed.

(** Two stores that agree once the gradients of [W] are reset agree on
    all but those gradients. *)
Lemma zero_grads_eq_shape W s s' :
  zero_grads W s' = zero_grads W s ->
  length s' = length s /\
  (forall v, get_data s' v = get_data s v /\
             get_prev s' v = get_prev s v /\
             get_backward s' v = get_backward s v) /\
  (forall v, v ∉ W -> get_grad s' v = get_grad s v).
Proof.
  intros Heq. split; [|split].
  - by rewrite <- (length_zero_grads W s'), Heq, length_zero_grads.
  - intros v. split; [|split].
    + by rewrite <- (get_data_zero_grads W s'), Heq, get_data_zero_grads.
    + by rewrite <- (get_prev_zero_grads W s'), Heq, get_prev_zero_grads.
    + by rewrite <- (get_backward_zero_grads W s'), Heq, get_backward_zero_grads.
  - intros v Hv.
    by rewrite <- (get_grad_zero_grads_out W s'), Heq, get_grad_zero_grads_out.
Qed.

(** Every node a closure of the store writes to. *)
Lemma all_targets_spec s v u :
  u ∈ closure_targets (get_backward s v) ->
  u ∈ mjoin ((fun n => closure_targets (_backward n)) <$> s).
Proof.
  unfold get_backward. destruct (s !! v) as [n|] eqn:En.
  - intros Hu. apply list_elem_of_join. exists (closure_targets (_backward n)).
    split; [done|]. apply list_elem_of_fmap. exists n. split; [done|].
    by eapply list_elem_of_lookup_2.
  - intros Hu. by apply elem_of_nil in Hu.
Qed.

(** The store [backward] ends with differs from the one it started from
    in gradients of [W] only, whenever [W] holds the nodes of the
    traversal and the nodes their closures write to. *)
Lemma backward_frame W s root :
  (forall T, topo_order set_iter s root = Some T ->
     forall v, v ∈ T ->
       v ∈ W /\ forall u, u ∈ closure_targets (get_backward s v) -> u ∈ W) ->
  zero_grads W (final_store (backward set_iter root s)) = zero_grads W s.
Proof.
  intros HT. unfold backward.
  destruct (topo_order set_iter s root) as [T|] eqn:E; [|done].
  specialize (HT T eq_refl).
  set (sz := set_grad root f1 (zero_grads T s)).
  assert (Hroot : root ∈ T) by (by destruct (topo_order_closed set_iter s root T E)).
  assert (Hsz : zero_grads W sz = zero_grads W s).
  { unfold sz. rewrite zero_grads_set_grad by (by apply HT).
    apply list_eq. intros u. rewrite !lookup_zero_grads.
    destruct (s !! u) as [n|]; [simpl|done].
    destruct (bool_decide (u ∈ T)) eqn:ET; [|done].
    apply bool_decide_eq_true_1 in ET.
    by rewrite bool_decide_eq_true_2 by (by apply HT). }
  rewrite run_backwards_frame; [done|].
  intros v u Hv Hu. rewrite (get_backward_frame W s sz) in Hu by done.
  rewrite elem_of_reverse in Hv. by apply (HT v Hv).
Qed.

(** *** The traversal *)

Lemma for_each_inv {A : Type} (P : A -> Prop) (body : nat -> A -> option A) l a a' :
  (forall x b b', x ∈ l -> P b -> body x b = Some b' -> P b') ->
  P a -> for_each body l a = Some a' -> P a'.
Proof.
  revert a. induction l as [|x l IH]; intros a Hbody Ha; simpl.
  - by intros [= <-].
  - destruct (body x a) as [a1|] eqn:E; [|done].
    apply IH.
    + intros y b b' Hy. apply Hbody. by apply list_elem_of_further.
    + eapply Hbody; [apply list_elem_of_here|done..].
Qed.

Lemma reachable_trans s root v u :
  reachable s root v -> reachable s v u -> reachable s root u.
Proof.
  intros Hv Hu. induction Hu as [|w c Hw IH Hc]; [done|].
  by eapply reachable_parent.
Qed.

(** On a well-formed store a node reaches older nodes only. *)
Lemma reachable_le s root u :
  wf_store s -> reachable s root u -> u <= root.
Proof.
  intros Hwf Hu. induction Hu as [|v c Hv IH Hc]; [done|].
  unfold get_prev in Hc. destruct (s !! v) as [n|] eqn:En.
  - apply (Hwf v n En) in Hc. lia.
  - by apply elem_of_nil in Hc.
Qed.

(** What [build] appends is reachable from the node it started at. *)
Lemma build_reachable s depth v st st' :
  (forall l c, c ∈ set_iter l -> c ∈ l) ->
  build set_iter depth s v st = Some st' ->
  forall u, u ∈ topo st' -> u ∈ topo st \/ reachable s v u.
Proof.
  intros Hiter. revert v st st'.
  induction depth as [|d IH]; intros v st st'; simpl; [done|].
  destruct (bool_decide (v ∈ visited st)).
  - intros [= <-] u Hu. by left.
  - destruct (for_each _ _ _) as [st1|] eqn:Hloop; [|done].
    intros [= <-] u. simpl. rewrite elem_of_app, list_elem_of_singleton.
    intros [Hu| ->]; [|right; constructor].
    revert u Hu.
    refine (for_each_inv
              (fun a => forall u, u ∈ topo a -> u ∈ topo st \/ reachable s v u)
              _ _ _ _ _ _ Hloop); [|by left].
    intros c a a' Hc Ha Hrun u Hu.
    destruct (IH c a a' Hrun u Hu) as [Hin|Hr]; [by apply Ha|].
    right. eapply reachable_trans; [|done].
    eapply reachable_parent; [constructor|by apply Hiter].
Qed.

(** [build] appends a node at most once, and never one it had visited. *)
Lemma build_nodup s depth v st st' :
  build set_iter depth s v st = Some st' ->
  NoDup (topo st) -> (forall u, u ∈ topo st -> u ∈ visited st) ->
  NoDup (topo st') /\ (forall u, u ∈ topo st' -> u ∈ visited st') /\
  (forall u, u ∈ visited st -> u ∈ visited st') /\
  (forall u, u ∈ visited st -> u ∈ topo st' -> u ∈ topo st).
Proof.
  revert v st st'. induction depth as [|d IH]; intros v st st'; simpl; [done|].
  destruct (bool_decide (v ∈ visited st)) eqn:Ev.
  - by intros [= <-] Hnd Hsub.
  - apply bool_decide_eq_false_1 in Ev.
    destruct (for_each _ _ _) as [st1|] eqn:Hloop; [|done].
    intros [= <-] Hnd Hsub. simpl.
    assert (NoDup (topo st1) /\ (forall u, u ∈ topo st1 -> u ∈ visited st1) /\
            (forall u, u ∈ v :: visited st -> u ∈ visited st1) /\
            (forall u, u ∈ v :: visited st -> u ∈ topo st1 -> u ∈ topo st)) as Hinv;
      [refine (for_each_inv
          (fun a => NoDup (topo a) /\ (forall u, u ∈ topo a -> u ∈ visited a) /\
                    (forall u, u ∈ v :: visited st -> u ∈ visited a) /\
                    (forall u, u ∈ v :: visited st -> u ∈ topo a -> u ∈ topo st))
          _ _ _ _ _ _ Hloop)|].
    3:{ destruct Hinv as (Hnd1 & Hsub1 & Hvis1 & Hold1).
      assert (Hv1 : v ∉ topo st1).
      { intros Hin. apply Ev, Hsub, Hold1; [apply list_elem_of_here|done]. }
      split; [|split; [|split]].
      * apply NoDup_app. split; [done|]. split; [|apply NoDup_singleton].
        intros u Hu Hu'. apply list_elem_of_singleton in Hu' as ->. done.
      * intros u. rewrite elem_of_app, list_elem_of_singleton.
        intros [Hu| ->]; [by apply Hsub1|]. apply Hvis1, list_elem_of_here.
      * intros u Hu. by apply Hvis1, list_elem_of_further.
      * intros u Hu. rewrite elem_of_app, list_elem_of_singleton.
        intros [Hu'| ->]; [|done]. apply Hold1; [by apply list_elem_of_further|done]. }
    + intros c a a' Hc (Hnd1 & Hsub1 & Hvis1 & Hold1) Hrun.
      destruct (IH c a a' Hrun Hnd1 Hsub1) as (Hnd2 & Hsub2 & Hvis2 & Hold2).
      split; [done|]. split; [done|]. split.
      * intros u Hu. by apply Hvis2, Hvis1.
      * intros u Hu Hu'. apply Hold1; [done|]. apply Hold2; [by apply Hvis1|done].
    + simpl. split; [done|]. split.
      * intros u Hu. by apply list_elem_of_further, Hsub.
      * split; [done|done].
Qed.

Lemma for_each_inv2 {A : Type} (P : A -> Prop) (Q : nat -> A -> Prop)
    (body : nat -> A -> option A) l a a' :
  (forall x b b', x ∈ l -> P b -> body x b = Some b' -> P b' /\ Q x b') ->
  (forall x y b b', y ∈ l -> P b -> body y b = Some b' -> Q x b -> Q x b') ->
  P a -> for_each body l a = Some a' ->
  P a' /\ (forall x, x ∈ l -> Q x a') /\ (forall x, Q x a -> Q x a').
Proof.
  revert a. induction l as [|x l IH]; intros a Hbody Hmono Ha; simpl.
  - intros [= <-]. split; [done|]. split; [|done].
    intros x Hx. by apply elem_of_nil in Hx.
  - destruct (body x a) as [a1|] eqn:E; [|done]. intros Hrun.
    destruct (Hbody x a a1 (list_elem_of_here _ _) Ha E) as [Ha1 Hq].
    destruct (IH a1) as (Ha' & Hl & Hkeep); [| |done|done|].
    { intros y b b' Hy. apply Hbody. by apply list_elem_of_further. }
    { intros z y b b' Hy. apply Hmono. by apply list_elem_of_further. }
    split; [done|]. split.
    + intros y Hy. apply elem_of_cons in Hy as [->|Hy]; [by apply Hkeep|by apply Hl].
    + intros z Hz. apply Hkeep.
      exact (Hmono z x a a1 (list_elem_of_here _ _) Ha E Hz).
Qed.

Lemma build_topo_grows s depth v st st' u :
  build set_iter depth s v st = Some st' -> u ∈ topo st -> u ∈ topo st'.
Proof.
  intros Hrun Hu. apply build_extends in Hrun as [(new & -> & _) _].
  apply elem_of_app. by left.
Qed.

Lemma split_snoc {A : Type} (t l1 l2 : list A) (x v : A) :
  t ++ [v] = l1 ++ x :: l2 ->
  (l2 = [] /\ l1 = t /\ x = v) \/ (exists l2', l2 = l2' ++ [v] /\ t = l1 ++ x :: l2').
Proof.
  destruct l2 as [|y l2 _] using rev_ind.
  - intros Heq. left. apply app_inj_tail in Heq as [-> ->]. by repeat split.
  - intros Heq. right. exists l2.
    rewrite app_comm_cons, app_assoc in Heq.
    apply app_inj_tail in Heq as [-> ->]. by split.
Qed.

(** On a well-formed store [build] appends a node after all its parents. *)
Lemma build_sorted s depth v st st' :
  wf_store s ->
  (forall l c, c ∈ set_iter l <-> c ∈ l) ->
  (forall u, u ∈ visited st -> u ∉ topo st -> v < u) ->
  (forall l1 x l2, topo st = l1 ++ x :: l2 -> forall c, c ∈ get_prev s x -> c ∈ l1) ->
  build set_iter depth s v st = Some st' ->
  (forall l1 x l2, topo st' = l1 ++ x :: l2 -> forall c, c ∈ get_prev s x -> c ∈ l1) /\
  v ∈ topo st' /\
  (forall u, u ∈ visited st' -> u ∉ topo st' -> u ∈ visited st /\ u ∉ topo st).
Proof.
  intros Hwf Hiter. revert v st st'.
  induction depth as [|d IH]; intros v st st' HE HJ; simpl; [done|].
  destruct (bool_decide (v ∈ visited st)) eqn:Ev.
  - apply bool_decide_eq_true_1 in Ev. intros [= <-].
    split; [done|]. split; [|done].
    destruct (decide (v ∈ topo st)) as [|Hn]; [done|].
    specialize (HE v Ev Hn). lia.
  - apply bool_decide_eq_false_1 in Ev.
    destruct (for_each _ _ _) as [st1|] eqn:Hloop; [|done].
    intros [= <-]. simpl.
    pose (P := fun a : dfs =>
      (forall l1 x l2, topo a = l1 ++ x :: l2 -> forall c, c ∈ get_prev s x -> c ∈ l1) /\
      (forall u, u ∈ visited a -> u ∉ topo a ->
                 u = v \/ (u ∈ visited st /\ u ∉ topo st))).
    assert (Hbody : forall c a a', c ∈ set_iter (get_prev s v) -> P a ->
              build set_iter d s c a = Some a' -> P a' /\ c ∈ topo a').
    { intros c a a' Hc [HJa Hina] Hrun.
      assert (Hcv : c < v).
      { apply (proj1 (Hiter _ _)) in Hc. unfold get_prev in Hc.
        destruct (s !! v) as [n|] eqn:En; [|by apply elem_of_nil in Hc].
        by apply (Hwf v n En). }
      destruct (IH c a a') as (HJ' & Hc' & Hin'); [|done|done|].
      { intros u Hu Hnu. destruct (Hina u Hu Hnu) as [->|[Hu1 Hu2]]; [done|].
        specialize (HE u Hu1 Hu2). lia. }
      split; [|done]. split; [done|].
      intros u Hu Hnu. destruct (Hin' u Hu Hnu) as [Hu1 Hu2]. by apply Hina. }
    assert (Hmono : forall x y a a', y ∈ set_iter (get_prev s v) -> P a ->
              build set_iter d s y a = Some a' -> x ∈ topo a -> x ∈ topo a').
    { intros x y a a' _ _ Hrun Hx. by eapply build_topo_grows. }
    assert (HP0 : P (mkDfs (v :: visited st) (topo st))).
    { split; simpl; [done|].
      intros u Hu Hnu. apply elem_of_cons in Hu as [->|Hu]; [by left|by right]. }
    destruct (for_each_inv2 P (fun c a => c ∈ topo a) _ _ _ _ Hbody Hmono HP0 Hloop)
      as ((HJ1 & Hin1) & Hkids & _).
    split; [|split].
    + intros l1 x l2 Heq c Hc.
      apply split_snoc in Heq as [(-> & -> & ->)|(l2' & -> & Heq)].
      * apply Hkids. by apply Hiter.
      * by eapply HJ1.
    + apply elem_of_app. right. apply list_elem_of_here.
    + intros u Hu Hnu. rewrite elem_of_app, list_elem_of_singleton in Hnu.
      destruct (Hin1 u Hu) as [->|?]; [tauto|tauto|done].
Qed.

End GraphFacts.

Section GraphTheorems.
Context {F : Type} {PF : PyFloat F}.
Implicit Types (s : store F) (v u : nat).

Lemma set_order_in choice (l : list nat) c : c ∈ set_order choice l <-> c ∈ l.
Proof. by rewrite set_order_perm. Qed.

Lemma topo_order_elem (choice : list nat -> nat) s root T u :
  topo_order (set_order choice) s root = Some T ->
  u ∈ T <-> reachable s root u.
Proof.
  intros HT. pose proof (topo_order_closed _ s root T HT) as [Hroot Hclosed].
  unfold topo_order in HT.
  destruct (build _ _ _ _ _) as [st|] eqn:E; [|done]. injection HT as <-.
  split.
  - intros Hu.
    destruct (build_reachable _ s _ root _ st (fun l c => proj1 (set_order_in choice l c))
                E u Hu) as [Hn|]; [|done].
    by apply elem_of_nil in Hn.
  - intros Hr. induction Hr as [|v c Hv IH Hc]; [done|].
    eapply Hclosed; [exact IH|]. by apply set_order_in.
Qed.

(** X4: The order [backward] works with lists exactly the nodes reachable from
    the root, each of them once. *)
Theorem topo_order_reachable (choice : list nat -> nat) s root T :
  topo_order (set_order choice) s root = Some T ->
  NoDup T /\ forall u, u ∈ T <-> reachable s root u.
Proof.
  intros HT. split; [|intros u; by apply (topo_order_elem choice)].
  unfold topo_order in HT.
  destruct (build _ _ _ _ _) as [st|] eqn:E; [|done]. injection HT as <-.
  by destruct (build_nodup _ s _ root _ st E (NoDup_nil_2) (fun u Hu => Hu)).
Qed.

(** X5: On a graph the operations built, the order lists every node after all
    of its parents, so that the reversed order runs the rule of a node
    after the rules of all its consumers. *)
Theorem topo_order_parents_first (choice : list nat -> nat) s root T l1 v l2 c :
  wf_store s ->
  topo_order (set_order choice) s root = Some T ->
  T = l1 ++ v :: l2 -> c ∈ get_prev s v -> c ∈ l1.
Proof.
  intros Hwf HT. unfold topo_order in HT.
  destruct (build _ _ _ _ _) as [st|] eqn:E; [|done]. injection HT as <-.
  assert (HE0 : forall u, u ∈ @nil nat -> u ∉ @nil nat -> root < u).
  { intros u Hu. by apply elem_of_nil in Hu. }
  assert (HJ0 : forall k1 x k2, @nil nat = k1 ++ x :: k2 ->
                  forall c, c ∈ get_prev s x -> c ∈ k1).
  { intros k1 x k2 Heq. by destruct k1. }
  destruct (build_sorted _ s _ root (mkDfs [] []) st Hwf (set_order_in choice)
              HE0 HJ0 E) as (HJ & _ & _).
  intros Heq. by eapply HJ.
Qed.

(** X6: [backward] writes gradients and nothing else: on any store and
    however it ends, no node is added and every node keeps its number,
    its parents and its rule. *)
Theorem backward_keeps_structure (choice : list nat -> nat) s root :
  let s' := final_store (backward (set_order choice) root s) in
  length s' = length s /\
  forall v, get_data s' v = get_data s v /\
            get_prev s' v = get_prev s v /\
            get_backward s' v = get_backward s v.
Proof.
  intros s'.
  destruct (zero_grads_eq_shape
              (default [] (topo_order (set_order choice) s root)
               ++ mjoin ((fun n => closure_targets (_backward n)) <$> s)) s s')
    as (Hlen & Hshape & _); [|done].
  apply backward_frame. intros T HT v Hv. rewrite HT. simpl. split.
  - apply elem_of_app. by left.
  - intros u Hu. apply elem_of_app. right. by eapply all_targets_spec.
Qed.

(** X7: On a graph the operations built, [backward] leaves alone the
    gradient of every node that the root does not reach. *)
Theorem backward_unreachable_grad (choice : list nat -> nat) s root v :
  wf_store s -> ~ reachable s root v ->
  get_grad (final_store (backward (set_order choice) root s)) v = get_grad s v.
Proof.
  intros Hwf Hv.
  destruct (topo_order (set_order choice) s root) as [T|] eqn:HT.
  - pose proof (fun u => topo_order_elem choice s root T u HT) as Hreach.
    destruct (zero_grads_eq_shape T s
                (final_store (backward (set_order choice) root s)))
      as (_ & _ & Hgrad).
    + apply backward_frame. intros T' HT' u Hu.
      assert (T' = T) as -> by congruence.
      split; [done|]. intros c Hc. apply Hreach.
      eapply reachable_parent; [by apply Hreach|].
      unfold get_backward, get_prev in *.
      destruct (s !! u) as [n|] eqn:En; [|by apply elem_of_nil in Hc].
      by apply (Hwf u n En).
    + apply Hgrad. intros Hin. by apply Hv, Hreach.
  - unfold backward. by rewrite HT.
Qed.

(** When the traversal is not cut short, the root keeps the gradient 1.0
    it is given before the rules run: no rule writes to the root. *)
Lemma backward_seed_kept (choice : list nat -> nat) s root :
  wf_store s -> root < length s ->
  get_grad (final_store (backward (set_order choice) root s)) root = f1.
Proof.
  intros Hwf Hroot. unfold backward.
  destruct (topo_order_total (set_order choice) s root Hwf) as [T HT].
  { intros l c. apply set_order_in. }
  rewrite HT.
  pose proof (fun u => topo_order_elem choice s root T u HT) as Hreach.
  set (sz := set_grad root f1 (zero_grads T s)).
  destruct (zero_grads_eq_shape (seq 0 root) sz
              (final_store (run_backwards (reverse T) sz))) as (_ & _ & Hgrad).
  - apply run_backwards_frame. intros v u Hv Hu.
    rewrite elem_of_reverse in Hv. apply Hreach in Hv.
    apply reachable_le in Hv; [|done].
    unfold sz in Hu. rewrite get_backward_set_grad, get_backward_zero_grads in Hu.
    apply elem_of_seq. split; [lia|]. simpl.
    unfold get_backward in Hu.
    destruct (s !! v) as [n|] eqn:En; [|by apply elem_of_nil in Hu].
    destruct (Hwf v n En) as [Hlt Htg]. apply Htg, Hlt in Hu. lia.
  - rewrite Hgrad by (rewrite elem_of_seq; lia).
    unfold sz. apply get_grad_set_grad_eq. by rewrite length_zero_grads.
Qed.


End GraphTheorems.

(** ** The recursion limit *)

Section LimitFacts.
Context {F : Type} {PF : PyFloat F}.
Implicit Types (s : store F) (v u : nat).

Lemma for_each_mono {A : Type} (f g : nat -> A -> option A) l a a' :
  (forall x b b', x ∈ l -> f x b = Some b' -> g x b = Some b') ->
  for_each f l a = Some a' -> for_each g l a = Some a'.
Proof.
  revert a. induction l as [|x l IH]; intros a Hfg; simpl; [done|].
  destruct (f x a) as [b|] eqn:E; [|done].
  rewrite (Hfg x a b (list_elem_of_here _ _) E).
  apply IH. intros y c c' Hy. apply Hfg. by apply list_elem_of_further.
Qed.

(** A traversal that completes within some depth completes the same way
    within any greater depth. *)
Lemma build_depth_mono set_iter d d' s v (st st' : dfs) :
  d <= d' -> build set_iter d s v st = Some st' ->
  build set_iter d' s v st = Some st'.
Proof.
  revert d' v st st'. induction d as [|d IH]; intros d' v st st' Hd; simpl; [done|].
  destruct d' as [|d']; [lia|]. simpl.
  destruct (bool_decide _); [done|].
  destruct (for_each (build set_iter d s) _ _) as [st1|] eqn:E; [|done].
  intros [= <-].
  rewrite (for_each_mono (build set_iter d s) (build set_iter d' s) _ _ st1); [done| |done].
  intros x b b' _. apply IH. lia.
Qed.

Lemma build_shallow set_iter d s v (st : dfs) :
  (forall l c, c ∈ set_iter l -> c ∈ l) ->
  shallow d s v -> is_Some (build set_iter d s v st).
Proof.
  intros Hiter. revert v st. induction d as [|d IH]; intros v st Hd; simpl; [done|].
  destruct (bool_decide _); [done|].
  match goal with |- context [for_each ?f ?l ?a] =>
    destruct (for_each_total f l a) as [st' ->]; [|done] end.
  intros c a Hc. apply IH. apply Hd. by apply Hiter.
Qed.

(** Under a bound on the recursion, a traversal that completes gives the
    pass of [backward]. *)
Lemma backward_within_complete (choice : list nat -> nat) limit s root :
  wf_store s ->
  is_Some (build (set_order choice) limit s root (mkDfs [] [])) ->
  backward_within (set_order choice) limit root s
  = backward (set_order choice) root s.
Proof.
  intros Hwf [st E]. unfold backward_within, backward, topo_order_within, topo_order.
  destruct (build_total (set_order choice) s (S (length s)) root (mkDfs [] []) Hwf)
    as [st' E']; [intros l c; apply set_order_in|lia|].
  assert (st' = st) as ->.
  { destruct (decide (limit <= S (length s))) as [Hle|Hgt].
    - apply (build_depth_mono _ _ (S (length s))) in E; [|done]. congruence.
    - apply (build_depth_mono _ _ limit) in E'; [|lia]. congruence. }
  by rewrite E, E'.
Qed.

Lemma backward_within_cases (choice : list nat -> nat) limit s root :
  wf_store s ->
  backward_within (set_order choice) limit root s = Raise RecursionError s \/
  backward_within (set_order choice) limit root s
  = backward (set_order choice) root s.
Proof.
  intros Hwf.
  destruct (build (set_order choice) limit s root (mkDfs [] [])) as [st|] eqn:E.
  - right. apply backward_within_complete; [done|]. by rewrite E.
  - left. unfold backward_within, topo_order_within. by rewrite E.
Qed.

(** A chain of negations: every node past the first has the node before
    it as its one parent. *)
Lemma neg_times_chain n x s :
  wf_store s -> S x = length s ->
  exists s', neg_times n x s = Return (x + n) s' /\
    wf_store s' /\ length s' = length s + n /\
    (forall i, i < length s -> get_prev s' i = get_prev s i) /\
    (forall i, length s <= i -> i < length s' -> get_prev s' i = [pred i]).
Proof.
  revert x s. induction n as [|n IH]; intros x s Hwf Hx; simpl.
  - exists s. unfold ret. rewrite Nat.add_0_r.
    split_and!; try done; intros; lia.
  - unfold bind. rewrite neg_eq.
    set (s1 := s ++ [_]).
    assert (Hwf1 : wf_store s1).
    { apply wf_store_alloc; [done| |].
      - intros u Hu. apply list_elem_of_singleton in Hu. lia.
      - intros u Hu. simpl in Hu. done. }
    assert (Hlen : length s1 = S (length s)).
    { unfold s1. rewrite length_app. simpl. lia. }
    destruct (IH (length s) s1 Hwf1) as (s' & E & Hwf' & Hlen' & Hold & Hch); [lia|].
    exists s'. split_and!; try done.
    + rewrite E. f_equal. lia.
    + lia.
    + intros i Hi. rewrite Hold by lia. unfold get_prev, s1.
      by rewrite lookup_app_l.
    + intros i Hlo Hi. destruct (decide (i = length s)) as [->|Hne].
      * rewrite Hold by lia. unfold get_prev, s1.
        rewrite lookup_app_r, Nat.sub_diag by lia. simpl.
        unfold pyset. simpl. f_equal. lia.
      * apply Hch; lia.
Qed.

Lemma build_chain_exhausted (choice : list nat -> nat) d s v (st : dfs) :
  d <= v ->
  (forall k, k < d -> get_prev s (v - k) = [pred (v - k)]) ->
  (forall k, k < d -> v - k ∉ visited st) ->
  build (set_order choice) d s v st = None.
Proof.
  revert v st. induction d as [|d IH]; intros v st Hd Hch Hvis; simpl; [done|].
  rewrite bool_decide_false.
  2:{ specialize (Hvis 0). rewrite Nat.sub_0_r in Hvis. apply Hvis. lia. }
  specialize (Hch 0) as Hc0. rewrite Nat.sub_0_r in Hc0. rewrite Hc0 by lia.
  rewrite (perm_single _ _ (set_order_perm choice [pred v])). simpl.
  rewrite IH; [done|lia| |].
  - intros k Hk. replace (pred v - k) with (v - S k) by lia. apply Hch. lia.
  - intros k Hk. simpl. rewrite not_elem_of_cons. split; [lia|].
    replace (pred v - k) with (v - S k) by lia. apply Hvis. lia.
Qed.

(** X2: Under a bound [limit] on the nesting of [build], [backward] on a
    graph the operations built either leaves with RecursionError and the
    store untouched, or is the pass [backward] describes; it is that pass
    whenever every chain of parents from the root has fewer than [limit]
    nodes after the root, and whenever the root is one of the first
    [limit] objects allocated. *)
Theorem backward_within_limit (choice : list nat -> nat) limit s root :
  wf_store s ->
  (backward_within (set_order choice) limit root s = Raise RecursionError s \/
   backward_within (set_order choice) limit root s
   = backward (set_order choice) root s) /\
  (shallow limit s root \/ root < limit ->
   backward_within (set_order choice) limit root s
   = backward (set_order choice) root s).
Proof.
  intros Hwf. split; [by apply backward_within_cases|].
  intros Hd. apply backward_within_complete; [done|].
  destruct Hd as [Hd|Hd].
  - apply build_shallow; [|done]. intros l c. apply set_order_in.
  - apply build_total; [done| |by left]. intros l c. apply set_order_in.
Qed.

(** X30: A leaf followed by [n] negations, one on another: [backward] from the
    last one raises RecursionError, leaving the store as it was, exactly
    when the bound on the nesting of [build] is at most [n]; above that it
    is the pass [backward] describes. *)
Theorem neg_chain_recursion (choice : list nat -> nat) (limit n : nat) :
  exists s,
    neg_chain n [] = Return n s /\ wf_store s /\ length s = S n /\
    (limit <= n ->
     backward_within (set_order choice) limit n s = Raise RecursionError s) /\
    (n < limit ->
     backward_within (set_order choice) limit n s
     = backward (set_order choice) n s).
Proof.
  unfold neg_chain, bind, Value_of, lift, to_float, Value_init. simpl app.
  set (s0 := [mkValue f1 f0 (pyset []) op_leaf bw_none EmptyString]).
  assert (Hwf0 : wf_store s0).
  { apply (wf_store_alloc [] f1 [] op_leaf bw_none).
    - intros v n' Hv. by rewrite lookup_nil in Hv.
    - intros u Hu. by apply elem_of_nil in Hu.
    - intros u Hu. by apply elem_of_nil in Hu. }
  destruct (neg_times_chain n 0 s0 Hwf0 eq_refl) as (s & E & Hwf & Hlen & _ & Hch).
  exists s. simpl in E, Hlen. split_and!; try done.
  - intros Hle. unfold backward_within, topo_order_within.
    rewrite build_chain_exhausted; [done|done| |].
    + intros k Hk. apply Hch; simpl; lia.
    + intros k Hk. apply not_elem_of_nil.
  - intros Hlt. apply backward_within_complete; [done|].
    apply build_total; [done| |by left]. intros l c. apply set_order_in.
Qed.

(** X8: On a graph the operations built, unless the recursion of [build]
    is cut short (RecursionError, nothing written), [backward] leaves the
    root with the gradient 1.0, also when a rule raises on the way: no
    rule writes to the root. *)
Theorem backward_root_grad (choice : list nat -> nat) limit s root :
  wf_store s -> root < length s ->
  backward_within (set_order choice) limit root s = Raise RecursionError s \/
  get_grad (final_store (backward_within (set_order choice) limit root s)) root = f1.
Proof.
  intros Hwf Hroot.
  destruct (backward_within_cases choice limit s root Hwf) as [H|H]; [by left|].
  right. rewrite H. by apply backward_seed_kept.
Qed.

End LimitFacts.

(** ** Edge cases of the operations in binary64 *)

Section Binary64Ops.
Context {L : libm}.
Implicit Types (s : store binary64).

(** X13: Division by a [Value] that holds a zero of either sign raises
    ZeroDivisionError before any node is built; division by the number
    0.0 raises it after the number has been wrapped in a [Value]. *)
Theorem truediv_by_zero s x y :
  b64_eqb (get_data s y) b64_zero = true ->
  __truediv__ x (OValue y) s = Raise ZeroDivisionError s /\
  __truediv__ x (ONum (PyFl b64_zero)) s
  = Raise ZeroDivisionError (s ++ [node b64_zero [] op_leaf bw_none]).
Proof.
  intros Hy. unfold __truediv__, bind, _ensure_value, ret. split.
  - rewrite pow_eq. unfold pow_num. simpl to_float.
    destruct (get_data s y) as [[]|[]| |[] m e]; try done.
  - rewrite Value_of_float, pow_eq, get_data_last. done.
Qed.

(** X14: [relu] never raises and never returns a NaN or a negative number: a
    NaN input gives 0.0, as every number that is not above zero does. *)
Theorem relu_never_nan s x :
  exists y s1,
    relu x s = Return y s1 /\
    is_nan (get_data s1 y) = false /\
    b64_ltb (get_data s1 y) b64_zero = false /\
    (b64_ltb b64_zero (get_data s x) = false -> get_data s1 y = b64_zero).
Proof.
  rewrite relu_eq. cbv zeta. eexists _, _. split; [reflexivity|].
  rewrite get_data_last. simpl.
  destruct (get_data s x) as [[]|[]| |[] m e]; done.
Qed.

(** X15: [sigmoid] is built on [exp(-x)], so where the C library's [exp]
    overflows on [-x] the call raises OverflowError instead of returning
    a number near 0; the negation node it had built stays in the store. *)
Theorem sigmoid_overflow s x :
  is_finite (get_data s x) = true ->
  is_inf (c_exp (SFopp (get_data s x))) = true ->
  sigmoid x s
  = Raise OverflowError
      (s ++ [node (SFopp (get_data s x)) [x] op_neg (bw_neg x (length s))]).
Proof.
  intros Hfin Hinf. unfold sigmoid, bind at 1. rewrite neg_eq.
  unfold bind at 1. rewrite exp_eq, get_data_last.
  cbn [data node fneg binary64_float m_exp]. unfold math_1.
  destruct (c_exp (SFopp (get_data s x))); try done.
  by destruct (get_data s x).
Qed.

End Binary64Ops.

(** ** Loops over lists of Values *)

Section LoopFacts.
Context {F : Type} {PF : PyFloat F}.
Implicit Types (s : store F) (v u : nat).

(** A loop whose body only appends to the store relates every item to
    what it made of it, in the store the loop ends with. *)
Lemma mapM_rel {A B : Type} (I : store F -> Prop) (R : A -> B -> store F -> Prop)
    (body : A -> M F B) (l : list A) :
  (forall s s', s `prefix_of` s' -> I s -> I s') ->
  (forall a c s s', s `prefix_of` s' -> R a c s -> R a c s') ->
  (forall a s, a ∈ l -> I s ->
     exists c s', body a s = Return c s' /\ s `prefix_of` s' /\ R a c s') ->
  forall s, I s ->
  exists bs s',
    mapM body l s = Return bs s' /\ s `prefix_of` s' /\
    Forall2 (fun a c => R a c s') l bs.
Proof.
  intros HI HR. induction l as [|a l IH]; intros Hbody s Hs; simpl.
  - by exists [], s.
  - destruct (Hbody a s (list_elem_of_here a l) Hs) as (c & s1 & Hc & Hpre & Rc).
    destruct (IH (fun a' s' Ha' => Hbody a' s' (list_elem_of_further _ a _ Ha'))
                s1 (HI _ _ Hpre Hs))
      as (bs & s2 & Hbs & Hpre' & Hall).
    exists (c :: bs), s2. unfold bind, ret. rewrite Hc, Hbs.
    split; [done|]. split; [by etrans|].
    constructor; [by eapply HR|done].
Qed.

Lemma sub_eq self other s :
  self < length s ->
  __sub__ self (OValue other) s
  = Return (S (length s))
      (s ++ [node (fneg (get_data s other)) [other] op_neg (bw_neg other (length s));
             node (fadd (get_data s self) (fneg (get_data s other)))
                  [self; length s] op_add (bw_add self (length s) (S (length s)))]).
Proof.
  intros Hself. unfold __sub__, bind, _ensure_value, ret.
  rewrite neg_eq. cbv iota beta. rewrite add_eq.
  rewrite get_data_last, get_data_app_l by done.
  rewrite length_app. cbn [length data node].
  replace (length s + 1) with (S (length s)) by lia.
  by rewrite <- app_assoc.
Qed.

Lemma prefix_snoc s (n : Value F) : s `prefix_of` s ++ [n].
Proof. by apply prefix_app_r. Qed.

Lemma tensor_sum_loop_fold (vs : list nat) acc s0 s :
  s `prefix_of` s0 -> acc < length s0 ->
  Forall (fun v => v < length s) vs ->
  exists d s',
    tensor_sum_loop (map ret vs) acc s0 = Return d s' /\
    s0 `prefix_of` s' /\ d < length s' /\
    length s' = length s0 + length vs /\
    get_data s' d = foldl fadd (get_data s0 acc) (get_data s <$> vs).
Proof.
  intros Hpre. revert acc s0 Hpre.
  induction vs as [|v vs IH]; intros acc s0 Hpre Hacc Hall; simpl.
  - exists acc, s0. split; [done|]. split; [done|]. split; [done|]. split; [lia|done].
  - apply Forall_cons in Hall as [Hv Hall].
    unfold bind at 1 2, ret at 1. rewrite add_eq.
    set (s1 := s0 ++ [_]).
    destruct (IH (length s0) s1) as (d & s2 & Hrun & Hpre2 & Hd & Hlen & Hdata).
    { etrans; [exact Hpre|]. apply prefix_snoc. }
    { unfold s1. rewrite length_app. simpl. lia. }
    { done. }
    exists d, s2. rewrite Hrun. split; [done|]. split.
    { etrans; [|exact Hpre2]. apply prefix_snoc. }
    split; [done|]. split.
    { rewrite Hlen. unfold s1. rewrite length_app. simpl. lia. }
    rewrite Hdata. unfold s1. rewrite get_data_last. simpl.
    by rewrite (get_data_prefix s s0 v).
Qed.

Lemma tensor_sum_spec (vs : list nat) s :
  Forall (fun v => v < length s) vs ->
  exists d s',
    tensor_sum vs s = Return d s' /\
    s `prefix_of` s' /\
    length s' = length s + S (length vs) /\
    d < length s' /\
    get_data s' d = foldl fadd f0 (get_data s <$> vs).
Proof.
  intros Hall. unfold tensor_sum, tensor_sum_gen, bind at 1.
  rewrite Value_of_float. set (s1 := s ++ [_]).
  destruct (tensor_sum_loop_fold vs (length s) s1 s)
    as (d & s2 & Hrun & Hpre & Hd & Hlen & Hdata); [apply prefix_snoc| |done|].
  { unfold s1. rewrite length_app. simpl. lia. }
  exists d, s2. split; [done|]. split.
  { etrans; [|exact Hpre]. apply prefix_snoc. }
  split.
  { rewrite Hlen. unfold s1. rewrite length_app. simpl. lia. }
  split; [done|].
  rewrite Hdata. unfold s1. by rewrite get_data_last.
Qed.

(** X16: [tensor_sum] never raises: it builds one leaf 0.0 and one addition
    per item, and the node it returns holds the sum taken from the left,
    starting from 0.0. *)
Theorem tensor_sum_fold (vs : list nat) s :
  Forall (fun v => v < length s) vs ->
  exists d s',
    tensor_sum vs s = Return d s' /\
    s `prefix_of` s' /\
    length s' = length s + S (length vs) /\
    get_data s' d = foldl fadd f0 (get_data s <$> vs).
Proof.
  intros Hall.
  destruct (tensor_sum_spec vs s Hall) as (d & s' & H1 & H2 & H3 & _ & H4).
  by exists d, s'.
Qed.

(** X17: [to_values] builds one leaf per float, in order: the nodes it returns
    are the next free identities and hold the numbers given. *)
Theorem to_values_round_trip (xs : list F) s :
  exists vs s',
    to_values (PyFl <$> xs) s = Return vs s' /\
    vs = seq (length s) (length xs) /\
    s' = s ++ ((fun x => node x [] op_leaf bw_none) <$> xs) /\
    get_data s' <$> vs = xs.
Proof.
  unfold to_values. revert s. induction xs as [|x xs IH]; intros s.
  - exists [], s. by rewrite app_nil_r.
  - rewrite !fmap_cons. cbn [mapM length seq].
    unfold bind at 1. rewrite Value_of_float.
    destruct (IH (s ++ [node x [] op_leaf bw_none])) as (vs & s' & Hrun & Hvs & Hs' & Hd).
    unfold bind at 1. rewrite Hrun. unfold ret.
    eexists _, _. split; [reflexivity|].
    rewrite length_app in Hvs. simpl in Hvs.
    replace (length s + 1) with (S (length s)) in Hvs by lia.
    split; [by rewrite Hvs|]. split; [by rewrite Hs', <- app_assoc|].
    rewrite fmap_cons. f_equal; [|done].
    rewrite Hs'. rewrite get_data_app_l by (rewrite length_app; simpl; lia).
    by rewrite get_data_last.
Qed.

Lemma ce_losses_none (pairs : list (nat * pynum F)) s :
  Forall (fun pt => is_one (snd pt) = false) pairs ->
  ce_losses pairs s = Return [] s.
Proof.
  induction pairs as [|[p t] pairs IH]; intros Hall; simpl; [done|].
  apply Forall_cons in Hall as [Ht Hall]. simpl in Ht. rewrite Ht. by apply IH.
Qed.

(** X18: When no target equals 1.0, [CrossEntropyLoss] still runs the softmax
    and then returns a fresh leaf 0.0 that no logit is a parent of. *)
Theorem CrossEntropyLoss_no_hot_target (logits : list nat) (targets : list (pynum F))
    s probs s1 :
  Forall (fun t => is_one t = false) targets ->
  stable_softmax logits s = Return probs s1 ->
  CrossEntropyLoss logits targets s
  = Return (length s1) (s1 ++ [node f0 [] op_leaf bw_none]).
Proof.
  intros Hall Hsoft. unfold CrossEntropyLoss, bind at 1. rewrite Hsoft.
  unfold bind at 1. rewrite ce_losses_none.
  - done.
  - clear -Hall. revert probs. induction targets as [|t ts IH]; intros probs.
    + destruct probs; constructor.
    + apply Forall_cons in Hall as [Ht Hall].
      destruct probs as [|p probs]; simpl; [constructor|].
      constructor; [done|by apply IH].
Qed.

End LoopFacts.

(** ** The optimizers *)

Section OptimFacts.
Context {F : Type} {PF : PyFloat F}.
Implicit Types (s : store F) (v u p : nat).

Lemma lookup_set_data s v d u :
  set_data v d s !! u = (if decide (v = u) then with_data d else fun n => n) <$> s !! u.
Proof.
  unfold set_data. rewrite list_lookup_alter.
  destruct (decide (v = u)) as [->|]; [done|]. by destruct (s !! u).
Qed.

Lemma length_set_data s v d : length (set_data v d s) = length s.
Proof. apply length_alter. Qed.

Lemma get_grad_set_data s v d u : get_grad (set_data v d s) u = get_grad s u.
Proof.
  unfold get_grad. rewrite lookup_set_data.
  destruct (s !! u); [|done]. by destruct (decide (v = u)).
Qed.

Lemma get_prev_set_data s v d u : get_prev (set_data v d s) u = get_prev s u.
Proof.
  unfold get_prev. rewrite lookup_set_data.
  destruct (s !! u); [|done]. by destruct (decide (v = u)).
Qed.

Lemma get_backward_set_data s v d u :
  get_backward (set_data v d s) u = get_backward s u.
Proof.
  unfold get_backward. rewrite lookup_set_data.
  destruct (s !! u); [|done]. by destruct (decide (v = u)).
Qed.

Lemma get_data_set_data_eq s v d : v < length s -> get_data (set_data v d s) v = d.
Proof.
  intros Hv. unfold get_data. rewrite lookup_set_data.
  destruct (lookup_lt_is_Some_2 s v Hv) as [n ->]. by rewrite decide_True.
Qed.

Lemma get_data_set_data_ne s v d u :
  v <> u -> get_data (set_data v d s) u = get_data s u.
Proof.
  intros Hne. unfold get_data. rewrite lookup_set_data.
  rewrite decide_False by done. by destruct (s !! u).
Qed.

(** X19: [zero_grad], of a module or of an optimizer, sets the gradient of
    every parameter to 0.0 and changes nothing else: not the gradient of
    any other node, and no number, parent set or rule. *)
Theorem zero_grad_spec (ps : list nat) s :
  exists s',
    Optimizer_zero_grad ps s = Return tt s' /\
    Module_zero_grad ps s = Return tt s' /\
    length s' = length s /\
    forall v,
      get_data s' v = get_data s v /\
      get_prev s' v = get_prev s v /\
      get_backward s' v = get_backward s v /\
      (v ∈ ps -> get_grad s' v = f0) /\
      (v ∉ ps -> get_grad s' v = get_grad s v).
Proof.
  exists (zero_grads ps s). split; [done|]. split; [done|].
  split; [apply length_zero_grads|]. intros v.
  split; [apply get_data_zero_grads|]. split; [apply get_prev_zero_grads|].
  split; [apply get_backward_zero_grads|]. split.
  - intros Hv. unfold get_grad. rewrite lookup_zero_grads.
    rewrite bool_decide_eq_true_2 by done. by destruct (s !! v).
  - apply get_grad_zero_grads_out.
Qed.

(** *** SGD *)

(** The loop of [SGD.step] over distinct parameters, from any state. *)
Lemma SGD_loop_spec (ps : list nat) (o : SGD F) s :
  NoDup ps ->
  let o' := (SGD_loop ps o s).1 in
  let s' := (SGD_loop ps o s).2 in
  (sgd_params o' = sgd_params o /\ sgd_lr o' = sgd_lr o /\
   momentum o' = momentum o /\ sgd_weight_decay o' = sgd_weight_decay o) /\
  length s' = length s /\
  (forall v, get_grad s' v = get_grad s v) /\
  (forall v, v ∉ ps -> get_data s' v = get_data s v /\ _vel o' !! v = _vel o !! v) /\
  (forall p, p ∈ ps -> p < length s ->
     let g := if negb (feqb (sgd_weight_decay o) f0)
              then fadd (get_grad s p) (fmul (sgd_weight_decay o) (get_data s p))
              else get_grad s p in
     if negb (feqb (momentum o) f0) then
       let v_new := fsub (fmul (momentum o) (default f0 (_vel o !! p)))
                         (fmul (sgd_lr o) g) in
       _vel o' !! p = Some v_new /\ get_data s' p = fadd (get_data s p) v_new
     else
       _vel o' !! p = _vel o !! p /\
       get_data s' p = fadd (get_data s p) (fmul (fneg (sgd_lr o)) g)).
Proof.
  revert o s. induction ps as [|q ps IH]; intros o s Hnd; cbn [SGD_loop].
  - simpl. split; [done|]. split; [done|]. split; [done|]. split; [done|].
    intros p Hp. by apply elem_of_nil in Hp.
  - apply NoDup_cons in Hnd as [Hq Hnd].
    set (g := if negb (feqb (sgd_weight_decay o) f0)
              then fadd (get_grad s q) (fmul (sgd_weight_decay o) (get_data s q))
              else get_grad s q).
    destruct (negb (feqb (momentum o) f0)) eqn:Emom.
    + set (v_new := fsub (fmul (momentum o) (default f0 (_vel o !! q)))
                         (fmul (sgd_lr o) g)).
      set (o1 := with_vel (<[q := v_new]> (_vel o)) o).
      set (s1 := set_data q (fadd (get_data s q) v_new) s).
      specialize (IH o1 s1 Hnd). cbv zeta in IH.
      destruct IH as ((H1 & H2 & H3 & H4) & Hlen & Hgrad & Hout & Hin).
      split; [by rewrite H1, H2, H3, H4|].
      split; [by rewrite Hlen; apply length_set_data|].
      split; [intros v; by rewrite Hgrad; apply get_grad_set_data|].
      split.
      * intros v Hv. rewrite not_elem_of_cons in Hv. destruct Hv as [Hvq Hv].
        destruct (Hout v Hv) as [Hd Hvel]. rewrite Hd, Hvel. split.
        -- by apply get_data_set_data_ne.
        -- simpl. by rewrite lookup_insert_ne.
      * intros p Hp Hlt. apply elem_of_cons in Hp as [->|Hp].
        -- destruct (Hout q Hq) as [Hd Hvel]. rewrite Hd, Hvel.
           split; [simpl; by rewrite lookup_insert_eq|].
           by apply get_data_set_data_eq.
        -- assert (q <> p) by (intros ->; done).
           specialize (Hin p Hp). unfold o1, s1 in Hin.
           rewrite length_set_data in Hin.
           specialize (Hin Hlt). cbv zeta in Hin. simpl in Hin.
           rewrite get_grad_set_data, get_data_set_data_ne in Hin by done.
           rewrite Emom in Hin. by rewrite lookup_insert_ne in Hin.
    + set (s1 := set_data q (fadd (get_data s q) (fmul (fneg (sgd_lr o)) g)) s).
      specialize (IH o s1 Hnd). cbv zeta in IH.
      destruct IH as (Hfields & Hlen & Hgrad & Hout & Hin).
      split; [done|].
      split; [by rewrite Hlen; apply length_set_data|].
      split; [intros v; by rewrite Hgrad; apply get_grad_set_data|].
      split.
      * intros v Hv. rewrite not_elem_of_cons in Hv. destruct Hv as [Hvq Hv].
        destruct (Hout v Hv) as [Hd Hvel]. rewrite Hd, Hvel. split; [|done].
        by apply get_data_set_data_ne.
      * intros p Hp Hlt. apply elem_of_cons in Hp as [->|Hp].
        -- destruct (Hout q Hq) as [Hd Hvel]. rewrite Hd, Hvel.
           split; [done|]. by apply get_data_set_data_eq.
        -- assert (q <> p) by (intros ->; done).
           specialize (Hin p Hp). unfold s1 in Hin.
           rewrite length_set_data in Hin.
           specialize (Hin Hlt). cbv zeta in Hin.
           rewrite get_grad_set_data, get_data_set_data_ne in Hin by done.
           by rewrite Emom in Hin.
Qed.

(** X20: One call of [SGD.step] over distinct parameters: every parameter
    moves once, by [-lr * g] without momentum and by the new velocity
    [momentum * v - lr * g] with it, where [g] is the gradient plus the
    weight decay times the number and a velocity that is missing counts
    as 0.0; gradients, other nodes and other velocities stay as they are. *)
Theorem SGD_step_update (o : SGD F) s :
  NoDup (sgd_params o) ->
  let o' := (SGD_step o s).1 in
  let s' := (SGD_step o s).2 in
  (sgd_params o' = sgd_params o /\ sgd_lr o' = sgd_lr o /\
   momentum o' = momentum o /\ sgd_weight_decay o' = sgd_weight_decay o) /\
  length s' = length s /\
  (forall v, get_grad s' v = get_grad s v) /\
  (forall v, v ∉ sgd_params o ->
     get_data s' v = get_data s v /\ _vel o' !! v = _vel o !! v) /\
  (forall p, p ∈ sgd_params o -> p < length s ->
     let g := if negb (feqb (sgd_weight_decay o) f0)
              then fadd (get_grad s p) (fmul (sgd_weight_decay o) (get_data s p))
              else get_grad s p in
     if negb (feqb (momentum o) f0) then
       let v_new := fsub (fmul (momentum o) (default f0 (_vel o !! p)))
                         (fmul (sgd_lr o) g) in
       _vel o' !! p = Some v_new /\ get_data s' p = fadd (get_data s p) v_new
     else
       _vel o' !! p = _vel o !! p /\
       get_data s' p = fadd (get_data s p) (fmul (fneg (sgd_lr o)) g)).
Proof. intros Hnd. by apply SGD_loop_spec. Qed.

(** *** Adam *)

Lemma Adam_loop_spec (ps : list nat) (o o' : Adam F) s s' :
  NoDup ps ->
  Adam_loop ps o s = (o', Return tt s') ->
  (params o' = params o /\ lr o' = lr o /\ beta1 o' = beta1 o /\
   beta2 o' = beta2 o /\ eps o' = eps o /\ weight_decay o' = weight_decay o /\
   _t o' = _t o) /\
  length s' = length s /\
  (forall v, get_grad s' v = get_grad s v) /\
  (forall v, v ∉ ps ->
     get_data s' v = get_data s v /\
     _m o' !! v = _m o !! v /\ _v o' !! v = _v o !! v) /\
  (forall p, p ∈ ps -> p < length s ->
     let g := if negb (feqb (weight_decay o) f0)
              then fadd (get_grad s p) (fmul (weight_decay o) (get_data s p))
              else get_grad s p in
     let m := first_moment_spec (beta1 o) (default f0 (_m o !! p)) g in
     let v := second_moment_spec (beta2 o) (default f0 (_v o !! p)) g in
     _m o' !! p = Some m /\ _v o' !! p = Some v /\
     exists delta,
       adam_step_spec (lr o) (beta1 o) (beta2 o) (eps o) (_t o) m v = Ok delta /\
       get_data s' p = fadd (get_data s p) delta).
Proof.
  revert o s. induction ps as [|q ps IH]; intros o s Hnd; cbn [Adam_loop].
  - intros [= <- <-]. split; [done|]. split; [done|]. split; [done|]. split; [done|].
    intros p Hp. by apply elem_of_nil in Hp.
  - apply NoDup_cons in Hnd as [Hq Hnd].
    set (g := if negb (feqb (weight_decay o) f0)
              then fadd (get_grad s q) (fmul (weight_decay o) (get_data s q))
              else get_grad s q).
    set (m := fadd (fmul (beta1 o) (default f0 (_m o !! q))) (fmul (fsub f1 (beta1 o)) g)).
    set (v := fadd (fmul (beta2 o) (default f0 (_v o !! q)))
                   (fmul (fsub f1 (beta2 o)) (fmul g g))).
    set (o1 := with_moments (<[q := m]> (_m o)) (<[q := v]> (_v o)) o).
    change (adam_delta o1 m v)
      with (adam_step_spec (lr o) (beta1 o) (beta2 o) (eps o) (_t o) m v).
    destruct (adam_step_spec _ _ _ _ _ m v) as [delta|e] eqn:Edelta; [|done].
    intros Hrun. apply IH in Hrun; [|done].
    destruct Hrun as ((H1 & H2 & H3 & H4 & H5 & H6 & H7) & Hlen & Hgrad & Hout & Hin).
    split; [by rewrite H1, H2, H3, H4, H5, H6, H7|].
    split; [by rewrite Hlen; apply length_set_data|].
    split; [intros u; by rewrite Hgrad; apply get_grad_set_data|].
    split.
    + intros u Hu. rewrite not_elem_of_cons in Hu. destruct Hu as [Huq Hu].
      destruct (Hout u Hu) as (Hd & Hm & Hv). rewrite Hd, Hm, Hv.
      split; [by apply get_data_set_data_ne|].
      simpl. by rewrite !lookup_insert_ne.
    + intros p Hp Hlt. apply elem_of_cons in Hp as [->|Hp].
      * destruct (Hout q Hq) as (Hd & Hm & Hv). rewrite Hd, Hm, Hv.
        simpl. rewrite !lookup_insert_eq.
        split; [done|]. split; [done|].
        exists delta. split; [done|]. by apply get_data_set_data_eq.
      * assert (q <> p) by (intros ->; done).
        specialize (Hin p Hp). rewrite length_set_data in Hin.
        specialize (Hin Hlt). cbv zeta in Hin. unfold o1 in Hin. simpl in Hin.
        rewrite get_grad_set_data, get_data_set_data_ne in Hin by done.
        by rewrite !lookup_insert_ne in Hin.
Qed.

(** X21: One call of [Adam.step] that returns, over distinct parameters: the
    counter goes up by one and every parameter gets the update of the
    specification at the new count, from the moments stored for it or
    from 0.0 where none is stored; gradients and other nodes stay as they
    are. *)
Theorem Adam_step_update (o o' : Adam F) s s' :
  NoDup (params o) ->
  Adam_step o s = (o', Return tt s') ->
  _t o' = (_t o + 1)%Z /\
  length s' = length s /\
  (forall v, get_grad s' v = get_grad s v) /\
  (forall v, v ∉ params o -> get_data s' v = get_data s v) /\
  (forall p, p ∈ params o -> p < length s ->
     let g := if negb (feqb (weight_decay o) f0)
              then fadd (get_grad s p) (fmul (weight_decay o) (get_data s p))
              else get_grad s p in
     let m := first_moment_spec (beta1 o) (default f0 (_m o !! p)) g in
     let v := second_moment_spec (beta2 o) (default f0 (_v o !! p)) g in
     _m o' !! p = Some m /\ _v o' !! p = Some v /\
     exists delta,
       adam_step_spec (lr o) (beta1 o) (beta2 o) (eps o) (_t o + 1) m v = Ok delta /\
       get_data s' p = fadd (get_data s p) delta).
Proof.
  intros Hnd Hrun. unfold Adam_step in Hrun.
  apply Adam_loop_spec in Hrun; [|done].
  destruct Hrun as ((_ & _ & _ & _ & _ & _ & Ht) & Hlen & Hgrad & Hout & Hin).
  split; [done|]. split; [done|]. split; [done|].
  split; [intros v Hv; by apply Hout|]. done.
Qed.

End OptimFacts.

Section SGDBinary64.
Context {L : libm}.
Implicit Types (s : store binary64).

Lemma set_data_same s p : set_data p (get_data s p) s = s.
Proof.
  apply list_eq. intros u. rewrite lookup_set_data. unfold get_data.
  destruct (decide (p = u)) as [->|]; [|by destruct (s !! u)].
  by destruct (s !! u) as [[]|].
Qed.

Lemma b64_add_neg_zero (x : binary64) : SFadd prec emax x (S754_zero true) = x.
Proof. by destruct x as [[]|[]| |[] m e]. Qed.

Lemma b64_neg_lr_times_zero (lr : binary64) :
  is_finite lr = true -> b64_ltb b64_zero lr = true ->
  SFmul prec emax (SFopp lr) (S754_zero false) = S754_zero true.
Proof. by destruct lr as [[]|[]| |[] m e]. Qed.

Lemma SGD_loop_zero_grad (ps : list nat) (o : SGD binary64) s :
  is_finite (sgd_lr o) = true -> b64_ltb b64_zero (sgd_lr o) = true ->
  momentum o = b64_zero -> sgd_weight_decay o = b64_zero ->
  Forall (fun p => get_grad s p = b64_zero) ps ->
  SGD_loop ps o s = (o, s).
Proof.
  intros Hfin Hpos Hmom Hwd. induction ps as [|p ps IH]; intros Hall; cbn [SGD_loop].
  - done.
  - apply Forall_cons in Hall as [Hp Hall].
    rewrite Hmom, Hwd. simpl. rewrite Hp.
    rewrite b64_neg_lr_times_zero, b64_add_neg_zero, set_data_same by done.
    by apply IH.
Qed.

(** X22: With the gradients of its parameters at 0.0, as [zero_grad] leaves
    them, a step of plain SGD (no momentum, no weight decay, a positive
    finite learning rate) changes nothing at all: every number keeps its
    value and its sign. *)
Theorem SGD_zero_grad_noop (ps : list nat) (lr : binary64) s :
  is_finite lr = true -> b64_ltb b64_zero lr = true ->
  let o := SGD__init__ ps lr b64_zero b64_zero in
  forall s1, Optimizer_zero_grad ps s = Return tt s1 ->
  SGD_step o s1 = (o, s1).
Proof.
  intros Hfin Hpos o s1 [= <-]. unfold SGD_step.
  apply SGD_loop_zero_grad; try done.
  apply Forall_forall. intros p Hp. unfold get_grad. rewrite lookup_zero_grads.
  rewrite bool_decide_eq_true_2 by done. by destruct (s !! p).
Qed.

End SGDBinary64.

(** ** Layers *)

Section LayerFacts.
Context {F : Type} {PF : PyFloat F}.
Variable random_uniform : F -> F -> M F F.
Hypothesis random_pure : forall a b s, exists r, random_uniform a b s = Return r s.
Implicit Types (s : store F) (v u : nat).

Lemma repeatM_leaves (P : Value F -> Prop) (body : M F nat) n :
  (forall s v s', body s = Return v s' ->
     v = length s /\ exists nd, s' = s ++ [nd] /\ fresh_leaf nd /\ P nd) ->
  allocates P n (repeatM n body).
Proof.
  intros Hbody. induction n as [|n IH]; intros s l s'; simpl.
  - intros [= <- <-]. split; [done|]. exists []. by rewrite app_nil_r.
  - unfold bind at 1. destruct (body s) as [v s1|] eqn:Ev; [|done].
    apply Hbody in Ev as (-> & nd & -> & Hnd).
    unfold bind at 1. destruct (repeatM n body _) as [l1 s2|] eqn:El; [|done].
    apply IH in El as (-> & new & -> & Hlen & Hall).
    unfold ret. intros [= <- <-]. rewrite length_app. simpl.
    replace (length s + 1) with (S (length s)) by lia.
    split; [done|]. exists (nd :: new). rewrite <- app_assoc. simpl.
    split; [done|]. split; [by rewrite Hlen|]. by constructor.
Qed.

Lemma allocates_weaken (P Q : Value F -> Prop) k m :
  (forall n, P n -> Q n) -> allocates P k m -> allocates Q k m.
Proof.
  intros HPQ Hm s l s' Hrun. destruct (Hm s l s' Hrun) as (-> & new & -> & Hlen & Hall).
  split; [done|]. exists new. split; [done|]. split; [done|].
  eapply Forall_impl; [exact Hall|]. intros n [? ?]. auto.
Qed.

Lemma random_parameter_leaf a b s v s' :
  bind (random_uniform a b) Parameter_new s = Return v s' ->
  v = length s /\ exists nd, s' = s ++ [nd] /\ fresh_leaf nd /\ True.
Proof using random_pure.
  unfold bind. destruct (random_pure a b s) as [r ->].
  unfold Parameter_new. rewrite Value_of_float. intros [= <- <-].
  split; [done|]. by eexists.
Qed.

Lemma xavier_allocates n_in n_out :
  allocates (fun _ => True) n_in (xavier_uniform random_uniform n_in n_out).
Proof using random_pure.
  intros s l s'. unfold xavier_uniform, bind at 1, lift.
  destruct (rbind _ _) as [bound|]; [|done].
  apply repeatM_leaves. intros s0 v s0'. apply random_parameter_leaf.
Qed.

Lemma kaiming_allocates n_in :
  allocates (fun _ => True) n_in (kaiming_uniform random_uniform n_in).
Proof using random_pure.
  intros s l s'. unfold kaiming_uniform, bind at 1, lift.
  destruct (rbind _ _) as [bound|]; [|done].
  apply repeatM_leaves. intros s0 v s0'. apply random_parameter_leaf.
Qed.

Lemma zero_bias_allocates n :
  allocates (fun nd => data nd = f0) n (repeatM n (Parameter_new f0)).
Proof.
  apply repeatM_leaves. intros s v s'. unfold Parameter_new.
  rewrite Value_of_float. intros [= <- <-]. split; [done|]. by eexists.
Qed.

(** Rows allocated one after the other, each of [k] nodes, are the next
    [n * k] identities when put end to end. *)
Lemma repeatM_rows (P : Value F -> Prop) (row : M F (list nat)) k n s rows s' :
  allocates P k row ->
  repeatM n row s = Return rows s' ->
  length rows = n /\ Forall (fun r => length r = k) rows /\
  concat rows = seq (length s) (n * k) /\
  exists new, s' = s ++ new /\ length new = n * k /\
              Forall (fun nd => fresh_leaf nd /\ P nd) new.
Proof.
  intros Hrow. revert s rows s'. induction n as [|n IH]; intros s rows s'; simpl.
  - intros [= <- <-]. split; [done|]. split; [done|]. split; [done|].
    exists []. by rewrite app_nil_r.
  - unfold bind at 1. destruct (row s) as [r s1|] eqn:Er; [|done].
    apply Hrow in Er as (-> & new1 & -> & Hlen1 & Hall1).
    unfold bind at 1. destruct (repeatM n row _) as [rs s2|] eqn:Ers; [|done].
    apply IH in Ers as (Hn & Hk & Hcat & new2 & -> & Hlen2 & Hall2).
    unfold ret. intros [= <- <-]. simpl.
    split; [by rewrite Hn|]. split; [constructor; [by rewrite length_seq|done]|].
    split.
    + rewrite Hcat, length_app, Hlen1. by rewrite <- seq_app.
    + exists (new1 ++ new2). rewrite <- app_assoc. split; [done|].
      split; [rewrite length_app; lia|]. by apply Forall_app.
Qed.

Lemma lookup_new (Q : Value F -> Prop) s new p :
  Forall Q new -> length s <= p < length s + length new ->
  exists nd, (s ++ new) !! p = Some nd /\ Q nd.
Proof.
  intros Hall Hp. rewrite lookup_app_r by lia.
  destruct (lookup_lt_is_Some_2 new (p - length s)) as [nd Hnd]; [lia|].
  exists nd. split; [done|]. by eapply Forall_lookup_1.
Qed.

Lemma Linear_init_alloc inf outf bias init s0 layer s1 :
  init = init_xavier \/ init = init_callable (kaiming_uniform random_uniform) ->
  Linear__init__ random_uniform inf outf bias init s0 = Return layer s1 ->
  let n := outf * inf + (if bias then outf else 0) in
  Linear_parameters layer = seq (length s0) n /\
  length s1 = length s0 + n /\
  s0 `prefix_of` s1 /\
  Forall (fun row => length row = inf) (W layer) /\
  (forall p, p ∈ Linear_parameters layer ->
     get_grad s1 p = f0 /\ get_prev s1 p = [] /\ get_backward s1 p = bw_none) /\
  (forall bs bi, b layer = Some bs -> bi ∈ bs -> get_data s1 bi = f0).
Proof using random_pure.
  intros Hinit. unfold Linear__init__, bind at 1.
  destruct (repeatM outf _ s0) as [rows sW|] eqn:Erows; [|done].
  apply (repeatM_rows (fun _ => True) _ inf) in Erows
    as (Hn & Hk & Hcat & newW & -> & HlenW & HallW).
  2:{ destruct Hinit as [-> | ->]; [apply xavier_allocates|apply kaiming_allocates]. }
  unfold bind at 1. destruct bias.
  - unfold bind at 1.
    destruct (repeatM outf _ _) as [bs sB|] eqn:Ebs; [|done].
    apply zero_bias_allocates in Ebs as (-> & newB & -> & HlenB & HallB).
    unfold ret. intros [= <- <-]. cbv zeta. unfold Linear_parameters. simpl.
    rewrite length_app, HlenW in *.
    split; [by rewrite Hcat, <- seq_app|].
    split; [rewrite !length_app; lia|].
    split; [rewrite <- app_assoc; by apply prefix_app_r|].
    split; [done|]. split.
    + intros p Hp. rewrite Hcat, <- seq_app, elem_of_seq in Hp.
      destruct (lookup_new fresh_leaf s0 (newW ++ newB) p) as (nd & Hnd & Hg & Hp' & Hb).
      { apply Forall_app. split; (eapply Forall_impl; [eassumption|]); by intros ? []. }
      { rewrite length_app. lia. }
      unfold get_grad, get_prev, get_backward. by rewrite <- app_assoc, Hnd.
    + intros bs bi [= <-] Hbi. rewrite elem_of_seq in Hbi.
      destruct (lookup_new (fun nd => data nd = f0) (s0 ++ newW) newB bi)
        as (nd & Hnd & Hd).
      { eapply Forall_impl; [eassumption|]. by intros ? []. }
      { rewrite length_app. lia. }
      unfold get_data. by rewrite Hnd.
  - unfold ret. intros [= <- <-]. cbv zeta. unfold Linear_parameters. simpl.
    rewrite app_nil_r, !Nat.add_0_r.
    split; [done|]. split; [rewrite length_app; lia|].
    split; [by apply prefix_app_r|]. split; [done|]. split; [|done].
    intros p Hp. rewrite Hcat, elem_of_seq in Hp.
    destruct (lookup_new fresh_leaf s0 newW p) as (nd & Hnd & Hg & Hp' & Hb).
    { eapply Forall_impl; [eassumption|]. by intros ? []. }
    { lia. }
    unfold get_grad, get_prev, get_backward. by rewrite Hnd.
Qed.

(** X23: [Linear.__init__] with one of the two initialisers of the module:
    [parameters()] lists exactly the nodes the construction allocated, in
    the order of allocation, so they are distinct and none is shared with
    the graph that was there; each row holds [in_features] weights; every
    parameter is a leaf with gradient 0.0 and every bias is 0.0. *)
Theorem Linear_init_parameters inf outf bias init s0 layer s1 :
  init = init_xavier \/ init = init_callable (kaiming_uniform random_uniform) ->
  Linear__init__ random_uniform inf outf bias init s0 = Return layer s1 ->
  let n := outf * inf + (if bias then outf else 0) in
  Linear_parameters layer = seq (length s0) n /\
  length s1 = length s0 + n /\
  s0 `prefix_of` s1 /\
  Forall (fun row => length row = inf) (W layer) /\
  (forall p, p ∈ Linear_parameters layer ->
     get_grad s1 p = f0 /\ get_prev s1 p = [] /\ get_backward s1 p = bw_none) /\
  (forall bs bi, b layer = Some bs -> bi ∈ bs -> get_data s1 bi = f0).
Proof using random_pure. apply Linear_init_alloc. Qed.

(** *** MLP *)

Lemma mapM_partial {A B : Type} (R : A -> B -> Prop) (body : A -> M F B)
    (l : list A) s bs s' :
  (forall a s c s', a ∈ l -> body a s = Return c s' -> R a c) ->
  mapM body l s = Return bs s' -> Forall2 R l bs.
Proof.
  revert s bs s'. induction l as [|a l IH]; intros s bs s' Hbody; simpl.
  - intros [= <- _]. constructor.
  - unfold bind at 1. destruct (body a s) as [c s1|] eqn:Ec; [|done].
    unfold bind at 1. destruct (mapM body l s1) as [cs s2|] eqn:Ecs; [|done].
    unfold ret. intros [= <- _]. constructor.
    + eapply Hbody; [apply list_elem_of_here|done].
    + eapply IH; [|done]. intros a' s0 c' s0' Ha'. apply Hbody.
      by apply list_elem_of_further.
Qed.

Lemma Linear_init_bias inf outf init s layer s' :
  Linear__init__ random_uniform inf outf true init s = Return layer s' ->
  is_Some (b layer).
Proof.
  unfold Linear__init__, bind at 1.
  destruct (repeatM outf _ s) as [rows s1|]; [|done].
  unfold bind at 1 2. destruct (repeatM outf _ s1) as [bs s2|]; [|done].
  unfold ret. intros [= <- _]. simpl. by eexists.
Qed.

Lemma MLP_init_layers sizes act fact s mlp s' :
  MLP__init__ random_uniform sizes act fact s = Return mlp s' ->
  activation mlp = act /\ final_activation mlp = fact /\
  2 <= length sizes /\ MLP_shaped sizes (layers mlp).
Proof.
  unfold MLP__init__. destruct (2 <=? length sizes) eqn:Elen; [|done].
  apply Nat.leb_le in Elen. simpl. unfold bind at 1.
  destruct (mapM _ _ s) as [ls s1|] eqn:Els; [|done].
  unfold ret. intros [= <- <-]. simpl. split; [done|]. split; [done|].
  split; [done|].
  pose proof (mapM_length _ _ _ _ _ Els) as Hlen. rewrite length_seq in Hlen.
  apply (mapM_partial (fun i layer =>
           sizes !! i = Some (in_features layer) /\
           sizes !! S i = Some (out_features layer) /\
           Linear_shaped layer /\ is_Some (b layer))) in Els.
  - split; [done|]. intros i layer Hi.
    eapply Forall2_lookup_r in Els as (j & Hj & Hprop); [|exact Hi].
    apply lookup_seq in Hj as [-> _]. done.
  - intros i s0 layer s0' _.
    replace (i + 1) with (S i) by lia.
    destruct (sizes !! i) as [in_f|]; [|done].
    destruct (sizes !! S i) as [out_f|]; [|done].
    intros Hinit.
    pose proof (Linear_init_bias _ _ _ _ _ _ Hinit) as Hb.
    apply Linear_init_shaped in Hinit as (-> & -> & Hshape). done.
Qed.

Lemma Linear_call_length (layer : Linear) x s out s' :
  Linear__call__ layer x s = Return out s' ->
  length x = in_features layer /\ length out = out_features layer.
Proof.
  unfold Linear__call__. destruct (length x =? in_features layer) eqn:E; [|done].
  apply Nat.eqb_eq in E. simpl. intros Hrun.
  apply mapM_length in Hrun. by rewrite length_seq in Hrun.
Qed.

Lemma Linear_call_returns (layer : Linear) x s :
  Linear_shaped layer -> length x = in_features layer ->
  exists out s', Linear__call__ layer x s = Return out s'.
Proof.
  intros Hshape Hlen. unfold Linear__call__.
  apply Nat.eqb_eq in Hlen. rewrite Hlen. simpl.
  destruct (mapM_total (Linear_row layer x) (seq 0 (out_features layer)))
    with (s := s) as (out & s' & Hrun & _).
  - intros i s2 Hi. apply elem_of_seq in Hi.
    apply Linear_row_returns; [done|lia].
  - by exists out, s'.
Qed.

Lemma apply_activation_length act out s out' s' :
  apply_activation act out s = Return out' s' -> length out' = length out.
Proof.
  unfold apply_activation.
  repeat (destruct (String.eqb act _); [apply mapM_length|]).
  destruct (String.eqb act _); [|done]. by intros [= <- _].
Qed.

Lemma MLP_loop_length (self : MLP) idx ls x s out s' :
  ls <> [] ->
  MLP_loop self idx ls x s = Return out s' ->
  exists layer, last ls = Some layer /\ length out = out_features layer.
Proof.
  revert idx x s. induction ls as [|layer rest IH]; intros idx x s Hne; [done|].
  cbn [MLP_loop]. unfold bind at 1.
  destruct (Linear__call__ layer x s) as [o1 s1|] eqn:E1; [|done].
  apply Linear_call_length in E1 as [_ Hl1].
  unfold bind at 1.
  destruct (apply_activation _ o1 s1) as [o2 s2|] eqn:E2; [|done].
  apply apply_activation_length in E2.
  destruct rest as [|l2 rest].
  - simpl. intros [= <- _]. exists layer. split; [done|]. congruence.
  - intros Hrun. apply IH in Hrun as (l & Hlast & Hlen); [|done].
    exists l. split; [|done]. by rewrite last_cons_cons.
Qed.

Lemma apply_activation_returns act out s :
  act = "relu"%string \/ act = "linear"%string ->
  exists out' s', apply_activation act out s = Return out' s' /\
                  length out' = length out.
Proof.
  intros [-> | ->]; unfold apply_activation; simpl.
  - destruct (mapM_total relu out) with (s := s) as (out' & s' & Hrun & Hlen).
    + intros v s0 _. rewrite relu_eq. by eexists _, _.
    + by exists out', s'.
  - by exists out, s.
Qed.

Lemma MLP_loop_returns (sizes : list nat) (self : MLP) idx k ls x s :
  (forall i layer, ls !! i = Some layer ->
     sizes !! (k + i) = Some (in_features layer) /\
     sizes !! S (k + i) = Some (out_features layer) /\
     Linear_shaped layer) ->
  sizes !! k = Some (length x) ->
  (activation self = "relu"%string \/ activation self = "linear"%string) ->
  (final_activation self = "relu"%string \/ final_activation self = "linear"%string) ->
  exists out s', MLP_loop self idx ls x s = Return out s'.
Proof.
  intros Hls Hx Hact Hfact. revert idx k x s Hls Hx.
  induction ls as [|layer rest IH]; intros idx k x s Hls Hx; cbn [MLP_loop].
  - by exists x, s.
  - destruct (Hls 0 layer eq_refl) as (Hin & Hout & Hshape).
    rewrite Nat.add_0_r in Hin, Hout.
    destruct (Linear_call_returns layer x s Hshape) as (o1 & s1 & E1); [congruence|].
    unfold bind at 1. rewrite E1.
    apply Linear_call_length in E1 as [_ Hl1].
    destruct (apply_activation_returns
                (if idx =? length (layers self) - 1
                 then final_activation self else activation self) o1 s1)
      as (o2 & s2 & E2 & Hl2); [by destruct (idx =? _)|].
    unfold bind at 1. rewrite E2.
    apply (IH (S idx) (S k)).
    + intros i l Hi. specialize (Hls (S i) l Hi).
      by replace (k + S i) with (S k + i) in Hls by lia.
    + rewrite Hout. f_equal. congruence.
Qed.

(** X24: [MLP.__init__] refuses fewer than two sizes before it builds
    anything; otherwise, when it returns, there is one layer per pair of
    consecutive sizes, with those sizes, each with its biases; the names
    of the activations are stored as given, whatever they are. *)
Theorem MLP_init_spec (sizes : list nat) (act fact : string) s :
  (length sizes < 2 ->
   MLP__init__ random_uniform sizes act fact s = Raise AssertionError s) /\
  (forall mlp s',
     MLP__init__ random_uniform sizes act fact s = Return mlp s' ->
     activation mlp = act /\ final_activation mlp = fact /\
     length (layers mlp) = length sizes - 1 /\
     forall i layer, layers mlp !! i = Some layer ->
       sizes !! i = Some (in_features layer) /\
       sizes !! S i = Some (out_features layer) /\
       length (W layer) = out_features layer /\
       exists bs, b layer = Some bs /\ length bs = out_features layer).
Proof.
  split.
  - intros Hlen. unfold MLP__init__.
    destruct (2 <=? length sizes) eqn:E; [|done]. apply Nat.leb_le in E. lia.
  - intros mlp s' Hinit.
    apply MLP_init_layers in Hinit as (Ha & Hf & _ & Hlen & Hls).
    split; [done|]. split; [done|]. split; [done|].
    intros i layer Hi. destruct (Hls i layer Hi) as (Hin & Hout & [HW Hb] & [bs Hbs]).
    split; [done|]. split; [done|]. split; [done|].
    exists bs. split; [done|]. by rewrite Hbs in Hb.
Qed.

(** X25: Calling an [MLP] that [MLP.__init__] returned: an input whose length
    is not the first size raises ValueError before any node is built;
    whenever the call returns, the output has the last size; and with
    'relu' or 'linear' for both activations it returns on every input of
    the first size. *)
Theorem MLP_call_length (sizes : list nat) (act fact : string) s0 mlp s1 x s :
  MLP__init__ random_uniform sizes act fact s0 = Return mlp s1 ->
  (sizes !! 0 <> Some (length x) ->
   MLP__call__ mlp x s = Raise ValueError s) /\
  (forall out s', MLP__call__ mlp x s = Return out s' ->
     last sizes = Some (length out)) /\
  (act = "relu"%string \/ act = "linear"%string ->
   fact = "relu"%string \/ fact = "linear"%string ->
   sizes !! 0 = Some (length x) ->
   exists out s', MLP__call__ mlp x s = Return out s').
Proof.
  intros Hinit.
  apply MLP_init_layers in Hinit as (Ha & Hf & H2 & Hlen & Hls).
  unfold MLP__call__. split; [|split].
  - intros Hx. destruct (layers mlp) as [|layer rest] eqn:El; [simpl in Hlen; lia|].
    destruct (Hls 0 layer eq_refl) as (Hin & _).
    cbn [MLP_loop]. unfold bind at 1, Linear__call__.
    destruct (length x =? in_features layer) eqn:E; [|done].
    apply Nat.eqb_eq in E. congruence.
  - intros out s' Hrun.
    apply MLP_loop_length in Hrun as (layer & Hlast & Hout).
    2:{ intros Hnil. rewrite Hnil in Hlen. simpl in Hlen. lia. }
    rewrite last_lookup in Hlast. destruct (Hls _ layer Hlast) as (_ & Hsz & _).
    rewrite last_lookup, Hout, <- Hsz. f_equal. lia.
  - intros Hact Hfact Hx.
    apply (MLP_loop_returns sizes mlp 0 0); [|done|congruence|congruence].
    intros i layer Hi. destruct (Hls i layer Hi) as (Hin & Hout & Hshape & _).
    done.
Qed.

(** X26: The names of the activations are checked when they are used: with a
    name that is none of the four at the first layer, the call runs that
    layer, building its nodes, and then raises ValueError. *)
Theorem MLP_unknown_activation (sizes : list nat) (act fact : string) s0 mlp s1 x s :
  MLP__init__ random_uniform sizes act fact s0 = Return mlp s1 ->
  let act0 := if length sizes =? 2 then fact else act in
  act0 <> "tanh"%string -> act0 <> "relu"%string ->
  act0 <> "sigmoid"%string -> act0 <> "linear"%string ->
  sizes !! 0 = Some (length x) ->
  exists layer out s',
    layers mlp !! 0 = Some layer /\
    Linear__call__ layer x s = Return out s' /\
    MLP__call__ mlp x s = Raise ValueError s'.
Proof.
  intros Hinit act0 H1 H2 H3 H4 Hx.
  apply MLP_init_layers in Hinit as (Ha & Hf & Hge & Hlen & Hls).
  destruct (layers mlp) as [|layer rest] eqn:El; [simpl in Hlen; lia|].
  destruct (Hls 0 layer eq_refl) as (Hin & _ & Hshape & _).
  destruct (Linear_call_returns layer x s Hshape) as (o1 & s' & E1); [congruence|].
  exists layer, o1, s'. split; [done|]. split; [done|].
  unfold MLP__call__. rewrite El. cbn [MLP_loop]. unfold bind at 1. rewrite E1.
  rewrite El, Ha, Hf.
  replace (0 =? length (layer :: rest) - 1) with (length sizes =? 2).
  2:{ rewrite Hlen. destruct (length sizes) as [|[|[|n]]]; simpl; try lia; done. }
  fold act0. unfold bind at 1, apply_activation.
  apply String.eqb_neq in H1, H2, H3, H4. by rewrite H1, H2, H3, H4.
Qed.

Lemma mapM_alloc {A B : Type} (pars : B -> list nat) (body : A -> M F B)
    (l : list A) s cs s' :
  (forall a s c s', a ∈ l -> body a s = Return c s' ->
     pars c = seq (length s) (length s' - length s) /\ s `prefix_of` s') ->
  mapM body l s = Return cs s' ->
  concat (map pars cs) = seq (length s) (length s' - length s) /\ s `prefix_of` s'.
Proof.
  revert s cs s'. induction l as [|a l IH]; intros s cs s' Hbody; simpl.
  - intros [= <- <-]. by rewrite Nat.sub_diag.
  - unfold bind at 1. destruct (body a s) as [c s1|] eqn:Ec; [|done].
    unfold bind at 1. destruct (mapM body l s1) as [cs1 s2|] eqn:Ecs; [|done].
    unfold ret. intros [= <- <-].
    apply Hbody in Ec as [Hc Hp1]; [|apply list_elem_of_here].
    apply IH in Ecs as [Hcs Hp2].
    2:{ intros a' s0 c' s0' Ha'. apply Hbody. by apply list_elem_of_further. }
    pose proof (prefix_length _ _ Hp1). pose proof (prefix_length _ _ Hp2).
    split; [|by etrans]. simpl. rewrite Hc, Hcs.
    replace (seq (length s1) (length s2 - length s1))
      with (seq (length s + (length s1 - length s)) (length s2 - length s1))
      by (f_equal; lia).
    rewrite <- seq_app. f_equal. lia.
Qed.

(** X27: [MLP.__init__]: [parameters()] of the network lists exactly the nodes
    the construction allocated, in the order of allocation; so the
    parameters are distinct, none was in the graph before, and nothing
    else was built. *)
Theorem MLP_init_parameters (sizes : list nat) (act fact : string) s mlp s' :
  MLP__init__ random_uniform sizes act fact s = Return mlp s' ->
  MLP_parameters mlp = seq (length s) (length s' - length s) /\
  s `prefix_of` s' /\ NoDup (MLP_parameters mlp).
Proof using random_pure.
  unfold MLP__init__. destruct (2 <=? length sizes); [|done]. simpl.
  unfold bind at 1. destruct (mapM _ _ s) as [ls s1|] eqn:Els; [|done].
  unfold ret. intros [= <- <-]. unfold MLP_parameters. simpl.
  apply (mapM_alloc Linear_parameters) in Els as [Hpars Hpre].
  - split; [done|]. split; [done|]. rewrite Hpars. apply NoDup_seq.
  - intros i s0 layer s0' _.
    destruct (sizes !! i) as [in_f|]; [|done].
    destruct (sizes !! (i + 1)) as [out_f|]; [|done].
    intros Hinit. apply Linear_init_alloc in Hinit as (Hp & Hlen & Hpre & _).
    + split; [|done]. rewrite Hp. f_equal. lia.
    + destruct (i <? length sizes - 2); auto.
Qed.

End LayerFacts.

(** ** Softmax and losses in exact arithmetic *)

Section SoftmaxReal.
Local Open Scope R_scope.
Implicit Types (s : store R) (v u : nat) (l : list R).

Lemma foldl_Rplus a l : foldl Rplus a l = a + foldr Rplus 0 l.
Proof.
  revert a. induction l as [|x l IH]; intros a; simpl; [lra|].
  rewrite IH. lra.
Qed.

Lemma Rsum_scale c l : foldr Rplus 0 ((fun x => x * c) <$> l) = foldr Rplus 0 l * c.
Proof.
  induction l as [|x l IH]; [simpl; lra|].
  rewrite fmap_cons. cbn [foldr]. rewrite IH. lra.
Qed.

Lemma Rsum_pos l : l <> [] -> Forall (fun x => 0 < x) l -> 0 < foldr Rplus 0 l.
Proof.
  intros Hne Hall. destruct l as [|x l]; [done|].
  apply Forall_cons in Hall as [Hx Hall]. simpl.
  assert (0 <= foldr Rplus 0 l); [|lra].
  clear -Hall. induction Hall as [|y l Hy _ IH]; simpl; lra.
Qed.

Lemma Rsum_ge l x : Forall (fun x => 0 < x) l -> x ∈ l -> x <= foldr Rplus 0 l.
Proof.
  intros Hall Hx. induction Hall as [|y l Hy Hall IH]; [by apply elem_of_nil in Hx|].
  simpl. assert (0 <= foldr Rplus 0 l).
  { clear -Hall. induction Hall as [|z l Hz _ IH]; simpl; lra. }
  apply elem_of_cons in Hx as [->|Hx]; [lra|]. specialize (IH Hx). lra.
Qed.

Lemma softmax_max_in s v0 rest : softmax_max s v0 rest ∈ v0 :: rest.
Proof.
  revert v0. induction rest as [|v rest IH]; intros v0; simpl.
  - apply list_elem_of_here.
  - match goal with |- context [if ?c then _ else _] => destruct c end.
    + specialize (IH v0). rewrite !elem_of_cons in *. tauto.
    + specialize (IH v). rewrite !elem_of_cons in *. tauto.
Qed.

(** One turn of the first loop: [(v - max_val).exp()]. *)
Lemma exp_shift_value v mx s0 :
  (v < length s0)%nat -> (mx < length s0)%nat ->
  exists e s1,
    bind (__sub__ v (OValue mx)) exp s0 = Return e s1 /\
    s0 `prefix_of` s1 /\ (e < length s1)%nat /\
    get_data s1 e = Rtrigo_def.exp (get_data s0 v - get_data s0 mx).
Proof.
  intros Hv Hmx. unfold bind. rewrite sub_eq by done. rewrite exp_eq.
  cbn [m_exp real_float].
  eexists _, _. split; [reflexivity|]. split.
  { repeat apply prefix_app_r. reflexivity. }
  split.
  { rewrite !length_app. simpl. lia. }
  rewrite get_data_last. cbn [data node]. f_equal.
  unfold get_data at 1. rewrite lookup_app_r by lia.
  replace (S (length s0) - length s0)%nat with 1%nat by lia. simpl. lra.
Qed.

(** One turn of the second loop: [e / denom]. *)
Lemma truediv_value e dn s0 :
  (e < length s0)%nat -> (dn < length s0)%nat -> 0 < get_data s0 dn ->
  exists p s1,
    __truediv__ e (OValue dn) s0 = Return p s1 /\
    s0 `prefix_of` s1 /\ (p < length s1)%nat /\
    get_data s1 p = get_data s0 e * / get_data s0 dn.
Proof.
  intros He Hdn Hpos. unfold __truediv__, bind, _ensure_value, ret.
  rewrite pow_eq. unfold pow_num, to_float. simpl.
  rewrite R_pow_inv by done.
  rewrite mul_eq. eexists _, _. split; [reflexivity|]. split.
  { repeat apply prefix_app_r. reflexivity. }
  split.
  { rewrite !length_app. simpl. lia. }
  rewrite get_data_last. simpl.
  by rewrite get_data_last, get_data_app_l.
Qed.

Lemma Forall2_compose {A B C : Type} (R1 : A -> B -> Prop) (R2 : B -> C -> Prop)
    (R3 : A -> C -> Prop) (l : list A) (k : list B) (m : list C) :
  (forall a c d, R1 a c -> R2 c d -> R3 a d) ->
  Forall2 R1 l k -> Forall2 R2 k m -> Forall2 R3 l m.
Proof.
  intros H123 H1. revert m. induction H1 as [|a c l k Hac _ IH]; intros m H2.
  - inversion H2. constructor.
  - inversion H2 as [|c' d k' m' Hcd Hrest]; subst. constructor; [by eapply H123|].
    by apply IH.
Qed.

Lemma Forall2_Forall_right {A B : Type} (Q : A -> B -> Prop) (P : B -> Prop)
    (l : list A) (k : list B) :
  Forall2 Q l k -> (forall a c, a ∈ l -> Q a c -> P c) -> Forall P k.
Proof.
  induction 1 as [|a c l k Hac _ IH]; intros HP; constructor.
  - eapply HP; [apply list_elem_of_here|done].
  - apply IH. intros a' c' Ha'. apply HP. by apply list_elem_of_further.
Qed.

Lemma Forall2_fmap_eq {A B : Type} (f : A -> R) (g : B -> R) (l : list A) (k : list B) :
  Forall2 (fun a c => g c = f a) l k -> g <$> k = f <$> l.
Proof. induction 1 as [|a c l k Hac _ IH]; [done|]. rewrite !fmap_cons. by f_equal. Qed.

(** X28: [stable_softmax] in exact arithmetic is the softmax: on every
    non-empty list of logits it returns, and the probability of logit [v]
    is [exp v] over the sum of the exponentials of all logits whatever
    maximum was subtracted; the probabilities are in (0, 1] and sum
    to 1. *)
Theorem stable_softmax_real (logits : list nat) s :
  logits <> [] -> Forall (fun v => (v < length s)%nat) logits ->
  let total := foldr Rplus 0 ((fun v => Rtrigo_def.exp (get_data s v)) <$> logits) in
  exists probs s',
    stable_softmax logits s = Return probs s' /\
    Forall2 (fun v p => get_data s' p = Rtrigo_def.exp (get_data s v) / total)
            logits probs /\
    Forall (fun p => 0 < get_data s' p <= 1) probs /\
    foldr Rplus 0 (get_data s' <$> probs) = 1.
Proof.
  intros Hne Hall total. destruct logits as [|v0 rest]; [done|].
  unfold stable_softmax. unfold bind at 1.
  set (logits := v0 :: rest) in *.
  set (mx := softmax_max s v0 rest).
  assert (Hmx : (mx < length s)%nat).
  { pose proof (softmax_max_in s v0 rest) as Hin.
    by apply (proj1 (Forall_forall _ _) Hall) in Hin. }
  set (m := get_data s mx).
  (* the exponentials *)
  destruct (mapM_rel (fun s0 => s `prefix_of` s0)
              (fun v e s0 => (e < length s0)%nat /\
                             get_data s0 e = Rtrigo_def.exp (get_data s v - m))
              (fun v => bind (__sub__ v (OValue mx)) exp) logits)
    with (s := s) as (exps & s1 & Hexps & Hpre1 & Hrel1); [| | |done|].
  { intros s0 s0' Hp Hs0. by etrans. }
  { intros v e s0 s0' Hp [He Hd]. split.
    - apply prefix_length in Hp. lia.
    - by rewrite (get_data_prefix s0 s0'). }
  { intros v s0 Hv Hs0.
    apply (proj1 (Forall_forall _ _) Hall) in Hv.
    pose proof (prefix_length _ _ Hs0) as Hlen0.
    destruct (exp_shift_value v mx s0) as (e & s1 & Hrun & Hp & He & Hd); [lia..|].
    exists e, s1. split; [done|]. split; [done|]. split; [done|].
    by rewrite Hd, !(get_data_prefix s s0). }
  unfold bind at 1. rewrite Hexps.
  assert (Hlt1 : Forall (fun e => (e < length s1)%nat) exps).
  { clear -Hrel1. induction Hrel1 as [|???? [? _] _ IH]; by constructor. }
  assert (Hd1 : get_data s1 <$> exps
                = (fun v => Rtrigo_def.exp (get_data s v - m)) <$> logits).
  { apply Forall2_fmap_eq. eapply Forall2_impl; [exact Hrel1|]. by intros ?? []. }
  (* the denominator *)
  destruct (tensor_sum_spec exps s1 Hlt1) as (dn & s2 & Hsum & Hpre2 & Hlen2 & Hdn & Hddn).
  unfold bind at 1. rewrite Hsum.
  set (D := get_data s2 dn).
  assert (HD : D = foldr Rplus 0 ((fun v => Rtrigo_def.exp (get_data s v - m)) <$> logits)).
  { unfold D. rewrite Hddn, foldl_Rplus, Hd1. simpl. lra. }
  assert (HDpos : 0 < D).
  { rewrite HD. apply Rsum_pos; [done|].
    apply Forall_fmap, Forall_true. intros v. apply exp_pos. }
  (* the probabilities *)
  destruct (mapM_rel (fun s0 => s2 `prefix_of` s0)
              (fun e p s0 => (p < length s0)%nat /\
                             get_data s0 p = get_data s2 e * / D)
              (fun e => __truediv__ e (OValue dn)) exps)
    with (s := s2) as (probs & s3 & Hprobs & Hpre3 & Hrel3); [| | |done|].
  { intros s0 s0' Hp Hs0. by etrans. }
  { intros e p s0 s0' Hp [Hlt Hd]. split.
    - apply prefix_length in Hp. lia.
    - by rewrite (get_data_prefix s0 s0'). }
  { intros e s0 He Hs0.
    apply (proj1 (Forall_forall _ _) Hlt1) in He.
    pose proof (prefix_length _ _ Hpre2) as Hl12.
    pose proof (prefix_length _ _ Hs0) as Hl20.
    destruct (truediv_value e dn s0) as (p & s' & Hrun & Hp & Hlt & Hd); [lia..| |].
    { rewrite (get_data_prefix s2 s0) by done. done. }
    exists p, s'. split; [done|]. split; [done|]. split; [done|].
    rewrite Hd, !(get_data_prefix s2 s0) by (done || lia). done. }
  rewrite Hprobs. exists probs, s3. split; [done|].
  assert (Htotal : 0 < total).
  { unfold total. apply Rsum_pos; [done|].
    apply Forall_fmap, Forall_true. intros v. apply exp_pos. }
  assert (HDt : D = total * Rtrigo_def.exp (- m)).
  { rewrite HD. unfold total. rewrite <- Rsum_scale, <- list_fmap_compose.
    f_equal. apply list_fmap_ext. intros _ v _. simpl.
    rewrite <- exp_plus. f_equal. }
  pose proof (exp_pos (- m)) as Hem.
  assert (Hformula : Forall2 (fun v p => get_data s3 p
                               = Rtrigo_def.exp (get_data s v) / total) logits probs).
  { eapply Forall2_compose; [|exact Hrel1|exact Hrel3].
    intros v e p [He Hde] [_ Hdp]. simpl in Hdp.
    rewrite Hdp, (get_data_prefix s1 s2), Hde, HDt by done.
    replace (get_data s v - m) with (get_data s v + - m) by lra.
    rewrite exp_plus. field. lra. }
  split; [done|]. split.
  - eapply Forall2_Forall_right; [exact Hformula|].
    intros v p Hv ->. simpl.
    pose proof (exp_pos (get_data s v)) as Hv0.
    assert (Rtrigo_def.exp (get_data s v) <= total).
    { unfold total. apply Rsum_ge.
      - apply Forall_fmap, Forall_true. intros u. apply exp_pos.
      - apply list_elem_of_fmap. by exists v. }
    split.
    + apply Rdiv_lt_0_compat; lra.
    + apply (Rmult_le_reg_r total); [done|]. field_simplify; lra.
  - rewrite (Forall2_fmap_eq (fun v => Rtrigo_def.exp (get_data s v) / total)
               (get_data s3) logits probs Hformula).
    change (fun v => Rtrigo_def.exp (get_data s v) / total)
      with ((fun x => x * / total) ∘ (fun v => Rtrigo_def.exp (get_data s v))).
    rewrite list_fmap_compose, Rsum_scale. fold total. field. lra.
Qed.

End SoftmaxReal.

Section LossReal.
Local Open Scope R_scope.
Implicit Types (s : store R) (v u : nat) (l : list R).

Lemma R_pow_sqr (x : R) : R_pow x (IZR 2) = Ok (x * x).
Proof.
  unfold R_pow. rewrite (R_eqb_false (IZR 2) 0) by lra.
  destruct (Req_dec_T x 0) as [->|Hx].
  - rewrite R_eqb_refl, R_ltb_false by lra. f_equal. lra.
  - rewrite (R_eqb_false x 0) by done.
    destruct (Rlt_dec 0 x) as [Hpos|Hneg].
    + rewrite R_ltb_true by done. f_equal.
      replace (IZR 2) with (1 + 1) by lra.
      by rewrite Rpower_plus, Rpower_1.
    + rewrite R_ltb_false by lra.
      destruct (Int_part_frac_part_spec (IZR 2) 2 0) as [<- <-]; [lra|lra|].
      rewrite R_eqb_refl. f_equal. simpl. lra.
Qed.

(** One turn of the loop of [MSELoss]: [(p - Value(t)) ** 2]. *)
Lemma mse_term_value p (t : R) s0 :
  (p < length s0)%nat ->
  exists q s1,
    bind (Value_of (PyFl t)) (fun tv =>
      bind (__sub__ p (OValue tv)) (fun d => __pow__ d (ONum (PyInt 2)))) s0
    = Return q s1 /\
    s0 `prefix_of` s1 /\ (q < length s1)%nat /\
    get_data s1 q = (get_data s0 p - t) * (get_data s0 p - t).
Proof.
  intros Hp. unfold bind at 1. rewrite Value_of_float.
  unfold bind at 1. rewrite sub_eq by (rewrite length_app; simpl; lia).
  rewrite pow_eq. rewrite get_data_last, (get_data_app_l s0 _ p) by done.
  set (x := get_data s0 p).
  match goal with |- context [get_data ?st ?i] =>
    replace (get_data st i) with (x + - t)
  end.
  2:{ unfold get_data. rewrite lookup_app_r by (rewrite length_app; simpl; lia).
      rewrite length_app. simpl.
      by replace (S (length s0 + 1) - (length s0 + 1))%nat with 1%nat by lia. }
  unfold pow_num, to_float. simpl of_int. cbn [rbind]. simpl fpow.
  rewrite R_pow_sqr.
  eexists _, _. split; [reflexivity|]. split.
  { rewrite <- !app_assoc. by apply prefix_app_r. }
  split.
  { rewrite !length_app. simpl. lia. }
  rewrite get_data_last. simpl. lra.
Qed.

(** X29: [MSELoss] in exact arithmetic: on predictions and float targets of
    one length, not empty, it returns the mean of the squared
    differences. *)
Theorem MSELoss_real (preds : list nat) (targets : list R) s :
  length preds = length targets -> preds <> [] ->
  Forall (fun p => (p < length s)%nat) preds ->
  exists loss s',
    MSELoss preds (PyFl <$> targets) s = Return loss s' /\
    get_data s' loss
    = foldr Rplus 0
        (zip_with (fun p t => (get_data s p - t) * (get_data s p - t)) preds targets)
      / INR (length preds).
Proof.
  intros Hlen Hne Hall. unfold MSELoss.
  rewrite length_fmap, <- Hlen, Nat.eqb_refl. cbn [negb].
  destruct (mapM_rel (fun s0 => s `prefix_of` s0)
              (fun (pt : nat * pynum R) q s0 =>
                 (q < length s0)%nat /\
                 match pt.2 with
                 | PyFl t => get_data s0 q = (get_data s pt.1 - t) * (get_data s pt.1 - t)
                 | PyInt _ => False
                 end)
              (fun pt => bind (Value_of pt.2) (fun t =>
                         bind (__sub__ pt.1 (OValue t)) (fun d =>
                         __pow__ d (ONum (PyInt 2)))))
              (zip preds (PyFl <$> targets)))
    with (s := s) as (losses & s1 & Hrun & Hpre1 & Hrel); [| | |done|].
  { intros s0 s0' Hp Hs0. by etrans. }
  { intros [p [z|t]] q s0 s0' Hp [Hq Hd]; [done|]. split.
    - apply prefix_length in Hp. lia.
    - simpl in *. by rewrite (get_data_prefix s0 s0'). }
  { intros [p n] s0 Hin Hs0.
    pose proof (elem_of_zip_l _ _ _ _ Hin) as Hp.
    apply elem_of_zip_r, list_elem_of_fmap in Hin as (t & -> & _).
    apply (proj1 (Forall_forall _ _) Hall) in Hp.
    pose proof (prefix_length _ _ Hs0) as Hl.
    destruct (mse_term_value p t s0) as (q & s1 & Hrun & Hpre & Hq & Hd); [lia|].
    exists q, s1. split; [done|]. split; [done|]. split; [done|].
    simpl. by rewrite Hd, (get_data_prefix s s0). }
  cbv beta iota. unfold bind at 1. rewrite Hrun.
  assert (Hll : length losses = length preds).
  { apply Forall2_length in Hrel. rewrite <- Hrel, length_zip, length_fmap. lia. }
  assert (Hlt : Forall (fun q => (q < length s1)%nat) losses).
  { eapply Forall2_Forall_right; [exact Hrel|]. by intros ?? _ []. }
  assert (Hdata : get_data s1 <$> losses
                  = zip_with (fun p t => (get_data s p - t) * (get_data s p - t))
                             preds targets).
  { clear -Hrel. revert targets losses Hrel.
    induction preds as [|p preds IH]; intros [|t targets] losses Hrel;
      simpl in Hrel; inversion Hrel as [|?? ?? [_ Hd] Hrest]; subst; try done.
    rewrite fmap_cons. simpl in *. f_equal; [done|]. by apply IH. }
  unfold tensor_mean. rewrite Hll.
  destruct (length preds) as [|n] eqn:En; [by destruct preds|].
  cbn [Nat.eqb].
  destruct (tensor_sum_spec losses s1 Hlt) as (sm & s2 & Hsum & Hpre2 & Hlen2 & Hsm & Hdsm).
  unfold bind at 1. rewrite Hsum.
  unfold bind at 1, lift. simpl of_int. cbn [rbind]. simpl fdiv. unfold R_div.
  assert (Hn : IZR (Z.of_nat (S n)) = INR (S n)) by (by rewrite INR_IZR_INZ).
  assert (Hn0 : INR (S n) <> 0) by (apply not_0_INR; lia).
  rewrite Hn, (R_eqb_false (INR (S n)) 0) by done.
  unfold __mul__, bind, _ensure_value. rewrite Value_of_float.
  unfold read_data, Value_init, finish.
  eexists _, _. split; [reflexivity|].
  rewrite set_backward_last. rewrite get_data_last. simpl.
  rewrite get_data_last, get_data_app_l by done. simpl.
  rewrite Hdsm, foldl_Rplus, Hdata. simpl. field. done.
Qed.

End LossReal.

(** ** The derivative rules in exact arithmetic *)

Arguments EPS : simpl never.

Section RealRules.
Local Open Scope R_scope.
Implicit Types (s : store R) (v u x : nat).










End RealRules.

(** ** The chain rule along a node with one consumer *)

Section ChainFacts.
Context {F : Type} {PF : PyFloat F}.
Implicit Types (s : store F) (v u : nat).

Lemma run_backwards_app (a b : list nat) s :
  run_backwards (a ++ b) s
  = match run_backwards a s with
    | Return _ s1 => run_backwards b s1
    | Raise e s1 => Raise e s1
    end.
Proof.
  revert s. induction a as [|v a IH]; intros s; simpl; [done|].
  unfold bind. destruct (call_backward _ s) as [[] s1|e s1]; [apply IH|done].
Qed.

Lemma topo_order_nodup (choice : list nat -> nat) s root T :
  topo_order (set_order choice) s root = Some T -> NoDup T.
Proof.
  intros HT. unfold topo_order in HT.
  destruct (build _ _ _ _ _) as [st|] eqn:E; [|done]. injection HT as <-.
  by destruct (build_nodup _ s _ root _ st E (NoDup_nil_2) (fun u Hu => Hu)).
Qed.

Lemma topo_order_sorted (choice : list nat -> nat) s root T l1 v l2 c :
  wf_store s ->
  topo_order (set_order choice) s root = Some T ->
  T = l1 ++ v :: l2 -> c ∈ get_prev s v -> c ∈ l1.
Proof.
  intros Hwf HT. unfold topo_order in HT.
  destruct (build _ _ _ _ _) as [st|] eqn:E; [|done]. injection HT as <-.
  assert (HE0 : forall u, u ∈ @nil nat -> u ∉ @nil nat -> root < u).
  { intros u Hu. by apply elem_of_nil in Hu. }
  assert (HJ0 : forall k1 x k2, @nil nat = k1 ++ x :: k2 ->
                  forall c, c ∈ get_prev s x -> c ∈ k1).
  { intros k1 x k2 Heq. by destruct k1. }
  destruct (build_sorted _ s _ root (mkDfs [] []) st Hwf (set_order_in choice)
              HE0 HJ0 E) as (HJ & _ & _).
  intros Heq. by eapply HJ.
Qed.

Lemma targets_are_parents s v u :
  wf_store s -> u ∈ closure_targets (get_backward s v) ->
  u ∈ get_prev s v /\ u < v /\ v < length s.
Proof.
  intros Hwf Hu. unfold get_backward, get_prev in *.
  destruct (s !! v) as [n|] eqn:En; [|by apply elem_of_nil in Hu].
  destruct (Hwf v n En) as [Hlt Htg]. pose proof (lookup_lt_Some _ _ _ En).
  split; [by apply Htg|]. split; [|done]. by apply Hlt, Htg.
Qed.

(** The gradient of a node none of whose consumers but [y] is met by the
    pass: when [backward] returns, it is what the rule of [y] leaves,
    called when the gradient of [y] is final and that of the node is
    still 0.0. *)
Lemma single_consumer_grad (choice : list nat -> nat) s root x y s' :
  wf_store s ->
  backward (set_order choice) root s = Return tt s' ->
  reachable s root y -> x <> root ->
  x ∈ closure_targets (get_backward s y) ->
  (forall v, reachable s root v -> v <> y ->
     x ∉ closure_targets (get_backward s v)) ->
  exists sy sy',
    length sy = length s /\
    (forall v, get_data sy v = get_data s v) /\
    get_grad sy x = f0 /\
    get_grad sy y = get_grad s' y /\
    call_backward (get_backward s y) sy = Return tt sy' /\
    get_grad s' x = get_grad sy' x.
Proof.
  intros Hwf Hrun Hy Hxr Hxy Hone. unfold backward in Hrun.
  destruct (topo_order (set_order choice) s root) as [T|] eqn:HT; [|done].
  pose proof (fun u => topo_order_elem choice s root T u HT) as Hreach.
  pose proof (topo_order_nodup choice s root T HT) as Hnd.
  destruct (targets_are_parents s y x Hwf Hxy) as (Hxp & Hxlt & Hylt).
  assert (HxT : x ∈ T).
  { apply Hreach. by eapply reachable_parent. }
  apply Hreach in Hy. apply list_elem_of_split in Hy as (l1 & l2 & HTeq).
  set (s0 := set_grad root f1 (zero_grads T s)) in Hrun.
  rewrite HTeq, reverse_app, reverse_cons, <- app_assoc in Hrun.
  rewrite run_backwards_app in Hrun.
  destruct (run_backwards (reverse l2) s0) as [[] sy|e sy] eqn:E2; [|done].
  simpl in Hrun. unfold bind in Hrun.
  destruct (call_backward (get_backward sy y) sy) as [[] sy'|e sy'] eqn:Ey; [|done].
  set (Wx := filter (fun u => u <> x) (seq 0 (length s))).
  set (Wy := filter (fun u => u <> y) (seq 0 (length s))).
  assert (HWx : forall u, u < length s -> u <> x -> u ∈ Wx).
  { intros u Hu Hne. apply list_elem_of_filter. split; [done|].
    apply elem_of_seq. lia. }
  assert (HWy : forall u, u < length s -> u <> y -> u ∈ Wy).
  { intros u Hu Hne. apply list_elem_of_filter. split; [done|].
    apply elem_of_seq. lia. }
  assert (HxW : x ∉ Wx).
  { intros Hin. apply list_elem_of_filter in Hin as [Hne _]. done. }
  assert (HyW : y ∉ Wy).
  { intros Hin. apply list_elem_of_filter in Hin as [Hne _]. done. }
  assert (Hbw0 : forall v, get_backward s0 v = get_backward s v).
  { intros v. unfold s0. by rewrite get_backward_set_grad, get_backward_zero_grads. }
  assert (Hl2 : forall v, v ∈ l2 -> v ∈ T /\ v <> y).
  { intros v Hv. split.
    - rewrite HTeq. apply elem_of_app. right. by apply list_elem_of_further.
    - intros ->. rewrite HTeq in Hnd. apply NoDup_app in Hnd as (_ & _ & Hnd).
      apply NoDup_cons in Hnd as [Hn _]. done. }
  assert (Hl1 : forall v, v ∈ l1 -> v ∈ T /\ v <> y).
  { intros v Hv. split.
    - rewrite HTeq. apply elem_of_app. by left.
    - intros ->. rewrite HTeq in Hnd. apply NoDup_app in Hnd as (_ & Hn & _).
      apply (Hn y Hv). apply list_elem_of_here. }
  (* the rules that run before that of [y] *)
  assert (F2 : zero_grads Wx sy = zero_grads Wx s0).
  { change sy with (final_store (Return tt sy)). rewrite <- E2.
    apply run_backwards_frame. intros v u Hv Hu.
    rewrite elem_of_reverse in Hv. apply Hl2 in Hv as [HvT Hvy].
    rewrite Hbw0 in Hu.
    destruct (targets_are_parents s v u Hwf Hu) as (_ & ? & ?).
    apply HWx; [lia|]. intros ->. by apply (Hone v); [apply Hreach|..]. }
  destruct (zero_grads_eq_shape Wx s0 sy F2) as (Hlen & Hshape & Hgrad).
  assert (Hlen0 : length s0 = length s).
  { unfold s0. by rewrite length_set_grad, length_zero_grads. }
  assert (Hbwy : get_backward sy y = get_backward s y).
  { destruct (Hshape y) as (_ & _ & ->). apply Hbw0. }
  rewrite Hbwy in Ey.
  (* the rule of [y] *)
  assert (Fy : zero_grads Wy sy' = zero_grads Wy sy).
  { change sy' with (final_store (Return tt sy')). rewrite <- Ey.
    apply call_backward_frame. intros u Hu.
    destruct (targets_are_parents s y u Hwf Hu) as (_ & ? & ?).
    apply HWy; lia. }
  destruct (zero_grads_eq_shape Wy sy sy' Fy) as (Hleny & Hshapey & Hgrady).
  assert (Hbw' : forall v, get_backward sy' v = get_backward s v).
  { intros v. destruct (Hshapey v) as (_ & _ & ->).
    destruct (Hshape v) as (_ & _ & ->). apply Hbw0. }
  (* the rules that run after it *)
  assert (F1x : zero_grads Wx s' = zero_grads Wx sy').
  { change s' with (final_store (Return tt s')). rewrite <- Hrun.
    apply run_backwards_frame. intros v u Hv Hu.
    rewrite elem_of_reverse in Hv. apply Hl1 in Hv as [HvT Hvy].
    rewrite Hbw' in Hu.
    destruct (targets_are_parents s v u Hwf Hu) as (_ & ? & ?).
    apply HWx; [lia|]. intros ->. by apply (Hone v); [apply Hreach|..]. }
  assert (F1y : zero_grads Wy s' = zero_grads Wy sy').
  { change s' with (final_store (Return tt s')). rewrite <- Hrun.
    apply run_backwards_frame. intros v u Hv Hu.
    rewrite elem_of_reverse in Hv.
    rewrite Hbw' in Hu.
    destruct (targets_are_parents s v u Hwf Hu) as (Hup & ? & ?).
    apply HWy; [lia|]. intros ->.
    apply list_elem_of_split in Hv as (k1 & k2 & ->).
    rewrite <- app_assoc in HTeq. simpl in HTeq.
    pose proof (topo_order_sorted choice s root T k1 v _ y Hwf HT HTeq Hup) as Hin.
    rewrite HTeq in Hnd. apply NoDup_app in Hnd as (_ & Hn & _).
    apply (Hn y Hin). apply list_elem_of_further, elem_of_app. right.
    apply list_elem_of_here. }
  destruct (zero_grads_eq_shape Wx sy' s' F1x) as (_ & _ & Hgx).
  destruct (zero_grads_eq_shape Wy sy' s' F1y) as (_ & _ & Hgy).
  exists sy, sy'. split_and!.
  - lia.
  - intros v. destruct (Hshape v) as (-> & _). unfold s0.
    by rewrite get_data_set_grad, get_data_zero_grads.
  - rewrite Hgrad by done. unfold s0.
    rewrite get_grad_set_grad_ne by done.
    apply get_grad_zero_grads_in; [done|lia].
  - rewrite Hgy by done. by rewrite Hgrady.
  - done.
  - by apply Hgx.
Qed.

End ChainFacts.

(** ** [sigmoid] *)

Section SigmoidFacts.
Context {F : Type} {PF : PyFloat F}.
Implicit Types (s : store F) (v u : nat).

Lemma length_snoc {A : Type} (l : list A) (a : A) : length (l ++ [a]) = length l + 1.
Proof. rewrite length_app. simpl. lia. Qed.

Lemma add_num_eq self c s :
  self < length s ->
  __add__ self (ONum (PyFl c)) s
  = Return (length s + 1)
      (s ++ [node c [] op_leaf bw_none;
             node (fadd (get_data s self) c) [self; length s] op_add
                  (bw_add self (length s) (length s + 1))]).
Proof.
  intros Hs.
  transitivity (__add__ self (OValue (length s)) (s ++ [node c [] op_leaf bw_none]));
    [done|].
  rewrite add_eq, length_snoc, get_data_last, get_data_app_l by done.
  by rewrite <- app_assoc.
Qed.

Lemma lookup_ext s (ext : list (Value F)) k : (s ++ ext) !! (length s + k) = ext !! k.
Proof. rewrite lookup_app_r by lia. f_equal. lia. Qed.

Lemma get_data_ext s ext k :
  get_data (s ++ ext) (length s + k)
  = match ext !! k with Some n => data n | None => f0 end.
Proof. unfold get_data. by rewrite lookup_ext. Qed.

Lemma get_data_ext0 s n ext : get_data (s ++ n :: ext) (length s) = data n.
Proof. unfold get_data. rewrite lookup_app_r by lia. by rewrite Nat.sub_diag. Qed.

Lemma rtruediv_num_eq self c s :
  self < length s ->
  __rtruediv__ self (ONum (PyFl c)) s
  = match pow_num (get_data s self) (PyInt (-1)) with
    | Err e => Raise e (s ++ [node c [] op_leaf bw_none])
    | Ok pd =>
        Return (length s + 2)
          (s ++ [node c [] op_leaf bw_none;
                 node pd [self] (op_pow (PyInt (-1)))
                      (bw_pow self (PyInt (-1)) (length s + 1));
                 node (fmul c pd) [length s; length s + 1] op_mul
                      (bw_mul (length s) (length s + 1) (length s + 2))])
    end.
Proof.
  intros Hs.
  transitivity
    (bind (__pow__ self (ONum (PyInt (-1))))
          (fun p => __mul__ (length s) (OValue p))
          (s ++ [node c [] op_leaf bw_none])); [done|].
  unfold bind. rewrite pow_eq, get_data_app_l by done.
  destruct (pow_num _ _) as [pd|e]; [|done].
  rewrite mul_eq. rewrite <- !app_assoc. cbn [app].
  rewrite !length_app. cbn [length].
  rewrite get_data_ext0. rewrite (get_data_ext s _ 1). cbn [lookup list_lookup data node].
  done.
Qed.

Lemma set_op_ext s (pre : list (Value F)) (n : Value F) o k :
  k = length s + length pre ->
  set_op k o (s ++ pre ++ [n]) = s ++ pre ++ [with_op o n].
Proof.
  intros ->. unfold set_op. rewrite app_assoc, <- length_app.
  rewrite alter_app_r_alt by done. rewrite Nat.sub_diag. simpl.
  by rewrite <- app_assoc.
Qed.

Lemma sigmoid_eq x s :
  let a := get_data s x in
  let L := length s in
  sigmoid x s
  = match m_exp (fneg a) with
    | Err e => Raise e (s ++ take 1 (sigmoid_nodes x L a f0 f0))
    | Ok ed =>
        match pow_num (fadd ed f1) (PyInt (-1)) with
        | Err e => Raise e (s ++ take 5 (sigmoid_nodes x L a ed f0))
        | Ok pd => Return (L + 6) (s ++ sigmoid_nodes x L a ed pd)
        end
    end.
Proof.
  intros a L. unfold sigmoid, bind at 1. rewrite neg_eq.
  unfold bind at 1. rewrite exp_eq.
  rewrite get_data_last. cbn [data node]. fold a.
  destruct (m_exp (fneg a)) as [ed|e]; [|done].
  unfold bind at 1. unfold __radd__. rewrite add_num_eq.
  2:{ rewrite !length_app. simpl. lia. }
  rewrite get_data_last. cbn [data node].
  unfold bind. rewrite rtruediv_num_eq.
  2:{ rewrite !length_app. simpl. lia. }
  rewrite <- !app_assoc. cbn [app].
  rewrite !length_app. cbn [length]. fold L.
  replace (L + 1 + 1) with (L + 2) by lia.
  replace (L + 2 + 1) with (L + 3) by lia.
  rewrite (get_data_ext s _ 3). cbn [lookup list_lookup data node].
  destruct (pow_num (fadd ed f1) (PyInt (-1))) as [pd|e].
  2:{ done. }
  rewrite <- ?app_assoc. cbn [app].
  replace (L + 4 + 1) with (L + 5) by lia.
  replace (L + 4 + 2) with (L + 6) by lia.
  f_equal. unfold set_op. rewrite alter_app_r_alt by (unfold L; lia).
  replace (L + 6 - length s) with 6 by (unfold L; lia). done.
Qed.

Lemma mul_num_eq self c s :
  self < length s ->
  __mul__ self (ONum (PyFl c)) s
  = Return (length s + 1)
      (s ++ [node c [] op_leaf bw_none;
             node (fmul (get_data s self) c) [self; length s] op_mul
                  (bw_mul self (length s) (length s + 1))]).
Proof.
  intros Hs.
  transitivity (__mul__ self (OValue (length s)) (s ++ [node c [] op_leaf bw_none]));
    [done|].
  rewrite mul_eq, length_snoc, get_data_last, get_data_app_l by done.
  by rewrite <- app_assoc.
Qed.

(** The graph [sigmoid_times] leaves on a store of [L] objects. *)
Lemma sigmoid_times_eq x g s sg z s2 :
  let a := get_data s x in
  let L := length s in
  sigmoid_times x g s = Return (sg, z) s2 ->
  exists ed pd,
    m_exp (fneg a) = Ok ed /\ pow_num (fadd ed f1) (PyInt (-1)) = Ok pd /\
    sg = L + 6 /\ z = L + 8 /\
    s2 = s ++ sigmoid_nodes x L a ed pd
           ++ [node g [] op_leaf bw_none;
               node (fmul (fmul f1 pd) g) [L + 6; L + 7] op_mul
                    (bw_mul (L + 6) (L + 7) (L + 8))].
Proof.
  intros a L. unfold sigmoid_times, bind at 1. rewrite sigmoid_eq.
  fold a L. destruct (m_exp (fneg a)) as [ed|e] eqn:Ee; [|done].
  destruct (pow_num _ _) as [pd|e] eqn:Ep; [|done].
  unfold bind, ret. rewrite mul_num_eq.
  2:{ rewrite length_app. simpl. fold L. lia. }
  rewrite length_app. cbn [length sigmoid_nodes]. fold L.
  rewrite (get_data_ext s _ 6). cbn [lookup list_lookup data node sigmoid_nodes].
  intros [= <- <- <-]. exists ed, pd. split_and!; try done; try lia.
  rewrite <- app_assoc. by replace (L + 7 + 1) with (L + 8) by lia.
Qed.

Lemma get_backward_ext s (ext : list (Value F)) k :
  get_backward (s ++ ext) (length s + k)
  = match ext !! k with Some n => _backward n | None => bw_none end.
Proof. unfold get_backward. by rewrite lookup_ext. Qed.

Lemma get_prev_ext s (ext : list (Value F)) k :
  get_prev (s ++ ext) (length s + k)
  = match ext !! k with Some n => _prev n | None => [] end.
Proof. unfold get_prev. by rewrite lookup_ext. Qed.

Lemma get_prev_app_l s (ext : list (Value F)) v :
  v < length s -> get_prev (s ++ ext) v = get_prev s v.
Proof. intros Hv. unfold get_prev. by rewrite lookup_app_l. Qed.

Lemma get_backward_app_l s (ext : list (Value F)) v :
  v < length s -> get_backward (s ++ ext) v = get_backward s v.
Proof. intros Hv. unfold get_backward. by rewrite lookup_app_l. Qed.

Lemma wf_store_ext s (ext : list (Value F)) :
  wf_store s ->
  (forall k n, ext !! k = Some n -> node_ok (length s + k) n) ->
  wf_store (s ++ ext).
Proof.
  intros Hwf Hext v n Hv.
  destruct (decide (v < length s)) as [Hlt|Hge].
  - rewrite lookup_app_l in Hv by done. by apply Hwf.
  - rewrite lookup_app_r in Hv by lia.
    replace v with (length s + (v - length s)) by lia. by apply Hext.
Qed.

Lemma elem_of_pyset (l : list nat) c : c ∈ pyset l <-> c ∈ l.
Proof. apply elem_of_remove_dups. Qed.

End SigmoidFacts.

Section SigmoidGrad.
Context {F : Type} {PF : PyFloat F}.
Implicit Types (s : store F) (v u : nat).

Lemma get_grad_iadd_same s x d :
  x < length s -> get_grad (iadd_grad x d s) x = fadd (get_grad s x) d.
Proof. intros Hx. unfold iadd_grad. by rewrite get_grad_set_grad_eq. Qed.

Lemma get_grad_iadd_other s x d u :
  x <> u -> get_grad (iadd_grad x d s) u = get_grad s u.
Proof. intros Hx. unfold iadd_grad. by rewrite get_grad_set_grad_ne. Qed.

Lemma get_data_iadd s x d u : get_data (iadd_grad x d s) u = get_data s u.
Proof. unfold iadd_grad. by rewrite get_data_set_grad. Qed.

Lemma length_iadd s x d : length (iadd_grad x d s) = length s.
Proof. unfold iadd_grad. by rewrite length_set_grad. Qed.

Local Ltac nine k :=
  destruct k as [|[|[|[|[|[|[|[|[|k]]]]]]]]].

Local Ltac others k :=
  nine k;
  cbn [sigmoid_nodes app lookup list_lookup node _backward closure_targets];
  rewrite ?not_elem_of_cons;
  try (split_and?; try apply not_elem_of_nil; lia).

Lemma sigmoid_backward_grad (choice : list nat -> nat) s x g ed pd s' :
  wf_store s -> x < length s ->
  let L := length s in
  let s2 := s ++ sigmoid_nodes x L (get_data s x) ed pd
              ++ [node g [] op_leaf bw_none;
                  node (fmul (fmul f1 pd) g) [L + 6; L + 7] op_mul
                       (bw_mul (L + 6) (L + 7) (L + 8))] in
  backward (set_order choice) (L + 8) s2 = Return tt s' ->
  exists grad_local,
    pow_grad_local (fadd ed f1) (PyInt (-1)) = Ok grad_local /\
    get_grad s' (L + 6) = fadd f0 (fmul g f1) /\
    get_grad s' x = sigmoid_rules ed grad_local (get_grad s' (L + 6)).
Proof.
  intros Hwf Hx L s2 Hrun.
  set (ext := sigmoid_nodes x L (get_data s x) ed pd ++ _) in s2.
  assert (Hlen2 : length s2 = L + 9).
  { unfold s2, ext. rewrite !length_app. simpl. lia. }
  assert (Hwf2 : wf_store s2).
  { apply wf_store_ext; [done|]. intros k n Hk. fold L.
    nine k; simpl in Hk; try done; injection Hk as <-; split; intros c;
      cbn [node _prev _backward closure_targets]; rewrite ?elem_of_pyset;
      try done; rewrite ?elem_of_cons, ?elem_of_nil; lia. }
  assert (Hbw : forall k, get_backward s2 (L + k)
                = match ext !! k with Some n => _backward n | None => bw_none end).
  { intros k. apply get_backward_ext. }
  assert (Hprev : forall k, get_prev s2 (L + k)
                = match ext !! k with Some n => _prev n | None => [] end).
  { intros k. apply get_prev_ext. }
  assert (Hdata : forall k, get_data s2 (L + k)
                = match ext !! k with Some n => data n | None => f0 end).
  { intros k. apply get_data_ext. }
  assert (Hinv : forall v, reachable s2 (L + 8) v -> v <= x \/ (L <= v /\ v < L + 9)).
  { intros v Hr. induction Hr as [|v c Hr IH Hc]; [right; lia|].
    destruct IH as [Hle|[Hge Hlt]].
    - left. unfold s2 in Hc. rewrite get_prev_app_l in Hc by lia.
      unfold get_prev in Hc.
      destruct (s !! v) as [n|] eqn:En; [|by apply elem_of_nil in Hc].
      apply (Hwf v n En) in Hc. lia.
    - replace v with (L + (v - L)) in Hc by lia.
      rewrite Hprev in Hc.
      remember (v - L) as k eqn:Ek.
      nine k; cbn [ext sigmoid_nodes app lookup list_lookup node _prev] in Hc;
        rewrite ?elem_of_pyset, ?elem_of_cons, ?elem_of_nil in Hc; lia. }
  assert (Hone : forall t y, x <= t -> 
             (forall k, k < 9 -> L + k <> y ->
                t ∉ closure_targets (get_backward s2 (L + k))) ->
             forall v, reachable s2 (L + 8) v -> v <> y ->
               t ∉ closure_targets (get_backward s2 v)).
  { intros t y Ht Hnew v Hr Hne Hin.
    destruct (targets_are_parents s2 v t Hwf2 Hin) as (_ & Hlt & _).
    destruct (Hinv v Hr) as [Hle|[Hge Hlt9]]; [lia|].
    apply (Hnew (v - L)); [lia|lia|]. by replace (L + (v - L)) with v by lia. }
  assert (R8 : reachable s2 (L + 8) (L + 8)) by constructor.
  assert (R6 : reachable s2 (L + 8) (L + 6)).
  { eapply reachable_parent; [exact R8|]. rewrite Hprev.
    cbn [ext sigmoid_nodes app lookup list_lookup node _prev].
    apply elem_of_pyset. set_solver. }
  assert (R5 : reachable s2 (L + 8) (L + 5)).
  { eapply reachable_parent; [exact R6|]. rewrite Hprev.
    cbn [ext sigmoid_nodes app lookup list_lookup node _prev].
    apply elem_of_pyset. set_solver. }
  assert (R3 : reachable s2 (L + 8) (L + 3)).
  { eapply reachable_parent; [exact R5|]. rewrite Hprev.
    cbn [ext sigmoid_nodes app lookup list_lookup node _prev].
    apply elem_of_pyset. set_solver. }
  assert (R1 : reachable s2 (L + 8) (L + 1)).
  { eapply reachable_parent; [exact R3|]. rewrite Hprev.
    cbn [ext sigmoid_nodes app lookup list_lookup node _prev].
    apply elem_of_pyset. set_solver. }
  assert (R0 : reachable s2 (L + 8) (L + 0)).
  { eapply reachable_parent; [exact R1|]. rewrite Hprev.
    cbn [ext sigmoid_nodes app lookup list_lookup node _prev].
    apply elem_of_pyset. rewrite Nat.add_0_r. set_solver. }
  pose proof (backward_seed_kept choice s2 (L + 8) Hwf2 ltac:(lia)) as G8.
  rewrite Hrun in G8. simpl in G8.
  assert (Hnew : forall t y, (forall k, k < 9 -> L + k <> y ->
             t ∉ match ext !! k with
                 | Some n => closure_targets (_backward n)
                 | None => []
                 end) ->
           forall k, k < 9 -> L + k <> y ->
             t ∉ closure_targets (get_backward s2 (L + k))).
  { intros t y H k Hk Hne. rewrite Hbw. specialize (H k Hk Hne).
    by destruct (ext !! k). }
  assert (Hstep : forall t k, x <= t -> t <> L + 8 -> k < 9 ->
            reachable s2 (L + 8) (L + k) ->
            t ∈ match ext !! k with
                | Some n => closure_targets (_backward n)
                | None => []
                end ->
            (forall j, j < 9 -> L + j <> L + k ->
               t ∉ match ext !! j with
                   | Some n => closure_targets (_backward n)
                   | None => []
                   end) ->
            exists sy sy',
              length sy = L + 9 /\
              (forall v, get_data sy v = get_data s2 v) /\
              get_grad sy t = f0 /\
              get_grad sy (L + k) = get_grad s' (L + k) /\
              call_backward (match ext !! k with
                             | Some n => _backward n
                             | None => bw_none
                             end) sy = Return tt sy' /\
              get_grad s' t = get_grad sy' t).
  { intros t k Ht Hne Hk Hr Hin Hother.
    destruct (single_consumer_grad choice s2 (L + 8) t (L + k) s' Hwf2 Hrun Hr)
      as (sy & sy' & Hlsy & Hdsy & Hg0 & Hgy & Hcall & Hgx).
    - done.
    - rewrite Hbw. by destruct (ext !! k).
    - apply Hone; [done|]. by apply Hnew.
    - exists sy, sy'. rewrite Hbw in Hcall. split_and!; try done. lia. }
  (* the multiplication by [g] *)
  destruct (Hstep (L + 6) 8) as (sy & sy' & Hl & Hd & Hg0 & Hgy & Hcall & Hgx);
    [lia|lia|lia|done| | |].
  { cbn. set_solver. }
  { intros j Hj Hne. unfold ext. others j. }
  cbn in Hcall. injection Hcall as <-.
  rewrite get_grad_iadd_other in Hgx by lia.
  rewrite get_grad_iadd_same in Hgx by lia.
  rewrite Hg0, Hgy, G8, Hd, (Hdata 7) in Hgx. cbn in Hgx.
  clear sy Hl Hd Hg0 Hgy. rename Hgx into G6.
  (* the multiplication of [sigmoid] *)
  destruct (Hstep (L + 5) 6) as (sy & sy' & Hl & Hd & Hg0 & Hgy & Hcall & Hgx);
    [lia|lia|lia|done| | |].
  { cbn. set_solver. }
  { intros j Hj Hne. unfold ext. others j. }
  cbn in Hcall. injection Hcall as <-.
  rewrite get_grad_iadd_same in Hgx by (rewrite length_iadd; lia).
  rewrite get_data_iadd, !get_grad_iadd_other in Hgx by lia.
  rewrite Hg0, Hgy, Hd, (Hdata 4) in Hgx. cbn in Hgx.
  clear sy Hl Hd Hg0 Hgy. rename Hgx into G5.
  (* the power *)
  destruct (Hstep (L + 3) 5) as (sy & sy' & Hl & Hd & Hg0 & Hgy & Hcall & Hgx);
    [lia|lia|lia|done| | |].
  { cbn. set_solver. }
  { intros j Hj Hne. unfold ext. others j. }
  cbn in Hcall. rewrite Hd, (Hdata 3) in Hcall. cbn in Hcall.
  destruct (pow_grad_local (fadd ed f1) (PyInt (-1))) as [grad_local|e] eqn:Eloc;
    [|done].
  injection Hcall as <-.
  rewrite get_grad_iadd_same in Hgx by lia.
  rewrite Hg0, Hgy in Hgx.
  clear sy Hl Hd Hg0 Hgy. rename Hgx into G3.
  (* the addition *)
  destruct (Hstep (L + 1) 3) as (sy & sy' & Hl & Hd & Hg0 & Hgy & Hcall & Hgx);
    [lia|lia|lia|done| | |].
  { cbn. set_solver. }
  { intros j Hj Hne. unfold ext. others j. }
  cbn in Hcall. injection Hcall as <-.
  rewrite get_grad_iadd_other in Hgx by lia.
  rewrite get_grad_iadd_same in Hgx by lia.
  rewrite Hg0, Hgy in Hgx.
  clear sy Hl Hd Hg0 Hgy. rename Hgx into G1.
  (* [exp] *)
  destruct (Hstep L 1) as (sy & sy' & Hl & Hd & Hg0 & Hgy & Hcall & Hgx);
    [lia|lia|lia|done| | |].
  { cbn. set_solver. }
  { intros j Hj Hne. unfold ext. others j. }
  cbn in Hcall. injection Hcall as <-.
  rewrite get_grad_iadd_same in Hgx by lia.
  rewrite Hg0, Hgy in Hgx.
  clear sy Hl Hd Hg0 Hgy. rename Hgx into G0.
  (* the negation *)
  destruct (Hstep x 0) as (sy & sy' & Hl & Hd & Hg0 & Hgy & Hcall & Hgx);
    [lia|lia|lia|done| | |].
  { cbn. set_solver. }
  { intros j Hj Hne. unfold ext. others j. }
  cbn in Hcall. injection Hcall as <-.
  rewrite get_grad_iadd_same in Hgx by lia.
  rewrite Nat.add_0_r in Hgy. rewrite Hg0, Hgy in Hgx.
  exists grad_local. split; [done|]. split; [done|].
  unfold sigmoid_rules. by rewrite Hgx, G0, G1, G3, G5.
Qed.
End SigmoidGrad.

Section SigmoidGeneric.
Context {F : Type} {PF : PyFloat F}.
Implicit Types (s : store F).

(** [sigmoid] followed by a multiplication and [backward]: the number of
    the sigmoid node and the gradient of the input, by the rules of the
    composition alone. *)
Lemma sigmoid_times_backward (choice : list nat -> nat) s x g sg z s2 s' :
  wf_store s -> x < length s ->
  sigmoid_times x g s = Return (sg, z) s2 ->
  backward (set_order choice) z s2 = Return tt s' ->
  exists ed pd grad_local,
    m_exp (fneg (get_data s x)) = Ok ed /\
    pow_num (fadd ed f1) (PyInt (-1)) = Ok pd /\
    get_data s2 sg = fmul f1 pd /\
    pow_grad_local (fadd ed f1) (PyInt (-1)) = Ok grad_local /\
    get_grad s' sg = fadd f0 (fmul g f1) /\
    get_grad s' x = sigmoid_rules ed grad_local (get_grad s' sg).
Proof.
  intros Hwf Hx Hrun Hback.
  destruct (sigmoid_times_eq x g s sg z s2 Hrun) as (ed & pd & Ee & Ep & -> & -> & ->).
  destruct (sigmoid_backward_grad choice s x g ed pd s' Hwf Hx Hback)
    as (gl & Hgl & Hsg & Hgx).
  exists ed, pd, gl. split_and!; try done.
  by rewrite (get_data_ext s _ 6).
Qed.

End SigmoidGeneric.

Section SigmoidReal.
Local Open Scope R_scope.
Implicit Types (s : store R).

Lemma sigmoid_times_real (choice : list nat -> nat) s x (g : R) :
  wf_store s -> (x < length s)%nat ->
  let a := get_data s x in
  exists sg z s2,
    sigmoid_times x g s = Return (sg, z) s2 /\
    get_data s2 sg = 1 / (1 + Rtrigo_def.exp (- a)) /\
    forall s', backward (set_order choice) z s2 = Return tt s' ->
      get_grad s' sg = g /\
      get_grad s' x = get_data s2 sg * (1 - get_data s2 sg) * get_grad s' sg.
Proof.
  intros Hwf Hx a.
  pose proof (sigmoid_denominator_pos a) as Hd.
  destruct (sigmoid_times x g s) as [[sg z] s2|e s2] eqn:Hrun.
  2:{ exfalso. revert Hrun. unfold sigmoid_times, bind at 1. rewrite sigmoid_eq.
      fold a. cbn [m_exp real_float fneg fadd f1 pow_num to_float of_int rbind fpow].
      rewrite R_pow_inv by done. unfold bind, ret. rewrite mul_num_eq; [done|].
      rewrite length_app. simpl. lia. }
  exists sg, z, s2. split; [done|].
  assert (Hval : get_data s2 sg = 1 / (1 + Rtrigo_def.exp (- a))).
  { destruct (sigmoid_times_eq x g s sg z s2 Hrun) as (ed & pd & Ee & Ep & -> & -> & ->).
    fold a in Ee. cbn [m_exp real_float fneg] in Ee. injection Ee as <-.
    cbn [pow_num to_float of_int rbind fpow real_float fadd f1] in Ep.
    rewrite R_pow_inv in Ep by done. injection Ep as <-.
    rewrite (get_data_ext s _ 6). cbn. field. lra. }
  split; [done|]. intros s' Hback.
  destruct (sigmoid_times_backward choice s x g sg z s2 s' Hwf Hx Hrun Hback)
    as (ed & pd & gl & Ee & Ep & Hdata & Hgl & Hsg & Hgx).
  fold a in Ee. cbn [m_exp real_float fneg] in Ee. injection Ee as <-.
  rewrite Hgx, Hval. clear Hgx.
  unfold pow_grad_local in Hgl.
  cbn [feqb real_float fadd f1 f0 num_pred pow_num num_mul to_float of_int rbind fpow fmul] in Hgl.
  rewrite (R_eqb_false (Rtrigo_def.exp (- a) + 1) 0) in Hgl by lra.
  cbn [andb] in Hgl. change (-1 - 1)%Z with (-2)%Z in Hgl.
  rewrite R_pow_inv_sqr in Hgl by done. cbn [rbind] in Hgl. injection Hgl as <-.
  split.
  - rewrite Hsg. cbn. lra.
  - unfold sigmoid_rules. cbn [fadd fmul fneg f0 f1 real_float]. field. lra.
Qed.

End SigmoidReal.

(** ** Doubles: order and sums *)

Section Binary64Order.
Local Open Scope Z_scope.

Lemma pos_compare_cont_le m1 m2 :
  Pos.compare_cont Eq m1 m2 <> Gt <-> Z.pos m1 <= Z.pos m2.
Proof.
  change (Pos.compare_cont Eq m1 m2) with (Pos.compare m1 m2).
  destruct (Pos.compare_spec m1 m2); split; intros; try done; lia.
Qed.

Lemma pos_compare_cont_ge m1 m2 :
  CompOpp (Pos.compare_cont Eq m1 m2) <> Gt <-> Z.pos m2 <= Z.pos m1.
Proof.
  change (Pos.compare_cont Eq m1 m2) with (Pos.compare m1 m2).
  destruct (Pos.compare_spec m1 m2); split; intros; simpl in *; try done; lia.
Qed.

Lemma b64_leb_key x y :
  is_nan x = false -> is_nan y = false ->
  b64_leb x y = true <-> key_le (b64_key x) (b64_key y).
Proof.
  intros Hx Hy. unfold b64_leb, SFleb, SFcompare.
  destruct x as [sx|sx| |sx mx ex], y as [sy|sy| |sy my ey]; try done;
    try destruct sx; try destruct sy; cbn [b64_key key_le];
    try (split; intros H; first [done | lia | (exfalso; lia)]).
  - change (Pos.compare_cont Eq mx my) with (Pos.compare mx my).
    destruct (Z.compare_spec ex ey); [destruct (Pos.compare_spec mx my)|..];
      cbn [CompOpp]; split; intros H'; first [done | lia | (exfalso; lia)].
  - change (Pos.compare_cont Eq mx my) with (Pos.compare mx my).
    destruct (Z.compare_spec ex ey); [destruct (Pos.compare_spec mx my)|..];
      split; intros H'; first [done | lia | (exfalso; lia)].
Qed.

Lemma b64_leb_not_nan x y : b64_leb x y = true -> is_nan x = false /\ is_nan y = false.
Proof. by destruct x as [| | |], y as [| | |]. Qed.

Lemma b64_leb_refl x : is_nan x = false -> b64_leb x x = true.
Proof.
  intros Hx. apply b64_leb_key; [done..|].
  unfold key_le. destruct (b64_key x) as [[a b] c]. lia.
Qed.

Lemma b64_leb_total x y :
  is_nan x = false -> is_nan y = false -> b64_leb x y = false -> b64_leb y x = true.
Proof.
  intros Hx Hy Hxy. apply b64_leb_key; [done..|].
  assert (Hn : ~ key_le (b64_key x) (b64_key y)).
  { intros H. apply b64_leb_key in H; [congruence|done..]. }
  revert Hn. unfold key_le.
  destruct (b64_key x) as [[a b] c], (b64_key y) as [[a' b'] c']. lia.
Qed.

Lemma b64_leb_trans x y z :
  b64_leb x y = true -> b64_leb y z = true -> b64_leb x z = true.
Proof.
  intros Hxy Hyz.
  destruct (b64_leb_not_nan _ _ Hxy) as [Hx Hy].
  destruct (b64_leb_not_nan _ _ Hyz) as [_ Hz].
  apply b64_leb_key in Hxy; [|done..]. apply b64_leb_key in Hyz; [|done..].
  apply b64_leb_key; [done..|]. revert Hxy Hyz. unfold key_le.
  destruct (b64_key x) as [[a b] c], (b64_key y) as [[a' b'] c'],
    (b64_key z) as [[a'' b''] c'']. lia.
Qed.

End Binary64Order.

Section Binary64Arith.
Local Open Scope Z_scope.

Lemma digits2_pos_bounds m :
  2 ^ (Z.pos (digits2_pos m) - 1) <= Z.pos m < 2 ^ Z.pos (digits2_pos m).
Proof.
  induction m as [m IH|m IH|]; cbn [digits2_pos].
  - rewrite Pos2Z.inj_succ.
    replace (Z.succ (Z.pos (digits2_pos m)) - 1) with (Z.succ (Z.pos (digits2_pos m) - 1)) by lia.
    rewrite !Z.pow_succ_r by lia. lia.
  - rewrite Pos2Z.inj_succ.
    replace (Z.succ (Z.pos (digits2_pos m)) - 1) with (Z.succ (Z.pos (digits2_pos m) - 1)) by lia.
    rewrite !Z.pow_succ_r by lia. lia.
  - simpl. lia.
Qed.

Lemma pos_iter_xO m d : Z.pos (Pos.iter xO m d) = Z.pos m * 2 ^ Z.pos d.
Proof.
  revert m. induction d as [|d IH] using Pos.peano_ind; intros m.
  - simpl. lia.
  - rewrite Pos.iter_succ, Pos2Z.inj_succ, Z.pow_succ_r by lia.
    rewrite Pos2Z.inj_xO, IH. lia.
Qed.

(** Aligning a mantissa to a smaller exponent keeps the number. *)
Lemma shl_align_fst m e e' :
  e' <= e -> Z.pos (fst (shl_align m e e')) = Z.pos m * 2 ^ (e - e').
Proof.
  intros Hle. unfold shl_align.
  destruct (e' - e) as [|d|d] eqn:Ed; simpl.
  - replace (e - e') with 0 by lia. lia.
  - lia.
  - rewrite pos_iter_xO. f_equal. f_equal. lia.
Qed.

(** The exponent and the width of the mantissa of a double. *)
Lemma bounded_spec m e :
  bounded prec emax m e = true ->
  -1074 <= e /\ Z.pos (digits2_pos m) <= 53 /\
  (-1074 < e -> Z.pos (digits2_pos m) = 53).
Proof.
  unfold bounded, canonical_mantissa, fexp, emin, prec, emax.
  intros H. apply andb_true_iff in H as [H _]. apply Z.eqb_eq in H. lia.
Qed.

(** Of two doubles of the same sign, the one with the smaller exponent is
    the smaller. *)
Lemma bounded_exponent_lt m1 e1 m2 e2 :
  bounded prec emax m1 e1 = true -> bounded prec emax m2 e2 = true ->
  e1 < e2 -> Z.pos m1 < Z.pos m2 * 2 ^ (e2 - e1).
Proof.
  intros H1 H2 Hlt.
  destruct (bounded_spec _ _ H1) as (Hmin1 & Hd1 & _).
  destruct (bounded_spec _ _ H2) as (_ & _ & Hd2).
  specialize (Hd2 ltac:(lia)).
  pose proof (digits2_pos_bounds m1) as [_ Hu].
  pose proof (digits2_pos_bounds m2) as [Hl _]. rewrite Hd2 in Hl.
  assert (2 ^ Z.pos (digits2_pos m1) <= 2 ^ 53) by (apply Z.pow_le_mono_r; lia).
  assert (2 ^ 1 <= 2 ^ (e2 - e1)) by (apply Z.pow_le_mono_r; lia).
  change (2 ^ (53 - 1)) with 4503599627370496 in Hl.
  change (2 ^ 53) with 9007199254740992 in *. change (2 ^ 1) with 2 in *.
  nia.
Qed.

(** What rounding can give: a number of the sign it was given, or NaN. *)
Lemma binary_round_aux_shape sx mx ex lx :
  let r := binary_round_aux prec emax sx mx ex lx in
  r = S754_nan \/ r = S754_zero sx \/ r = S754_infinity sx \/
  exists m e, r = S754_finite sx m e.
Proof.
  unfold binary_round_aux.
  destruct (shr_fexp _ _ _ _ _) as [mrs' e'].
  destruct (shr_fexp _ _ _ _ _) as [mrs'' e''].
  destruct (shr_m mrs'') as [|m|m]; cbv zeta; auto.
  destruct (_ <=? _); eauto 6.
Qed.

Lemma binary_round_shape sx mx ex :
  let r := binary_round prec emax sx mx ex in
  r = S754_nan \/ r = S754_zero sx \/ r = S754_infinity sx \/
  exists m e, r = S754_finite sx m e.
Proof.
  unfold binary_round. destruct (shl_align _ _ _) as [mz ez].
  apply binary_round_aux_shape.
Qed.

Lemma binary_normalize_nonpositive z e :
  z <= 0 ->
  let r := binary_normalize prec emax z e false in
  is_nan r = true \/ nonpositive r = true.
Proof.
  intros Hz. destruct z as [|p|p]; [by right|lia|]. cbn [binary_normalize].
  destruct (binary_round_shape true p e) as [H|[H|[H|(m & e' & H)]]];
    cbv zeta in H; rewrite H; auto.
Qed.

(** A logit minus one that compares at least as large: not positive, or
    NaN (the difference of two equal infinities). *)
Lemma diff_nonpositive a m :
  valid_double a = true -> valid_double m = true ->
  b64_leb a m = true ->
  let d := SFadd prec emax a (SFopp m) in
  is_nan d = true \/ nonpositive d = true.
Proof.
  intros Va Vm Hle d. subst d.
  destruct (b64_leb_not_nan _ _ Hle) as [Ha Hm].
  apply b64_leb_key in Hle; [|done..].
  destruct a as [sa|sa| |sa ma ea], m as [sm|sm| |sm mm em]; try done;
    try destruct sa; try destruct sm; cbn [b64_key key_le] in Hle;
    try lia; cbn; auto.
  all: cbn [valid_double valid_binary] in Va, Vm.
  - (* both negative *)
    apply binary_normalize_nonpositive.
    assert (Hc : em < ea \/ (em = ea /\ Z.pos mm <= Z.pos ma)) by lia.
    destruct Hc as [Hlt|[-> Hmm]].
    + rewrite Z.min_r by lia.
      rewrite (shl_align_fst ma ea em) by lia.
      rewrite (shl_align_fst mm em em) by lia.
      rewrite Z.sub_diag, Z.mul_1_r. cbn [cond_Zopp negb].
      pose proof (bounded_exponent_lt mm em ma ea Vm Va Hlt). lia.
    + rewrite Z.min_id, !shl_align_fst, Z.sub_diag, !Z.mul_1_r by lia.
      cbn [cond_Zopp negb]. lia.
  - (* negative and positive *)
    apply binary_normalize_nonpositive. cbn [cond_Zopp negb]. lia.
  - (* both positive *)
    apply binary_normalize_nonpositive.
    assert (Hc : ea < em \/ (ea = em /\ Z.pos ma <= Z.pos mm)) by lia.
    destruct Hc as [Hlt|[-> Hmm]].
    + rewrite Z.min_l by lia.
      rewrite (shl_align_fst ma ea ea) by lia.
      rewrite (shl_align_fst mm em ea) by lia.
      rewrite Z.sub_diag, Z.mul_1_r. cbn [cond_Zopp negb].
      pose proof (bounded_exponent_lt ma ea mm em Va Vm Hlt). lia.
    + rewrite Z.min_id, !shl_align_fst, Z.sub_diag, !Z.mul_1_r by lia.
      cbn [cond_Zopp negb]. lia.
Qed.

(** A number minus itself is [+0.0]; an infinity minus itself is NaN. *)
Lemma diff_self m :
  is_nan m = false ->
  let d := SFadd prec emax m (SFopp m) in
  d = S754_zero false \/ d = S754_nan.
Proof.
  intros Hm. destruct m as [[]|[]| |sm mm em]; try done; cbn; auto.
  left. rewrite Z.min_id. unfold shl_align. rewrite Z.sub_diag. cbn [fst].
  destruct sm; cbn [cond_Zopp negb]; by rewrite ?Z.add_opp_diag_l, ?Z.add_opp_diag_r.
Qed.

End Binary64Arith.

Section Binary64Sum.
Local Open Scope Z_scope.

Lemma ge_one_mono m m' e : ge_one m e -> m <= m' -> ge_one m' e.
Proof. intros [H1 H2] Hle. split; [lia|]. intros He. specialize (H2 He). lia. Qed.

Lemma Zdigits2_bounds m :
  0 < m -> 2 ^ (Zdigits2 m - 1) <= m < 2 ^ Zdigits2 m.
Proof. destruct m as [|p|p]; try lia. intros _. apply digits2_pos_bounds. Qed.

Lemma ge_one_digits m e : ge_one m e -> 1 <= Zdigits2 m + e.
Proof.
  intros [Hm He]. pose proof (Zdigits2_bounds m Hm) as [Hl Hu].
  assert (0 < Zdigits2 m) by (destruct m; simpl; lia).
  destruct (Z_lt_le_dec e 0) as [Hneg|]; [|lia].
  specialize (He Hneg).
  destruct (Z_lt_le_dec (Zdigits2 m) (- e + 1)) as [Hlt|]; [|lia].
  assert (2 ^ Zdigits2 m <= 2 ^ (- e)) by (apply Z.pow_le_mono_r; lia). lia.
Qed.

Lemma shr_1_m mrs : 0 <= shr_m mrs -> shr_m (shr_1 mrs) = shr_m mrs / 2.
Proof.
  destruct mrs as [m r s]. cbn [shr_m]. intros Hm.
  destruct m as [|[p|p|]|p]; try lia.
  all: try done.
  - change (Z.pos p = Z.pos p~1 / 2).
    rewrite Pos2Z.inj_xI. apply Z.div_unique with (r := 1); lia.
  - change (Z.pos p = Z.pos p~0 / 2).
    rewrite Pos2Z.inj_xO. apply Z.div_unique with (r := 0); lia.
Qed.

Lemma iter_pos_shr_1 p mrs :
  0 <= shr_m mrs ->
  shr_m (SpecFloat.iter_pos shr_1 p mrs) = shr_m mrs / 2 ^ Z.pos p.
Proof.
  revert mrs. induction p as [p IH|p IH|]; intros mrs Hm; cbn [SpecFloat.iter_pos].
  - assert (H1 : 0 <= shr_m (shr_1 mrs)).
    { rewrite shr_1_m by done. apply Z.div_pos; lia. }
    assert (H2 : 0 <= shr_m (SpecFloat.iter_pos shr_1 p (shr_1 mrs))).
    { rewrite IH by done. apply Z.div_pos; lia. }
    rewrite IH, IH, shr_1_m by done.
    rewrite !Z.div_div by lia. f_equal.
    rewrite <- Z.pow_add_r by lia. change 2 with (2 ^ 1) at 1.
    rewrite <- Z.pow_add_r by lia. f_equal. lia.
  - assert (H2 : 0 <= shr_m (SpecFloat.iter_pos shr_1 p mrs)).
    { rewrite IH by done. apply Z.div_pos; lia. }
    rewrite IH, IH by done.
    rewrite Z.div_div by lia. f_equal.
    rewrite <- Z.pow_add_r by lia. f_equal. lia.
  - rewrite shr_1_m by done. f_equal.
Qed.

Lemma shr_record_of_loc_m m l : shr_m (shr_record_of_loc m l) = m.
Proof. by destruct l as [|[]]. Qed.

(** Shifting the mantissa to the exponent of the format keeps a number
    that is at least 1 at least 1. *)
Lemma shr_fexp_ge_one m e l :
  ge_one m e ->
  ge_one (shr_m (fst (shr_fexp prec emax m e l))) (snd (shr_fexp prec emax m e l)).
Proof.
  intros Hge. pose proof (ge_one_digits m e Hge) as Hd.
  destruct Hge as [Hm He]. pose proof (Zdigits2_bounds m Hm) as [Hl Hu].
  unfold shr_fexp, shr, fexp, emin, prec, emax.
  destruct (Z.max (Zdigits2 m + e - 53) (3 - 1024 - 53) - e) as [|p|p] eqn:En;
    cbn [fst snd]; rewrite ?shr_record_of_loc_m; try done.
  rewrite iter_pos_shr_1 by (rewrite shr_record_of_loc_m; lia).
  rewrite shr_record_of_loc_m.
  assert (Hp : Z.pos p = Zdigits2 m - 53) by lia.
  assert (Hdiv : 2 ^ 52 <= m / 2 ^ Z.pos p).
  { apply Z.div_le_lower_bound; [lia|].
    rewrite <- Z.pow_add_r by lia.
    replace (Z.pos p + 52) with (Zdigits2 m - 1) by lia. lia. }
  split; [lia|]. intros Hneg.
  assert (2 ^ (- (e + Z.pos p)) <= 2 ^ 52) by (apply Z.pow_le_mono_r; lia). lia.
Qed.

Lemma round_nearest_even_ge m l : m <= round_nearest_even m l.
Proof. destruct l as [|[]]; cbn; try destruct (Z.even m); lia. Qed.

Lemma binary_round_aux_ge_one mx ex lx :
  ge_one mx ex ->
  let r := binary_round_aux prec emax false mx ex lx in
  r = S754_infinity false \/ at_least_one r = true.
Proof.
  intros Hge. unfold binary_round_aux.
  pose proof (shr_fexp_ge_one mx ex lx Hge) as H1.
  destruct (shr_fexp prec emax mx ex lx) as [mrs' e']. cbn [fst snd] in H1.
  pose proof (shr_fexp_ge_one _ e' loc_Exact
                (ge_one_mono _ _ _ H1 (round_nearest_even_ge _ (loc_of_shr_record mrs'))))
    as H2.
  destruct (shr_fexp prec emax _ e' loc_Exact) as [mrs'' e'']. cbn [fst snd] in H2.
  destruct H2 as [Hpos Hval]. cbv zeta.
  destruct (shr_m mrs'') as [|m|m]; try lia.
  destruct (e'' <=? emax - prec); [right|by left].
  cbn [at_least_one]. apply orb_true_iff.
  destruct (Z_lt_le_dec e'' 0) as [Hneg|Hnn].
  - right. apply Z.leb_le. by apply Hval.
  - left. by apply Z.leb_le.
Qed.

Lemma binary_round_ge_one m e :
  ge_one (Z.pos m) e ->
  let r := binary_round prec emax false m e in
  r = S754_infinity false \/ at_least_one r = true.
Proof.
  intros [Hm He]. unfold binary_round.
  destruct (shl_align m e (fexp prec emax (Z.pos (digits2_pos m) + e))) as [mz ez] eqn:Es.
  apply binary_round_aux_ge_one.
  unfold shl_align in Es.
  destruct (fexp prec emax (Z.pos (digits2_pos m) + e) - e) as [|d|d] eqn:Ed;
    injection Es as <- <-; try done.
  split; [lia|]. intros Hneg. rewrite pos_iter_xO.
  set (et := fexp prec emax (Z.pos (digits2_pos m) + e)) in *.
  assert (Hd : Z.pos d = e - et) by lia.
  destruct (Z_lt_le_dec e 0) as [Hen|Hep].
  - specialize (He Hen).
    replace (- et) with (- e + Z.pos d) by lia.
    rewrite Z.pow_add_r by lia. nia.
  - assert (2 ^ (- et) <= 2 ^ Z.pos d) by (apply Z.pow_le_mono_r; lia). nia.
Qed.

Lemma at_least_one_ge_one x :
  at_least_one x = true -> exists m e, x = S754_finite false m e /\ ge_one (Z.pos m) e.
Proof.
  destruct x as [| | |[] m e]; try done. cbn [at_least_one]. intros H.
  exists m, e. split; [done|]. split; [lia|]. intros He.
  apply orb_true_iff in H as [H|H]; [apply Z.leb_le in H; lia|by apply Z.leb_le].
Qed.

(** Adding a finite number that is not negative to one that is at least
    1 gives a number that is at least 1, or overflows. *)
Lemma add_at_least_one x y :
  at_least_one x = true -> nonneg_finite y = true ->
  SFadd prec emax x y = S754_infinity false \/
  at_least_one (SFadd prec emax x y) = true.
Proof.
  intros Hx Hy. pose proof Hx as Hx'.
  apply at_least_one_ge_one in Hx as (mx & ex & -> & Hm & He).
  destruct y as [sy| | |[] my ey]; try done; [by right|].
  cbn [SFadd cond_Zopp].
  rewrite !shl_align_fst by lia.
  set (ez := Z.min ex ey).
  assert (0 < 2 ^ (ex - ez)) by (apply Z.pow_pos_nonneg; lia).
  assert (0 < 2 ^ (ey - ez)) by (apply Z.pow_pos_nonneg; lia).
  destruct (Z.pos mx * 2 ^ (ex - ez) + Z.pos my * 2 ^ (ey - ez)) as [|p|p] eqn:Ep;
    try nia.
  cbn [binary_normalize]. apply binary_round_ge_one.
  split; [lia|]. intros Hneg. rewrite <- Ep.
  assert (2 ^ (- ez) <= Z.pos mx * 2 ^ (ex - ez)).
  { destruct (Z_lt_le_dec ex 0) as [Hen|Hep].
    - specialize (He Hen). replace (- ez) with (- ex + (ex - ez)) by lia.
      rewrite Z.pow_add_r by lia. nia.
    - assert (2 ^ (- ez) <= 2 ^ (ex - ez)) by (apply Z.pow_le_mono_r; lia). nia. }
  nia.
Qed.

Lemma SFadd_comm_finite sx mx ex sy my ey :
  SFadd prec emax (S754_finite sx mx ex) (S754_finite sy my ey)
  = SFadd prec emax (S754_finite sy my ey) (S754_finite sx mx ex).
Proof. cbn [SFadd]. by rewrite Z.min_comm, Z.add_comm. Qed.

Lemma add_at_least_one_r x y :
  nonneg_finite x = true -> at_least_one y = true ->
  SFadd prec emax x y = S754_infinity false \/
  at_least_one (SFadd prec emax x y) = true.
Proof.
  intros Hx Hy. destruct x as [sx| | |[] mx ex]; try done.
  - destruct y as [| | |[] my ey]; try done. by right.
  - destruct y as [| | |[] my ey]; try done.
    rewrite SFadd_comm_finite. by apply add_at_least_one.
Qed.

(** The sum of two finite numbers that are not negative is not negative:
    finite, or [+inf] by overflow. *)
Lemma add_nonneg x y :
  nonneg_finite x = true -> nonneg_finite y = true ->
  let r := SFadd prec emax x y in
  is_nan r = true \/ r = S754_infinity false \/ nonneg_finite r = true.
Proof.
  intros Hx Hy.
  destruct x as [sx| | |[] mx ex], y as [sy| | |[] my ey]; try done; cbn [SFadd];
    try (by right; right); try (destruct sx, sy; by right; right).
  cbn [cond_Zopp].
  destruct (Z.pos (fst (shl_align mx ex (Z.min ex ey))) +
            Z.pos (fst (shl_align my ey (Z.min ex ey)))) as [|p|p] eqn:Ep; try lia.
  cbn [binary_normalize].
  destruct (binary_round_shape false p (Z.min ex ey)) as [H|[H|[H|(m & e' & H)]]];
    cbv zeta in H; rewrite H; auto.
Qed.

End Binary64Sum.

(** ** [stable_softmax] in binary64 *)

Lemma softmax_max_elem {F : Type} {PF : PyFloat F} (s : store F) v0 rest :
  softmax_max s v0 rest ∈ v0 :: rest.
Proof.
  revert v0. induction rest as [|v rest IH]; intros v0; simpl.
  - apply list_elem_of_here.
  - match goal with |- context [if ?c then _ else _] => destruct c end.
    + specialize (IH v0). rewrite !elem_of_cons in *. tauto.
    + specialize (IH v). rewrite !elem_of_cons in *. tauto.
Qed.

Section SoftmaxBinary64.
Context {L : libm}.
Implicit Types (s : store binary64) (v u : nat).

Lemma b64_one_at_least_one : at_least_one b64_one = true.
Proof. reflexivity. Qed.

Lemma add_sum_low a e :
  sum_low a = true -> summand e = true -> sum_low (SFadd prec emax a e) = true.
Proof.
  unfold sum_low, summand. intros Ha He.
  destruct (is_nan a) eqn:Ea; [by destruct a|].
  destruct (is_nan e) eqn:Ee; [by destruct e, a|].
  cbn [orb] in *.
  destruct (plus_infinity a) eqn:Ep.
  { destruct a as [|[]| |]; try done. by destruct e as [| | |[]]. }
  cbn [orb] in *.
  destruct (add_nonneg a e Ha He) as [->|[->| ->]]; by rewrite ?orb_true_r.
Qed.

Lemma add_sum_high a e :
  sum_high a = true -> summand e = true -> sum_high (SFadd prec emax a e) = true.
Proof.
  unfold sum_high, summand. intros Ha He.
  destruct (is_nan a) eqn:Ea; [by destruct a|].
  destruct (is_nan e) eqn:Ee; [by destruct e, a|].
  cbn [orb] in *.
  destruct (plus_infinity a) eqn:Ep.
  { destruct a as [|[]| |]; try done. by destruct e as [| | |[]]. }
  cbn [orb] in *.
  destruct (add_at_least_one a e Ha He) as [->| ->]; by rewrite ?orb_true_r.
Qed.

Lemma add_sum_anchor a e :
  sum_low a = true -> is_nan e || at_least_one e = true ->
  sum_high (SFadd prec emax a e) = true.
Proof.
  unfold sum_low, sum_high. intros Ha He.
  destruct (is_nan a) eqn:Ea; [by destruct a|].
  destruct (is_nan e) eqn:Ee; [by destruct e, a|].
  cbn [orb] in *.
  destruct (plus_infinity a) eqn:Ep.
  { destruct a as [|[]| |]; try done. by destruct e as [| | |[]]. }
  cbn [orb] in *.
  destruct (add_at_least_one_r a e Ha He) as [->| ->]; by rewrite ?orb_true_r.
Qed.

Lemma foldl_sum_high a l :
  sum_high a = true -> Forall (fun e => summand e = true) l ->
  sum_high (foldl (SFadd prec emax) a l) = true.
Proof.
  revert a. induction l as [|e l IH]; intros a Ha Hl; simpl; [done|].
  apply Forall_cons in Hl as [He Hl]. apply IH; [|done]. by apply add_sum_high.
Qed.

Lemma foldl_sum_anchor a l :
  sum_low a = true -> Forall (fun e => summand e = true) l ->
  Exists (fun e => is_nan e || at_least_one e = true) l ->
  sum_high (foldl (SFadd prec emax) a l) = true.
Proof.
  revert a. induction l as [|e l IH]; intros a Ha Hl Hex; simpl.
  { by apply Exists_nil in Hex. }
  apply Forall_cons in Hl as [He Hl].
  apply Exists_cons in Hex as [Hex|Hex].
  - apply foldl_sum_high; [|done]. by apply add_sum_anchor.
  - apply IH; [|done..]. by apply add_sum_low.
Qed.


Lemma softmax_max_ge s v0 rest :
  is_nan (get_data s v0) = false ->
  Forall (fun v => is_nan (get_data s v) = false) rest ->
  forall v, v ∈ v0 :: rest ->
    b64_leb (get_data s v) (get_data s (softmax_max s v0 rest)) = true.
Proof.
  revert v0. induction rest as [|u rest IH]; intros v0 H0 Hrest v Hv.
  - apply list_elem_of_singleton in Hv as ->. by apply b64_leb_refl.
  - apply Forall_cons in Hrest as [Hu Hrest]. cbn [softmax_max].
    change (fleb (get_data s u) (get_data s v0))
      with (b64_leb (get_data s u) (get_data s v0)).
    destruct (b64_leb (get_data s u) (get_data s v0)) eqn:Hle.
    + apply elem_of_cons in Hv as [->|Hv];
        [by apply IH; [..|apply list_elem_of_here]|].
      apply elem_of_cons in Hv as [->|Hv].
      * eapply b64_leb_trans; [exact Hle|].
        by apply IH; [..|apply list_elem_of_here].
      * by apply IH; [..|apply list_elem_of_further].
    + apply elem_of_cons in Hv as [->|Hv].
      * eapply b64_leb_trans; [by apply b64_leb_total|].
        by apply IH; [..|apply list_elem_of_here].
      * by apply IH.
Qed.

Lemma exp_returns_b64 x :
  libm_regular L ->
  is_nan x = true \/ nonpositive x = true ->
  m_exp x = Ok (c_exp x) /\ summand (c_exp x) = true.
Proof.
  intros HL Hx. cbn [m_exp binary64_float]. unfold math_1, summand.
  destruct Hx as [Hx|Hx].
  - destruct x; try done. rewrite (exp_nan L HL). done.
  - pose proof (exp_nonpositive L HL x Hx) as Hr.
    destruct (c_exp x) as [| | |[]]; try done.
Qed.

(** One turn of the first loop: [(v - max_val).exp()]. *)
Lemma exp_shift_b64 v mx s0 :
  libm_regular L ->
  v < length s0 -> mx < length s0 ->
  valid_double (get_data s0 v) = true -> valid_double (get_data s0 mx) = true ->
  b64_leb (get_data s0 v) (get_data s0 mx) = true ->
  exists e s1,
    bind (__sub__ v (OValue mx)) exp s0 = Return e s1 /\
    s0 `prefix_of` s1 /\ e < length s1 /\
    get_data s1 e = c_exp (SFadd prec emax (get_data s0 v) (SFopp (get_data s0 mx))) /\
    summand (get_data s1 e) = true.
Proof.
  intros HL Hv Hmx Vv Vm Hle. unfold bind. rewrite sub_eq by done. rewrite exp_eq.
  assert (Hd : forall (n1 n2 : Value binary64),
            get_data (s0 ++ [n1; n2]) (S (length s0)) = data n2).
  { intros n1 n2. unfold get_data. rewrite lookup_app_r by lia.
    by replace (S (length s0) - length s0)%nat with 1%nat by lia. }
  rewrite Hd. cbn [data node fadd fneg binary64_float].
  destruct (exp_returns_b64 _ HL (diff_nonpositive _ _ Vv Vm Hle)) as [-> Hs].
  eexists _, _. split; [reflexivity|]. split.
  { repeat apply prefix_app_r. reflexivity. }
  split.
  { rewrite !length_app. simpl. lia. }
  rewrite get_data_last. cbn [data node]. done.
Qed.

Lemma pow_reciprocal_returns D :
  libm_regular L -> sum_high D = true ->
  exists p, pow_num D (PyInt (-1)) = Ok p.
Proof.
  intros HL HD. unfold pow_num, to_float.
  change (of_int (-1)) with (b64_of_int (-1)).
  assert (Hint : b64_of_int (-1) = Ok (b64_of_Z (-1))) by reflexivity.
  rewrite Hint. cbn [rbind fpow binary64_float].
  unfold sum_high in HD.
  destruct D as [sD|[]| |[] m e]; try done; try (by eexists).
  cbn [is_nan plus_infinity orb] in HD.
  pose proof (pow_reciprocal L HL _ HD) as Hp.
  unfold b64_pow.
  change (b64_eqb (b64_of_Z (-1)) b64_zero) with false.
  change (is_nan (b64_of_Z (-1))) with false.
  change (is_inf (b64_of_Z (-1))) with false.
  cbn [is_nan is_inf]. 
  change (b64_eqb (S754_finite false m e) b64_zero) with false.
  change (b64_ltb (S754_finite false m e) b64_zero) with false.
  cbn [andb]. cbv zeta.
  destruct (b64_eqb _ b64_one); [by eexists|].
  rewrite Hp. by eexists.
Qed.

(** One turn of the second loop: [e / denom]. *)
Lemma truediv_b64 e dn s0 :
  libm_regular L -> e < length s0 -> dn < length s0 ->
  sum_high (get_data s0 dn) = true ->
  exists p s1,
    __truediv__ e (OValue dn) s0 = Return p s1 /\ s0 `prefix_of` s1.
Proof.
  intros HL He Hdn HD. unfold __truediv__, bind, _ensure_value, ret.
  rewrite pow_eq. destruct (pow_reciprocal_returns _ HL HD) as [p ->].
  rewrite mul_eq. eexists _, _. split; [reflexivity|].
  repeat apply prefix_app_r. reflexivity.
Qed.

(** In binary64, [stable_softmax] returns on every non-empty list of
    logits that hold doubles none of which is NaN: the maximum it
    subtracts keeps every argument of [math.exp] at or below zero, and
    the exponential of the maximum itself keeps the denominator at or
    above 1. *)
Lemma softmax_returns_b64 (logits : list nat) s :
  libm_regular L ->
  logits <> [] ->
  Forall (fun v => v < length s /\
                   is_nan (get_data s v) = false /\
                   valid_double (get_data s v) = true) logits ->
  exists probs s',
    stable_softmax logits s = Return probs s' /\ length probs = length logits.
Proof.
  intros HL Hne Hall. destruct logits as [|v0 rest]; [done|].
  unfold stable_softmax. unfold bind at 1.
  set (logits := v0 :: rest) in *.
  set (mx := softmax_max s v0 rest).
  assert (Hin : mx ∈ logits) by apply softmax_max_elem.
  pose proof (proj1 (Forall_forall _ _) Hall) as Hall'.
  destruct (Hall' mx Hin) as (Hmx & Nmx & Vmx).
  assert (Hge : forall v, v ∈ logits ->
            b64_leb (get_data s v) (get_data s mx) = true).
  { apply softmax_max_ge.
    - by destruct (Hall' v0 (list_elem_of_here _ _)) as (_ & ? & _).
    - apply Forall_forall. intros u Hu.
      by destruct (Hall' u (list_elem_of_further _ _ _ Hu)) as (_ & ? & _). }
  set (M := get_data s mx) in *.
  (* the exponentials *)
  destruct (mapM_rel (fun s0 => s `prefix_of` s0)
              (fun v e s0 => e < length s0 /\
                 get_data s0 e = c_exp (SFadd prec emax (get_data s v) (SFopp M)) /\
                 summand (get_data s0 e) = true)
              (fun v => bind (__sub__ v (OValue mx)) exp) logits)
    with (s := s) as (exps & s1 & Hexps & Hpre1 & Hrel1); [| | |done|].
  { intros s0 s0' Hp Hs0. by etrans. }
  { intros v e s0 s0' Hp (He & Hd & Hs). 
    rewrite (get_data_prefix s0 s0') by done. split; [|done].
    apply prefix_length in Hp. lia. }
  { intros v s0 Hv Hs0.
    destruct (Hall' v Hv) as (Hvl & Nv & Vv).
    pose proof (prefix_length _ _ Hs0) as Hlen0.
    destruct (exp_shift_b64 v mx s0 HL) as (e & s1 & Hrun & Hp & He & Hd & Hs);
      [lia|lia|rewrite ?(get_data_prefix s s0) by done..|].
    { done. }
    { done. }
    { by apply Hge. }
    exists e, s1. split; [done|]. split; [done|]. split; [done|].
    split; [|done]. by rewrite Hd, !(get_data_prefix s s0). }
  unfold bind at 1. rewrite Hexps.
  assert (Hlt1 : Forall (fun e => e < length s1) exps).
  { clear -Hrel1. induction Hrel1 as [|???? [? _] _ IH]; by constructor. }
  assert (Hsum1 : Forall (fun x => summand x = true) (get_data s1 <$> exps)).
  { clear -Hrel1. induction Hrel1 as [|???? (_ & _ & ?) _ IH]; by constructor. }
  assert (Hanchor : Exists (fun x => is_nan x || at_least_one x = true)
                      (get_data s1 <$> exps)).
  { apply Exists_exists.
    destruct (list_elem_of_lookup_1 _ _ Hin) as [i Hi].
    destruct (Forall2_lookup_l _ _ _ _ _ Hrel1 Hi) as (e & He & _ & Hd & _).
    exists (get_data s1 e). split.
    - apply list_elem_of_fmap. exists e. split; [done|].
      by eapply list_elem_of_lookup_2.
    - rewrite Hd. fold M.
      destruct (diff_self M Nmx) as [-> | ->].
      + by rewrite (exp_zero L HL).
      + by rewrite (exp_nan L HL). }
  (* the denominator *)
  destruct (tensor_sum_spec exps s1 Hlt1) as (dn & s2 & Hsum & Hpre2 & Hlen2 & Hdn & Hddn).
  unfold bind at 1. rewrite Hsum.
  assert (HD : sum_high (get_data s2 dn) = true).
  { rewrite Hddn. by apply foldl_sum_anchor. }
  (* the probabilities *)
  destruct (mapM_rel (fun s0 => s2 `prefix_of` s0) (fun _ _ _ => True)
              (fun e => __truediv__ e (OValue dn)) exps)
    with (s := s2) as (probs & s3 & Hprobs & Hpre3 & Hrel3); [| | |done|].
  { intros s0 s0' Hp Hs0. by etrans. }
  { done. }
  { intros e s0 He Hs0.
    apply (proj1 (Forall_forall _ _) Hlt1) in He.
    pose proof (prefix_length _ _ Hpre2) as Hl12.
    pose proof (prefix_length _ _ Hs0) as Hl20.
    destruct (truediv_b64 e dn s0 HL) as (p & s' & Hrun & Hp); [lia..| |].
    { by rewrite (get_data_prefix s2 s0). }
    by exists p, s'. }
  rewrite Hprobs. exists probs, s3. split; [done|].
  apply Forall2_length in Hrel1, Hrel3. lia.
Qed.

End SoftmaxBinary64.

Lemma libm_steep_regular : libm_regular libm_steep.
Proof.
  split.
  - intros [sx|[]| |[] m e] Hx; try done; reflexivity.
  - reflexivity.
  - reflexivity.
  - reflexivity.
Qed.

(** In binary64 [x.sigmoid()] stops at [math.exp] where [exp(-x)]
    overflows: only the negation has been allocated. *)
Lemma sigmoid_raises_b64 {L : libm} (s : store binary64) x :
  is_finite (get_data s x) = true ->
  is_inf (c_exp (SFopp (get_data s x))) = true ->
  sigmoid x s
  = Raise OverflowError
      (s ++ [node (SFopp (get_data s x)) [x] op_neg (bw_neg x (length s))]).
Proof.
  intros Hfin Hinf. rewrite sigmoid_eq. cbv zeta.
  cbn [m_exp fneg binary64_float]. unfold math_1.
  assert (Hf : is_finite (SFopp (get_data s x)) = true)
    by by destruct (get_data s x).
  rewrite Hf, Hinf. by destruct (c_exp _).
Qed.

(** ** The claims on [sigmoid] and [stable_softmax] *)

(** C7 (amended): in every float arithmetic and on every node [x],
    [x.sigmoid()] is the composition and nothing else: it allocates [-x],
    its [exp], two constants 1.0, the sum, the power [** -1] and the
    product, each with the rule of its operation, and relabels the
    product; it raises where [math.exp] or the power raises, and
    otherwise its value is [1.0 * (exp(-x) + 1.0) ** -1] evaluated in
    that arithmetic.  With [z = sigmoid(x) * g] on a graph the operations
    built, when [z.backward()] returns the gradient of [x] is what the
    rules of the product, the power, the sum, [exp] and the negation hand
    down from the gradient of the sigmoid node.  In exact arithmetic the
    value is [1 / (1 + exp(-x))] and the gradient of [x] is
    [sigmoid(x) * (1 - sigmoid(x))] times the gradient of the sigmoid
    node; on a fresh leaf [backward] does return.  In binary64
    [x.sigmoid()] raises OverflowError on every finite [x] at which
    [exp(-x)] overflows. *)
Theorem C7_sigmoid_by_composition :
  (forall (F : Type) (PF : PyFloat F) (s : store F) (x : nat),
     let a := get_data s x in
     let L := length s in
     sigmoid x s
     = match m_exp (fneg a) with
       | Err e => Raise e (s ++ take 1 (sigmoid_nodes x L a f0 f0))
       | Ok ed =>
           match pow_num (fadd ed f1) (PyInt (-1)) with
           | Err e => Raise e (s ++ take 5 (sigmoid_nodes x L a ed f0))
           | Ok pd => Return (L + 6) (s ++ sigmoid_nodes x L a ed pd)
           end
       end) /\
  (forall (F : Type) (PF : PyFloat F) (choice : list nat -> nat)
          (s : store F) (x : nat) (g : F) sg z s2 s',
     wf_store s -> x < length s ->
     sigmoid_times x g s = Return (sg, z) s2 ->
     backward (set_order choice) z s2 = Return tt s' ->
     exists ed pd grad_local,
       m_exp (fneg (get_data s x)) = Ok ed /\
       pow_num (fadd ed f1) (PyInt (-1)) = Ok pd /\
       get_data s2 sg = fmul f1 pd /\
       pow_grad_local (fadd ed f1) (PyInt (-1)) = Ok grad_local /\
       get_grad s' sg = fadd f0 (fmul g f1) /\
       get_grad s' x = sigmoid_rules ed grad_local (get_grad s' sg)) /\
  (forall (choice : list nat -> nat) (s : store R) (x : nat) (g : R),
     wf_store s -> x < length s ->
     exists sg z s2,
       sigmoid_times x g s = Return (sg, z) s2 /\
       get_data s2 sg = (1 / (1 + Rtrigo_def.exp (- get_data s x)))%R /\
       forall s', backward (set_order choice) z s2 = Return tt s' ->
         get_grad s' sg = g /\
         get_grad s' x
         = (get_data s2 sg * (1 - get_data s2 sg) * get_grad s' sg)%R) /\
  (forall (a g : R) (choice : list nat -> nat),
     exists x sg z s s',
       sigmoid_scaled a g [] = Return (x, sg, z) s /\
       get_data s sg = (1 / (1 + Rtrigo_def.exp (- a)))%R /\
       backward (set_order choice) z s = Return tt s' /\
       get_grad s' sg = g /\
       get_grad s' x
       = (get_data s sg * (1 - get_data s sg) * get_grad s' sg)%R) /\
  (forall (L : libm) (s : store binary64) (x : nat),
     is_finite (get_data s x) = true ->
     is_inf (c_exp (SFopp (get_data s x))) = true ->
     sigmoid x s
     = Raise OverflowError
         (s ++ [node (SFopp (get_data s x)) [x] op_neg (bw_neg x (length s))])).
Proof.
  split; [|split; [|split; [|split]]]; [| | | |intros L; apply sigmoid_raises_b64].
  - intros F PF s x. apply sigmoid_eq.
  - intros F PF choice s x g sg z s2 s'. apply sigmoid_times_backward.
  - intros choice s x g Hwf Hx. by apply sigmoid_times_real.
  - intros a g choice.
    destruct (sigmoid_fresh_leaf_real a g choice)
      as (x & sg & z & s & s' & Hrun & _ & Hval & Hback & Hsg & Hx).
    by exists x, sg, z, s, s'.
Qed.

(** C7 (the claim as stated fails): with a C library whose [exp]
    overflows at 1000.0, as every one does, [x.sigmoid()] has no value at
    all on some nodes: on [x = Value(-1000.0)] it raises
    OverflowError. *)
Lemma C7_counterexample :
  ~ (forall (L : libm),
       c_exp (b64_of_Z 1000) = S754_infinity false ->
       forall (s : store binary64) (x : nat),
         x < length s ->
         exists sg s', sigmoid x s = Return sg s').
Proof.
  intros Hclaim.
  assert (Hexp : c_exp (libm := libm_overflow) (b64_of_Z 1000) = S754_infinity false)
    by (vm_compute; reflexivity).
  destruct (Hclaim libm_overflow Hexp large_negative 0) as (sg & s' & Hret).
  { vm_compute. lia. }
  vm_compute in Hret. discriminate Hret.
Qed.

(** C10 (amended): [stable_softmax] of the empty list returns the empty
    list and leaves the store as it is; on any input, when it returns,
    there are as many probabilities as logits; in binary64, with any C
    library that is regular on the arguments met, it returns on every
    non-empty list of logits that hold doubles none of which is NaN; and
    in exact arithmetic it returns on every non-empty input. *)
Theorem C10_softmax_lengths :
  (forall (F : Type) (PF : PyFloat F) (s : store F),
     stable_softmax [] s = Return [] s) /\
  (forall (F : Type) (PF : PyFloat F) (logits : list nat) (s : store F) probs s',
     stable_softmax logits s = Return probs s' -> length probs = length logits) /\
  (forall (L : libm) (logits : list nat) (s : store binary64),
     libm_regular L ->
     logits <> [] ->
     Forall (fun v => v < length s /\
                      is_nan (get_data s v) = false /\
                      valid_double (get_data s v) = true) logits ->
     exists probs s',
       stable_softmax logits s = Return probs s' /\ length probs = length logits) /\
  (forall (logits : list nat) (s : store R),
     logits <> [] ->
     exists probs s',
       stable_softmax logits s = Return probs s' /\ length probs = length logits).
Proof.
  split; [|split; [|split]].
  - done.
  - intros F PF logits s probs s'. apply stable_softmax_length.
  - intros L logits s. apply softmax_returns_b64.
  - apply softmax_returns_real.
Qed.

(** ** Instances of the properties above *)

Lemma topo_order_reachable_witness :
  let L : libm := libm_overflow in
  let s : store binary64 := final_store (xy_plus_y []) in
  topo_order (set_order (fun _ => 0)) s 3 = Some [0; 1; 2; 3] /\
  NoDup [0; 1; 2; 3] /\
  forall u, u ∈ [0; 1; 2; 3] <-> reachable s 3 u.
Proof.
  intros L s.
  assert (HT : topo_order (set_order (fun _ => 0)) s 3 = Some [0; 1; 2; 3])
    by (vm_compute; reflexivity).
  split; [exact HT|].
  exact (topo_order_reachable (fun _ => 0) s 3 [0; 1; 2; 3] HT).
Defined.

Lemma topo_order_parents_first_witness :
  let L : libm := libm_overflow in
  let s : store binary64 := final_store (xy_plus_y []) in
  wf_store s /\
  topo_order (set_order (fun _ => 0)) s 3 = Some [0; 1; 2; 3] /\
  [0; 1; 2; 3] = [0; 1] ++ 2 :: [3] /\
  1 ∈ get_prev s 2 /\
  1 ∈ [0; 1].
Proof.
  intros L s.
  assert (Hwf : wf_store s) by (apply wf_storeb_sound; vm_compute; reflexivity).
  assert (HT : topo_order (set_order (fun _ => 0)) s 3 = Some [0; 1; 2; 3])
    by (vm_compute; reflexivity).
  assert (Hsplit : [0; 1; 2; 3] = [0; 1] ++ 2 :: [3]) by reflexivity.
  assert (Hc : 1 ∈ get_prev s 2).
  { change (1 ∈ [0; 1]). apply list_elem_of_further, list_elem_of_here. }
  split; [exact Hwf|]. split; [exact HT|]. split; [exact Hsplit|]. split; [exact Hc|].
  exact (topo_order_parents_first (fun _ => 0) s 3 [0; 1; 2; 3] [0; 1] 2 [3] 1
           Hwf HT Hsplit Hc).
Defined.

Lemma backward_unreachable_grad_witness :
  let L : libm := libm_overflow in
  let s : store binary64 := final_store (product []) in
  wf_store s /\
  ~ reachable s 0 1 /\
  get_grad (final_store (backward (set_order (fun _ => 0)) 0 s)) 1 = get_grad s 1.
Proof.
  intros L s.
  assert (Hwf : wf_store s) by (apply wf_storeb_sound; vm_compute; reflexivity).
  assert (Hn : ~ reachable s 0 1).
  { intros Hr. apply reachable_le in Hr; [lia|exact Hwf]. }
  split; [exact Hwf|]. split; [exact Hn|].
  exact (backward_unreachable_grad (fun _ => 0) s 0 1 Hwf Hn).
Defined.

Lemma truediv_by_zero_witness :
  let L : libm := libm_overflow in
  let s : store binary64 := [node b64_zero [] op_leaf bw_none] in
  b64_eqb (get_data s 0) b64_zero = true /\
  __truediv__ 0 (OValue 0) s = Raise ZeroDivisionError s.
Proof.
  intros L s.
  assert (Hy : b64_eqb (get_data s 0) b64_zero = true) by reflexivity.
  split; [exact Hy|].
  exact (proj1 (truediv_by_zero s 0 0 Hy)).
Defined.

Lemma sigmoid_overflow_witness :
  let L : libm := libm_overflow in
  let s : store binary64 := [node (b64_of_Z (-1000)) [] op_leaf bw_none] in
  is_finite (get_data s 0) = true /\
  is_inf (c_exp (SFopp (get_data s 0))) = true /\
  sigmoid 0 s
  = Raise OverflowError
      (s ++ [node (SFopp (get_data s 0)) [0] op_neg (bw_neg 0 (length s))]).
Proof.
  intros L s.
  assert (Hfin : is_finite (get_data s 0) = true) by (vm_compute; reflexivity).
  assert (Hinf : is_inf (c_exp (SFopp (get_data s 0))) = true)
    by (vm_compute; reflexivity).
  split; [exact Hfin|]. split; [exact Hinf|].
  exact (sigmoid_overflow s 0 Hfin Hinf).
Defined.

Lemma tensor_sum_fold_witness :
  Forall (fun v => v < length (one_param (F := R))) [0] /\
  exists d s',
    tensor_sum [0] (one_param (F := R)) = Return d s' /\
    one_param `prefix_of` s' /\
    length s' = length (one_param (F := R)) + S (length [0]) /\
    get_data s' d = foldl fadd f0 (get_data (one_param (F := R)) <$> [0]).
Proof.
  assert (Hall : Forall (fun v => v < length (one_param (F := R))) [0]).
  { constructor; [simpl; lia|constructor]. }
  split; [exact Hall|].
  exact (tensor_sum_fold [0] one_param Hall).
Defined.

Lemma CrossEntropyLoss_no_hot_target_witness :
  let L : libm := libm_overflow in
  let targets : list (pynum binary64) := [PyFl b64_zero] in
  Forall (fun t => is_one t = false) targets /\
  stable_softmax [] (@nil (Value binary64)) = Return [] [] /\
  CrossEntropyLoss [] targets []
  = Return (length (@nil (Value binary64))) ([] ++ [node f0 [] op_leaf bw_none]).
Proof.
  intros L targets.
  assert (Hall : Forall (fun t => is_one t = false) targets).
  { constructor; [reflexivity|constructor]. }
  assert (Hsoft : stable_softmax [] (@nil (Value binary64)) = Return [] [])
    by reflexivity.
  split; [exact Hall|]. split; [exact Hsoft|].
  exact (CrossEntropyLoss_no_hot_target [] targets [] [] [] Hall Hsoft).
Defined.

Lemma SGD_step_update_witness :
  let o : SGD R := SGD_default [0] in
  NoDup (sgd_params o) /\
  length (SGD_step o one_param).2 = length (one_param (F := R)).
Proof.
  intros o.
  assert (Hnd : NoDup (sgd_params o)) by (apply NoDup_singleton).
  split; [exact Hnd|].
  exact (proj1 (proj2 (SGD_step_update o one_param Hnd))).
Defined.

Lemma Adam_step_update_witness :
  exists (o' : Adam R) (s' : store R),
    NoDup (params (Adam_default (F := R) [0])) /\
    Adam_step (Adam_default [0]) one_param = (o', Return tt s') /\
    _t o' = (_t (Adam_default (F := R) [0%nat]) + 1)%Z.
Proof.
  destruct Adam_first_step_real as (o' & s' & Hrun & _).
  exists o', s'.
  assert (Hnd : NoDup (params (Adam_default (F := R) [0]))) by (apply NoDup_singleton).
  split; [exact Hnd|]. split; [exact Hrun|].
  exact (proj1 (Adam_step_update (Adam_default [0]) o' one_param s' Hnd Hrun)).
Defined.

Lemma SGD_zero_grad_noop_witness :
  let L : libm := libm_overflow in
  let lr : binary64 := fdec 1 (-2) in
  let o := SGD__init__ [0] lr b64_zero b64_zero in
  let s1 := zero_grads [0] (one_param (F := binary64)) in
  is_finite lr = true /\ b64_ltb b64_zero lr = true /\
  Optimizer_zero_grad [0] one_param = Return tt s1 /\
  SGD_step o s1 = (o, s1).
Proof.
  intros L lr o s1.
  assert (Hfin : is_finite lr = true) by (vm_compute; reflexivity).
  assert (Hpos : b64_ltb b64_zero lr = true) by (vm_compute; reflexivity).
  assert (Hz : Optimizer_zero_grad [0] (one_param (F := binary64)) = Return tt s1)
    by reflexivity.
  split; [exact Hfin|]. split; [exact Hpos|]. split; [exact Hz|].
  exact (SGD_zero_grad_noop [0] lr one_param Hfin Hpos s1 Hz).
Defined.

Lemma Linear_init_parameters_witness :
  let L : libm := libm_overflow in
  let random : binary64 -> binary64 -> M binary64 binary64 := fun a _ => ret a in
  let layer := mkLinear 3 2 [[0; 1; 2]; [3; 4; 5]] (Some [6; 7]) in
  let s1 := final_store (Linear__init__ random 3 2 true init_xavier []) in
  (forall a b s, exists r, random a b s = Return r s) /\
  Linear__init__ random 3 2 true init_xavier [] = Return layer s1 /\
  Linear_parameters layer = seq 0 8 /\
  length s1 = 8.
Proof.
  intros L random layer s1.
  assert (Hpure : forall a b s, exists r, random a b s = Return r s).
  { intros a b s. by exists a. }
  assert (Hinit : Linear__init__ random 3 2 true init_xavier [] = Return layer s1)
    by (vm_compute; reflexivity).
  split; [exact Hpure|]. split; [exact Hinit|].
  pose proof (Linear_init_parameters random Hpure 3 2 true init_xavier [] layer s1
                (or_introl eq_refl) Hinit) as (Hp & Hlen & _).
  split; [exact Hp|exact Hlen].
Defined.

Lemma MLP_call_length_witness :
  let L : libm := libm_overflow in
  let random : binary64 -> binary64 -> M binary64 binary64 := fun a _ => ret a in
  let mlp := mkMLP [mkLinear 2 2 [[0; 1]; [2; 3]] (Some [4; 5]);
                    mkLinear 2 1 [[6; 7]] (Some [8])] "relu" "linear" in
  let s1 := final_store (MLP__init__ random [2; 2; 1] "relu" "linear" []) in
  MLP__init__ random [2; 2; 1] "relu" "linear" [] = Return mlp s1 /\
  MLP__call__ mlp [0] s1 = Raise ValueError s1 /\
  exists out s', MLP__call__ mlp [0; 1] s1 = Return out s'.
Proof.
  intros L random mlp s1.
  assert (Hinit : MLP__init__ random [2; 2; 1] "relu" "linear" [] = Return mlp s1)
    by (vm_compute; reflexivity).
  split; [exact Hinit|]. split.
  - apply (proj1 (MLP_call_length random [2; 2; 1] "relu" "linear" [] mlp s1 [0] s1
                    Hinit)).
    discriminate.
  - apply (proj2 (proj2 (MLP_call_length random [2; 2; 1] "relu" "linear" [] mlp s1
                           [0; 1] s1 Hinit))); [by left|by right|reflexivity].
Defined.

Lemma MLP_unknown_activation_witness :
  let L : libm := libm_overflow in
  let random : binary64 -> binary64 -> M binary64 binary64 := fun a _ => ret a in
  let mlp := mkMLP [mkLinear 2 1 [[0; 1]] (Some [2])] "relu" "softmax" in
  let s1 := final_store (MLP__init__ random [2; 1] "relu" "softmax" []) in
  MLP__init__ random [2; 1] "relu" "softmax" [] = Return mlp s1 /\
  exists layer out s',
    layers mlp !! 0 = Some layer /\
    Linear__call__ layer [0; 1] s1 = Return out s' /\
    MLP__call__ mlp [0; 1] s1 = Raise ValueError s'.
Proof.
  intros L random mlp s1.
  assert (Hinit : MLP__init__ random [2; 1] "relu" "softmax" [] = Return mlp s1)
    by (vm_compute; reflexivity).
  split; [exact Hinit|].
  apply (MLP_unknown_activation random [2; 1] "relu" "softmax" [] mlp s1 [0; 1] s1
           Hinit); [discriminate..|reflexivity].
Defined.

Lemma MLP_init_parameters_witness :
  let L : libm := libm_overflow in
  let random : binary64 -> binary64 -> M binary64 binary64 := fun a _ => ret a in
  let mlp := mkMLP [mkLinear 2 2 [[0; 1]; [2; 3]] (Some [4; 5]);
                    mkLinear 2 1 [[6; 7]] (Some [8])] "relu" "linear" in
  let s1 := final_store (MLP__init__ random [2; 2; 1] "relu" "linear" []) in
  (forall a b s, exists r, random a b s = Return r s) /\
  MLP__init__ random [2; 2; 1] "relu" "linear" [] = Return mlp s1 /\
  MLP_parameters mlp = seq 0 (length s1 - 0) /\
  NoDup (MLP_parameters mlp).
Proof.
  intros L random mlp s1.
  assert (Hpure : forall a b s, exists r, random a b s = Return r s).
  { intros a b s. by exists a. }
  assert (Hinit : MLP__init__ random [2; 2; 1] "relu" "linear" [] = Return mlp s1)
    by (vm_compute; reflexivity).
  split; [exact Hpure|]. split; [exact Hinit|].
  pose proof (MLP_init_parameters random Hpure [2; 2; 1] "relu" "linear" [] mlp s1
                Hinit) as (Hp & _ & Hnd).
  split; [exact Hp|exact Hnd].
Defined.

Lemma stable_softmax_real_witness :
  [0] <> [] /\
  Forall (fun v => v < length (one_param (F := R))) [0] /\
  exists probs s',
    stable_softmax [0] (one_param (F := R)) = Return probs s' /\
    foldr Rplus 0%R (get_data s' <$> probs) = 1%R.
Proof.
  assert (Hne : [0] <> []) by discriminate.
  assert (Hall : Forall (fun v => v < length (one_param (F := R))) [0]).
  { constructor; [simpl; lia|constructor]. }
  split; [exact Hne|]. split; [exact Hall|].
  destruct (stable_softmax_real [0] one_param Hne Hall)
    as (probs & s' & Hrun & _ & _ & Hsum).
  exists probs, s'. split; [exact Hrun|exact Hsum].
Defined.

Lemma MSELoss_real_witness :
  length [0] = length [1%R] /\ [0] <> [] /\
  Forall (fun p => p < length (one_param (F := R))) [0] /\
  exists loss s',
    MSELoss [0] (PyFl <$> [1%R]) (one_param (F := R)) = Return loss s' /\
    get_data s' loss
    = (foldr Rplus 0
         (zip_with (fun p t => (get_data one_param p - t) * (get_data one_param p - t))
                   [0%nat] [1])
       / INR (length [0%nat]))%R.
Proof.
  assert (Hlen : length [0] = length [1%R]) by reflexivity.
  assert (Hne : [0] <> []) by discriminate.
  assert (Hall : Forall (fun p => p < length (one_param (F := R))) [0]).
  { constructor; [simpl; lia|constructor]. }
  split; [exact Hlen|]. split; [exact Hne|]. split; [exact Hall|].
  exact (MSELoss_real [0] [1%R] one_param Hlen Hne Hall).
Defined.





Lemma backward_within_limit_witness :
  let L : libm := libm_overflow in
  let s : store binary64 := final_store (xy_plus_y []) in
  wf_store s /\ shallow 3 s 3 /\
  (backward_within (set_order (fun _ => 0)) 3 3 s = Raise RecursionError s \/
   backward_within (set_order (fun _ => 0)) 3 3 s
   = backward (set_order (fun _ => 0)) 3 s) /\
  backward_within (set_order (fun _ => 0)) 3 3 s
  = backward (set_order (fun _ => 0)) 3 s.
Proof.
  intros L s.
  assert (Hwf : wf_store s) by (apply wf_storeb_sound; vm_compute; reflexivity).
  assert (Hsh : shallow 3 s 3).
  { intros c Hc c0 Hc0 c1 Hc1. vm_compute in Hc.
    repeat (apply elem_of_cons in Hc as [->|Hc]);
      try (by apply elem_of_nil in Hc); vm_compute in Hc0;
      repeat (apply elem_of_cons in Hc0 as [->|Hc0]);
      try (by apply elem_of_nil in Hc0); vm_compute in Hc1;
      by apply elem_of_nil in Hc1. }
  split; [exact Hwf|]. split; [exact Hsh|].
  split;
    [exact (proj1 (backward_within_limit (fun _ => 0) 3 s 3 Hwf))
    |exact (proj2 (backward_within_limit (fun _ => 0) 3 s 3 Hwf) (or_introl Hsh))].
Defined.

Lemma backward_root_grad_witness :
  let L : libm := libm_overflow in
  let s : store binary64 := final_store (xy_plus_y []) in
  wf_store s /\ 3 < length s /\
  (backward_within (set_order (fun _ => 0)) 1000 3 s = Raise RecursionError s \/
   get_grad (final_store (backward_within (set_order (fun _ => 0)) 1000 3 s)) 3
   = b64_one).
Proof.
  intros L s.
  assert (Hwf : wf_store s) by (apply wf_storeb_sound; vm_compute; reflexivity).
  assert (Hlt : 3 < length s) by (vm_compute; lia).
  split; [exact Hwf|]. split; [exact Hlt|].
  exact (backward_root_grad (fun _ => 0) 1000 s 3 Hwf Hlt).
Defined.

Lemma C7_witness :
  let s : store R := one_param in
  wf_store s /\ 0 < length s /\
  exists sg z s2,
    sigmoid_times 0 1%R s = Return (sg, z) s2 /\
    get_data s2 sg = (1 / (1 + Rtrigo_def.exp (- get_data s 0)))%R /\
    forall s', backward (set_order (fun _ => 0)) z s2 = Return tt s' ->
      get_grad s' sg = 1%R /\
      get_grad s' 0
      = (get_data s2 sg * (1 - get_data s2 sg) * get_grad s' sg)%R.
Proof.
  intros s.
  assert (Hwf : wf_store s) by (apply wf_storeb_sound; reflexivity).
  assert (Hlt : 0 < length s) by (simpl; lia).
  split; [exact Hwf|]. split; [exact Hlt|].
  exact (proj1 (proj2 (proj2 C7_sigmoid_by_composition))
           (fun _ => 0) s 0 1%R Hwf Hlt).
Defined.

Lemma C10_witness :
  let L : libm := libm_steep in
  let s : store binary64 := large_logits in
  libm_regular L /\
  [0; 1; 2] <> [] /\
  Forall (fun v => v < length s /\
                   is_nan (get_data s v) = false /\
                   valid_double (get_data s v) = true) [0; 1; 2] /\
  c_exp (b64_of_Z 1000) = S754_infinity false /\
  exists probs s',
    stable_softmax [0; 1; 2] s = Return probs s' /\
    length probs = length [0; 1; 2].
Proof.
  intros L s.
  assert (HL : libm_regular L) by apply libm_steep_regular.
  assert (Hne : [0; 1; 2] <> @nil nat) by discriminate.
  assert (Hall : Forall (fun v => v < length s /\
                   is_nan (get_data s v) = false /\
                   valid_double (get_data s v) = true) [0; 1; 2]).
  { repeat constructor; vm_compute; lia. }
  split; [exact HL|]. split; [exact Hne|]. split; [exact Hall|].
  split; [vm_compute; reflexivity|].
  exact (proj1 (proj2 (proj2 C10_softmax_lengths)) L [0; 1; 2] s HL Hne Hall).
Defined.
